(** * kaspad consensus core: a shallow embedding and its properties

    The development follows the Go sources: protocol/blocks.go
    (OnNewBlock), the connection manager (checkIncomingConnections), the
    orphan pool, GHOSTDAG colouring, finality, the UTXO diff algebra and
    block connection of consensus/blockdag/dag.go; then the selected-parent
    chain of the virtual block (virtualblock.go), the keys and ancestor
    queries of the block index (blockindexio.go), gas limits, double
    spends, the finality point and the finalization of its past (dag.go),
    the notification manager of the wallet, and the entries of a UTXO diff
    with the iterator over a set with a diff (package utxo).

    Conventions.  Go pointers to block nodes, blocks and transactions are
    identified with the hash they carry; a nil pointer is [None].  Fixed
    width integers are [N] or [Z] with the wrap-around written out.  A Go
    map is a [gmap]; where the source ranges over a map the order of the
    visit is an explicit list. *)

From Stdlib Require Import ZArith Lia.
From stdpp Require Import base option list gmap fin_maps fin_sets strings sorting.

#[local] Open Scope N_scope.

(** ** Errors, results and panics *)

Module Go.

(** The rule-error codes of package common that the modelled code raises. *)
Inductive ErrorCode : Set :=
| ErrFinality
| ErrBadUTXOCommitment
| ErrBadMerkleRoot
| ErrMissingTxOut
| ErrInvalidGas
| ErrBadCoinbaseTransaction.

(** A Go [error] value: a rule error, any other error, or an error wrapped
    by [errors.Wrapf]. *)
Inductive error : Set :=
| RuleError (c : ErrorCode)
| OtherError (msg : string)
| Wrapped (msg : string) (inner : error).

(** [errors.As(err, &common.RuleError{})]: the first rule error of the chain. *)
Fixpoint asRuleError (e : error) : option ErrorCode :=
  match e with
  | RuleError c => Some c
  | OtherError _ => None
  | Wrapped _ inner => asRuleError inner
  end.

(** Run-time panics of the Go runtime that the modelled code can hit. *)
Inductive panic : Set :=
| SliceBoundsOutOfRange (high cap : nat)
| NilDereference
| PanicWith (e : error).

(** Outcome of a call: a value, a returned error, or a panic. *)
Inductive result (A : Type) : Type :=
| Ok (a : A)
| Err (e : error)
| Panicked (p : panic).

Arguments Ok {A} a.
Arguments Err {A} e.
Arguments Panicked {A} p.

#[export] Instance result_ret : MRet result := fun _ a => Ok a.

#[export] Instance result_bind : MBind result := fun _ _ k r =>
  match r with
  | Ok a => k a
  | Err e => Err e
  | Panicked p => Panicked p
  end.

End Go.

Import Go.

(** ** protocol/blocks.go: OnNewBlock *)

Module Protocol.

Abbreviation TxID := N.

(** A slice of [*daghash.TxID]; a nil pointer is [None].  Every slice below
    comes from [make] with one size argument, so its capacity is its length. *)
Abbreviation TxIDSlice := (list (option TxID)).

(** [make([]*daghash.TxID, n)]. *)
Definition make (n : nat) : TxIDSlice := replicate n None.

(** [for i, tx := range txs { s[i] = tx.ID() }]. *)
Fixpoint fillIDs (s : TxIDSlice) (i : nat) (ids : list TxID) : TxIDSlice :=
  match ids with
  | [] => s
  | id :: rest => fillIDs (<[i := Some id]> s) (S i) rest
  end.

(** [copy(dst, src)]: copies [min (len dst) (len src)] elements. *)
Definition copy (dst src : TxIDSlice) : TxIDSlice :=
  let n := Nat.min (length dst) (length src) in
  take n src ++ drop n dst.

(** [copy(s[n:], s)]: destination and source share the backing array; Go
    copies as if the source were read first. *)
Definition copyOntoTail (s : TxIDSlice) (n : nat) : TxIDSlice :=
  take n s ++ copy (drop n s) s.

(** [s[:high]] for a slice whose capacity is its length. *)
Definition resliceTo (s : TxIDSlice) (high : nat) : result TxIDSlice :=
  if decide (high <= length s)%nat then Ok (take high s)
  else Panicked (SliceBoundsOutOfRange high (length s)).

(** What [OnNewBlock] reads from the manager and its collaborators, whose
    code is outside the file: the result of [txPool.HandleNewBlock] (the IDs
    of the transactions accepted to the mempool), the IBD flag, and
    [shouldRebroadcastTransactions] and [txIDsToRebroadcast] as they answer
    after [updateTransactionsToRebroadcast]. *)
Record Manager := {
  handleNewBlock : result (list TxID);
  isInIBD : N;
  shouldRebroadcastTransactions : bool;
  txIDsToRebroadcast : list TxID;
}.

(** What the call did: returned without relaying, or handed an inventory to
    [Broadcast]. *)
Inductive Relayed :=
| NoRelay
| Broadcast (inv : TxIDSlice).

Section OnNewBlock.

(** [wire.MaxInvPerTxInvMsg]. *)
Variable MaxInvPerTxInvMsg : nat.

Definition rebroadcastIDs (m : Manager) : list TxID :=
  if shouldRebroadcastTransactions m then txIDsToRebroadcast m else [].

Definition OnNewBlock (m : Manager) : result Relayed :=
  transactionsAcceptedToMempool ← handleNewBlock m;
  if negb (isInIBD m =? 0) then Ok NoRelay
  else
    let txIDsToRebroadcast := rebroadcastIDs m in
    let txIDsToBroadcast :=
      make (length transactionsAcceptedToMempool + length txIDsToRebroadcast) in
    let txIDsToBroadcast := fillIDs txIDsToBroadcast 0 transactionsAcceptedToMempool in
    let txIDsToBroadcast :=
      copyOntoTail txIDsToBroadcast (length transactionsAcceptedToMempool) in
    txIDsToBroadcast ← resliceTo txIDsToBroadcast MaxInvPerTxInvMsg;
    Ok (Broadcast txIDsToBroadcast).

(** The inventory the documentation of [OnNewBlock] describes: the accepted
    IDs followed by the rebroadcast IDs. *)
Definition intendedInventory (accepted rebroadcast : list TxID) : TxIDSlice :=
  (Some <$> accepted) ++ (Some <$> rebroadcast).

End OnNewBlock.

End Protocol.

(** ** The connection manager: checkIncomingConnections *)

Module ConnManager.

(** A [*netadapter.NetConnection]: its address and what [Disconnect]
    returns for it. *)
Record NetConnection := {
  connAddress : string;
  disconnectResult : option error;
}.

(** [type connectionSet map[string]*netadapter.NetConnection]. *)
Abbreviation connectionSet := (gmap string NetConnection).

Definition add (connection : NetConnection) (cs : connectionSet) : connectionSet :=
  <[connAddress connection := connection]> cs.

Definition remove (connection : NetConnection) (cs : connectionSet) : connectionSet :=
  delete (connAddress connection) cs.

Definition convertToSet (connections : list NetConnection) : connectionSet :=
  foldl (fun cs c => add c cs) ∅ connections.

Record ConnectionManager := {
  maxIncoming : Z;
}.

(** What the call did to the outside: the peers it disconnected, in order,
    and the errors it logged. *)
Record Effects := {
  disconnected : list string;
  logged : list (string * error);
}.

Definition noEffects : Effects := {| disconnected := []; logged := [] |}.

(** One iteration of [for address, connection := range connSet]. *)
Definition disconnectOne (st : connectionSet * Effects)
    (entry : string * NetConnection) : connectionSet * Effects :=
  let '(connSet, eff) := st in
  let '(address, connection) := entry in
  let eff :=
    {| disconnected := disconnected eff ++ [address];
       logged := match disconnectResult connection with
                 | Some err => logged eff ++ [(address, err)]
                 | None => logged eff
                 end |} in
  (remove connection connSet, eff).

(** [order] is the order in which the range statement visits the entries
    of [connSet]; Go leaves it unspecified.  The body removes only the
    entry it is visiting, so every entry is visited. *)
Definition checkIncomingConnections (c : ConnectionManager)
    (order : list (string * NetConnection)) (connSet : connectionSet)
    : connectionSet * Effects :=
  if decide (Z.of_nat (size connSet) <= maxIncoming c)%Z
  then (connSet, noEffects)
  else foldl disconnectOne (connSet, noEffects) order.

(** Every entry is filed under the address of its connection, as [add]
    files it. *)
Definition wellKeyed (cs : connectionSet) : Prop :=
  forall a c, cs !! a = Some c -> connAddress c = a.

(** The contract of the function's documentation: nothing is disconnected
    when the set is within the limit, and only the excess otherwise. *)
Definition disconnectsOnlyExcess (c : ConnectionManager)
    (connSet remaining : connectionSet) (eff : Effects) : Prop :=
  if decide (Z.of_nat (size connSet) <= maxIncoming c)%Z
  then disconnected eff = [] /\ remaining = connSet
  else (Z.of_nat (size remaining) <= maxIncoming c)%Z /\
       (0 <= maxIncoming c -> Z.of_nat (size remaining) = maxIncoming c)%Z /\
       length (disconnected eff) = (size connSet - size remaining)%nat.

Definition peer (a : string) : NetConnection :=
  {| connAddress := a; disconnectResult := None |}.

Definition threePeers : connectionSet :=
  convertToSet [peer "10.0.0.1:16111"; peer "10.0.0.2:16111"; peer "10.0.0.3:16111"].

End ConnManager.

(** ** consensus/blockdag/dag.go: the orphan pool *)

Module Orphans.

Abbreviation Hash := N.

(** [mstime.Time], in milliseconds. *)
Abbreviation Time := Z.

(** The parts of a [*util.Block] the orphan pool reads. *)
Record Block := {
  blockHash : Hash;
  parentHashes : list Hash;
  timestamp : Time;
}.

Record orphanBlock := {
  block : Block;
  expiration : Time;
}.

(** The orphan fields of [BlockDAG]. *)
Record OrphanPool := {
  orphans : gmap Hash orphanBlock;
  prevOrphans : gmap Hash (list orphanBlock);
  newestOrphan : option orphanBlock;
}.

Definition maxOrphanBlocks : nat := 100.

(** [time.Hour] in milliseconds. *)
Definition hour : Z := 3600000.

Definition emptyPool : OrphanPool :=
  {| orphans := ∅; prevOrphans := ∅; newestOrphan := None |}.

(** The body of the loop over the parent hashes in [removeOrphanBlock]. *)
Definition removeFromPrevOrphans (orphanHash : Hash)
    (prev : gmap Hash (list orphanBlock)) (parentHash : Hash)
    : gmap Hash (list orphanBlock) :=
  let orphans := default [] (prev !! parentHash) in
  let orphans := filter (fun o => blockHash (block o) <> orphanHash) orphans in
  match orphans with
  | [] => delete parentHash prev
  | _ => <[parentHash := orphans]> prev
  end.

Definition removeOrphanBlock (dag : OrphanPool) (orphan : orphanBlock) : OrphanPool :=
  let orphanHash := blockHash (block orphan) in
  {| orphans := delete orphanHash (orphans dag);
     prevOrphans := foldl (removeFromPrevOrphans orphanHash) (prevOrphans dag)
                      (parentHashes (block orphan));
     newestOrphan := newestOrphan dag |}.

(** [t.After(u)]. *)
Definition After (t u : Time) : bool := (u <? t)%Z.

(** One iteration of the expiry loop of [addOrphanBlock]. *)
Definition expireOrTrack (now : Time) (dag : OrphanPool)
    (entry : Hash * orphanBlock) : OrphanPool :=
  let oBlock := entry.2 in
  if After now (expiration oBlock) then removeOrphanBlock dag oBlock
  else
    match newestOrphan dag with
    | None =>
        {| orphans := orphans dag; prevOrphans := prevOrphans dag;
           newestOrphan := Some oBlock |}
    | Some newest =>
        if After (timestamp (block oBlock)) (timestamp (block newest))
        then {| orphans := orphans dag; prevOrphans := prevOrphans dag;
                newestOrphan := Some oBlock |}
        else dag
    end.

Definition insertOrphan (now : Time) (blk : Block) (dag : OrphanPool) : OrphanPool :=
  let oBlock := {| block := blk; expiration := (now + hour)%Z |} in
  {| orphans := <[blockHash blk := oBlock]> (orphans dag);
     prevOrphans :=
       foldl (fun prev parentHash =>
                <[parentHash := default [] (prev !! parentHash) ++ [oBlock]]> prev)
             (prevOrphans dag) (parentHashes blk);
     newestOrphan := newestOrphan dag |}.

(** [addOrphanBlock], with the clock reading [now] and the order [order] in
    which the range statement visits the entries of [dag.orphans] (the loop
    removes only the entry it is visiting, so every entry is visited). *)
Definition addOrphanBlockIn (order : list (Hash * orphanBlock)) (now : Time)
    (blk : Block) (dag : OrphanPool) : result OrphanPool :=
  let dag := foldl (expireOrTrack now) dag order in
  if decide (maxOrphanBlocks < size (orphans dag) + 1)%nat then
    match newestOrphan dag with
    | None => Panicked NilDereference
    | Some newest =>
        if After (timestamp blk) (timestamp (block newest)) then Ok dag
        else
          let dag := removeOrphanBlock dag newest in
          let dag := {| orphans := orphans dag; prevOrphans := prevOrphans dag;
                        newestOrphan := None |} in
          Ok (insertOrphan now blk dag)
    end
  else Ok (insertOrphan now blk dag).

(** The same with the visiting order of the map's own enumeration. *)
Definition addOrphanBlock (now : Time) (blk : Block) (dag : OrphanPool)
    : result OrphanPool :=
  addOrphanBlockIn (map_to_list (orphans dag)) now blk dag.

(** A run of [addOrphanBlock] calls, each with its clock reading. *)
Fixpoint addOrphanBlocks (calls : list (Time * Block)) (dag : OrphanPool)
    : result OrphanPool :=
  match calls with
  | [] => Ok dag
  | (now, blk) :: rest =>
      dag ← addOrphanBlock now blk dag;
      addOrphanBlocks rest dag
  end.

(** An orphan with hash [h], one unknown parent and timestamp [ts]. *)
Definition orphanAt (h : Hash) (ts : Time) : Block :=
  {| blockHash := h; parentHashes := [h + 1000]; timestamp := ts |}.

(** One orphan stamped 1000 received at time 0, then 99 orphans stamped
    2..100 received at time 1, then one stamped 101 received one
    millisecond after the first one expired. *)
Definition fillingCalls : list (Time * Block) :=
  (0%Z, orphanAt 1 1000%Z)
  :: ((fun i => (1%Z, orphanAt (N.of_nat i) (Z.of_nat i))) <$> seq 2 99)
  ++ [((hour + 1)%Z, orphanAt 101 101%Z)].

Definition poolOf (r : result OrphanPool) : OrphanPool :=
  match r with
  | Ok dag => dag
  | _ => emptyPool
  end.

(** The pool those calls leave. *)
Definition filledPool : OrphanPool := poolOf (addOrphanBlocks fillingCalls emptyPool).

(** The orphan the pool still remembers as its newest. *)
Definition expiredOrphan : orphanBlock :=
  {| block := orphanAt 1 1000%Z; expiration := hour |}.

(** [IsKnownOrphan]. *)
Definition IsKnownOrphan (dag : OrphanPool) (h : Hash) : bool :=
  bool_decide (is_Some (orphans dag !! h)).

(** The orphans of a pool that are not expired at [now]. *)
Definition unexpired (now : Time) (pool : gmap Hash orphanBlock)
    : gmap Hash orphanBlock :=
  filter (fun entry => After now (expiration entry.2) = false) pool.

(** A hundred orphans stamped 1..100, all received at time 1. *)
Definition freshCalls : list (Time * Block) :=
  (fun i => (1%Z, orphanAt (N.of_nat i) (Z.of_nat i))) <$> seq 1 100.

Definition freshPool : OrphanPool := poolOf (addOrphanBlocks freshCalls emptyPool).

End Orphans.

(** ** GHOSTDAG colouring and the finality check *)

Module Ghostdag.

Abbreviation Hash := N.

(** [dagconfig.KType] is a byte: the block index stores the anticone sizes
    with [binaryserializer.Uint8]. *)
Definition wrapK (n : N) : N := n mod 256.

(** [uint64] arithmetic. *)
Definition wrap64 (n : N) : N := n mod 2 ^ 64.

#[local] Unset Elimination Schemes.

(** The fields of a block node that colouring and finality read.  A node
    points to its parents, its selected parent and its blues; the anticone
    sizes are filed under the hash of the node they belong to. *)
Inductive BlockNode := mkBlockNode {
  hash : Hash;
  parents : list BlockNode;
  selectedParent : option BlockNode;
  blues : list BlockNode;
  bluesAnticoneSizes : gmap Hash N;
  blueScore : N;
  utxoCommitment : Hash;
}.

#[local] Set Elimination Schemes.

(** A hash stands for the number its 32 bytes spell, so two hashes differ
    in some byte exactly when the numbers differ.  Pointer equality of
    nodes of one store: one node per hash. *)
Definition sameNode (a b : BlockNode) : bool := bool_decide (hash a = hash b).

Definition sameNodeOpt (a b : option BlockNode) : bool :=
  match a, b with
  | Some a, Some b => sameNode a b
  | None, None => true
  | _, _ => false
  end.

Definition SetSelectedParent (sp : option BlockNode) (n : BlockNode) : BlockNode :=
  mkBlockNode (hash n) (parents n) sp (blues n) (bluesAnticoneSizes n) (blueScore n)
    (utxoCommitment n).

Definition SetBlues (bs : list BlockNode) (n : BlockNode) : BlockNode :=
  mkBlockNode (hash n) (parents n) (selectedParent n) bs (bluesAnticoneSizes n) (blueScore n)
    (utxoCommitment n).

Definition SetBluesAnticoneSizes (m : gmap Hash N) (n : BlockNode) : BlockNode :=
  mkBlockNode (hash n) (parents n) (selectedParent n) (blues n) m (blueScore n)
    (utxoCommitment n).

Definition SetBlueScore (s : N) (n : BlockNode) : BlockNode :=
  mkBlockNode (hash n) (parents n) (selectedParent n) (blues n) (bluesAnticoneSizes n) s
    (utxoCommitment n).

(** [isGenesis]: the node has no parents. *)
Definition IsGenesis (n : BlockNode) : bool :=
  match parents n with [] => true | _ => false end.

(** [less] of the block index: by blue score, then by hash. *)
Definition Less (node other : BlockNode) : bool :=
  if blueScore node =? blueScore other then hash node <? hash other
  else blueScore node <? blueScore other.

(** [sort.Slice(s, func(i, j) bool { return s[i].Less(s[j]) })]: the
    ascending arrangement, which is unique for nodes of distinct hashes. *)
Fixpoint insertByLess (x : BlockNode) (l : list BlockNode) : list BlockNode :=
  match l with
  | [] => [x]
  | y :: l' => if Less y x then y :: insertByLess x l' else x :: l
  end.

Definition sortByLess (l : list BlockNode) : list BlockNode :=
  foldr insertByLess [] l.

(** The nodes above [n] on its selected-parent chain, nearest first. *)
Fixpoint selectedParentChain (n : BlockNode) : list BlockNode :=
  match selectedParent n with
  | Some p => p :: selectedParentChain p
  | None => []
  end.

(** Number of nodes reachable from [n] through parent pointers, counted
    with multiplicity; it bounds the work of the anticone search. *)
Fixpoint pastSize (n : BlockNode) : nat :=
  S ((fix sum (l : list BlockNode) : nat :=
        match l with
        | [] => O
        | p :: l => (pastSize p + sum l)%nat
        end) (parents n)).

Definition sumSizes (l : list BlockNode) : nat :=
  foldr (fun p n => (pastSize p + n)%nat) O l.

(** Modelled from the spec: [BlockNodeSet.Bluest] of package blocknode, which
    is not among the sources: the parent with the highest blue score, ties
    broken by the smaller hash; nil for the empty set. *)
Definition Bluest (ps : list BlockNode) : option BlockNode :=
  foldl (fun best node =>
           match best with
           | None => Some node
           | Some b =>
               if (blueScore b <? blueScore node)
                  || ((blueScore b =? blueScore node) && (hash node <? hash b))
               then Some node else best
           end) None ps.

(** Modelled from the spec: [blocknode.BlueAnticoneSize], which is not
    among the sources: the size stored for [block] by the nearest node of
    the selected-parent chain of [context] that has an entry for it. *)
Fixpoint BlueAnticoneSize (block context : BlockNode) : result N :=
  match bluesAnticoneSizes context !! hash block with
  | Some size => Ok size
  | None =>
      match selectedParent context with
      | Some p => BlueAnticoneSize block p
      | None => Err (OtherError "block is not in blue set of the given context")
      end
  end.

(** State of the anticone search. *)
Record AnticoneSearch := {
  anticoneSet : gset Hash;
  anticoneSlice : list BlockNode;
  selectedParentPast : gset Hash;
  queue : list BlockNode;
}.

Definition pushAnticone (parent : BlockNode) (st : AnticoneSearch) : AnticoneSearch :=
  {| anticoneSet := {[hash parent]} ∪ anticoneSet st;
     anticoneSlice := anticoneSlice st ++ [parent];
     selectedParentPast := selectedParentPast st;
     queue := queue st ++ [parent] |}.

Definition markPast (parent : BlockNode) (st : AnticoneSearch) : AnticoneSearch :=
  {| anticoneSet := anticoneSet st;
     anticoneSlice := anticoneSlice st;
     selectedParentPast := {[hash parent]} ∪ selectedParentPast st;
     queue := queue st |}.

Definition popQueue (st : AnticoneSearch) : AnticoneSearch :=
  {| anticoneSet := anticoneSet st;
     anticoneSlice := anticoneSlice st;
     selectedParentPast := selectedParentPast st;
     queue := tail (queue st) |}.

Section GHOSTDAG.

(** [reachabilityTree.IsInPast], whose code is not among the sources. *)
Variable IsInPast : BlockNode -> option BlockNode -> result bool.

(** [params.K]. *)
Variable K : N.

(** The first loop of [selectedParentAnticone]: the parents other than the
    selected parent. *)
Definition queueParents (node : BlockNode) : AnticoneSearch :=
  foldl (fun st parent =>
           if sameNodeOpt (Some parent) (selectedParent node) then st
           else pushAnticone parent st)
        {| anticoneSet := ∅; anticoneSlice := []; selectedParentPast := ∅; queue := [] |}
        (parents node).

(** [for parent := range current.Parents()] of the second loop. *)
Fixpoint visitParents (node : BlockNode) (ps : list BlockNode) (st : AnticoneSearch)
    : result AnticoneSearch :=
  match ps with
  | [] => Ok st
  | parent :: rest =>
      if bool_decide (hash parent ∈ anticoneSet st)
         || bool_decide (hash parent ∈ selectedParentPast st)
      then visitParents node rest st
      else
        IsInPast parent (selectedParent node) ≫= fun isAncestorOfSelectedParent : bool =>
        if isAncestorOfSelectedParent
        then visitParents node rest (markPast parent st)
        else visitParents node rest (pushAnticone parent st)
  end.

(** [for len(queue) > 0]; [None] when [fuel] iterations do not empty the
    queue. *)
Fixpoint drainQueue (fuel : nat) (node : BlockNode) (st : AnticoneSearch)
    : option (result (list BlockNode)) :=
  match queue st with
  | [] => Some (Ok (anticoneSlice st))
  | current :: _ =>
      match fuel with
      | O => None
      | S fuel =>
          match visitParents node (parents current) (popQueue st) with
          | Ok st => drainQueue fuel node st
          | Err e => Some (Err e)
          | Panicked p => Some (Panicked p)
          end
      end
  end.

Definition selectedParentAnticone (node : BlockNode) : option (result (list BlockNode)) :=
  drainQueue (pastSize node) node (queueParents node).

(** State of the scan of one candidate: [candidateBluesAnticoneSizes],
    [candidateAnticoneSize] and [possiblyBlue]. *)
Record CandidateScan := {
  candidateBluesAnticoneSizes : gmap Hash N;
  candidateAnticoneSize : N;
  possiblyBlue : bool;
}.

(** [for _, block := range chainBlock.Blues()]. *)
Fixpoint scanBlues (newNode blueCandidate : BlockNode) (blocks : list BlockNode)
    (sizes : gmap Hash N) (count : N) : result CandidateScan :=
  match blocks with
  | [] => Ok {| candidateBluesAnticoneSizes := sizes;
                candidateAnticoneSize := count; possiblyBlue := true |}
  | block :: rest =>
      IsInPast block (Some blueCandidate) ≫= fun isAncestorOfBlueCandidate : bool =>
      if isAncestorOfBlueCandidate then scanBlues newNode blueCandidate rest sizes count
      else
        size ← BlueAnticoneSize block newNode;
        let sizes := <[hash block := size]> sizes in
        let count := wrapK (count + 1) in
        if K <? count then
          Ok {| candidateBluesAnticoneSizes := sizes;
                candidateAnticoneSize := count; possiblyBlue := false |}
        else if size =? K then
          Ok {| candidateBluesAnticoneSizes := sizes;
                candidateAnticoneSize := count; possiblyBlue := false |}
        else if K <? size then
          Err (OtherError "found blue anticone size larger than k")
        else scanBlues newNode blueCandidate rest sizes count
  end.

(** [for chainBlock := newNode; possiblyBlue; chainBlock =
    chainBlock.SelectedParent()], over the chain that starts with [newNode]
    itself; [atNewNode] holds in the first iteration only, where
    [chainBlock != newNode] fails.  Walking past the last node of the chain
    dereferences nil. *)
Fixpoint walkChain (newNode blueCandidate : BlockNode) (atNewNode : bool)
    (chain : list BlockNode) (sizes : gmap Hash N) (count : N) : result CandidateScan :=
  match chain with
  | [] => Panicked NilDereference
  | chainBlock :: rest =>
      (if atNewNode then Ok false else IsInPast chainBlock (Some blueCandidate))
        ≫= fun isAncestorOfBlueCandidate : bool =>
      if isAncestorOfBlueCandidate then
        Ok {| candidateBluesAnticoneSizes := sizes;
              candidateAnticoneSize := count; possiblyBlue := true |}
      else
        scanBlues newNode blueCandidate (blues chainBlock) sizes count
          ≫= fun scan : CandidateScan =>
        if possiblyBlue scan
        then walkChain newNode blueCandidate false rest
               (candidateBluesAnticoneSizes scan) (candidateAnticoneSize scan)
        else Ok scan
  end.

(** The assignments made when a candidate is found blue. *)
Definition addBlue (blueCandidate : BlockNode) (scan : CandidateScan)
    (newNode : BlockNode) : BlockNode :=
  let newNode := SetBlues (blues newNode ++ [blueCandidate]) newNode in
  SetBluesAnticoneSizes
    (((fun blueAnticoneSize => wrapK (blueAnticoneSize + 1))
        <$> candidateBluesAnticoneSizes scan)
     ∪ <[hash blueCandidate := candidateAnticoneSize scan]> (bluesAnticoneSizes newNode))
    newNode.

(** [for _, blueCandidate := range selectedParentAnticone]. *)
Fixpoint colorCandidates (newNode : BlockNode) (candidates : list BlockNode)
    : result BlockNode :=
  match candidates with
  | [] => Ok newNode
  | blueCandidate :: rest =>
      walkChain newNode blueCandidate true (newNode :: selectedParentChain newNode) ∅ 0
        ≫= fun scan : CandidateScan =>
      if possiblyBlue scan then
        let newNode := addBlue blueCandidate scan newNode in
        if wrapK (N.of_nat (length (blues newNode))) =? wrapK (K + 1)
        then Ok newNode
        else colorCandidates newNode rest
      else colorCandidates newNode rest
  end.

(** [Run]: the coloured node and the sorted anticone of its selected
    parent.  [None] only if the anticone search is cut short. *)
Definition Run (newNode : BlockNode) : option (result (BlockNode * list BlockNode)) :=
  match Bluest (parents newNode) with
  | None => Some (Panicked NilDereference)
  | Some sp =>
      let newNode := SetSelectedParent (Some sp) newNode in
      let newNode := SetBluesAnticoneSizes {[hash sp := 0]} newNode in
      let newNode := SetBlues [sp] newNode in
      anticone ← selectedParentAnticone newNode;
      Some (selectedParentAnticone ← anticone;
            let selectedParentAnticone := sortByLess selectedParentAnticone in
            newNode ← colorCandidates newNode selectedParentAnticone;
            let newNode :=
              SetBlueScore (wrap64 (blueScore sp + N.of_nat (length (blues newNode))))
                newNode in
            Ok (newNode, selectedParentAnticone))
  end.

End GHOSTDAG.

Section Finality.

(** [reachabilityTree.IsReachabilityTreeAncestorOf], whose code is not
    among the sources. *)
Variable IsReachabilityTreeAncestorOf :
  option BlockNode -> option BlockNode -> result bool.

Definition isInSelectedParentChainOf (node other : option BlockNode) : result bool :=
  if sameNodeOpt node other then Ok false
  else IsReachabilityTreeAncestorOf node other.

(** [checkFinalityViolation], given [dag.lastFinalityPoint]. *)
Definition checkFinalityViolation (lastFinalityPoint : option BlockNode)
    (newNode : BlockNode) : result unit :=
  if IsGenesis newNode then Ok ()
  else if sameNodeOpt lastFinalityPoint (selectedParent newNode) then Ok ()
  else
    isInSelectedParentChainOf lastFinalityPoint (selectedParent newNode)
      ≫= fun isInSelectedChain : bool =>
    if negb isInSelectedChain then Err (RuleError ErrFinality)
    else Ok ().

End Finality.

(** The blue-score equation of a node: it has a selected parent, and its
    blue score is the blue score of that parent plus the number of its
    blues. *)
Definition blueScoreEquation (n : BlockNode) : Prop :=
  exists sp, selectedParent n = Some sp
             /\ blueScore n = blueScore sp + N.of_nat (length (blues n)).

(** *** A small DAG: genesis, two children of it, and a block on both *)

(** The hashes of the nodes [n] reaches through parent pointers. *)
Fixpoint pastHashes (n : BlockNode) : gset Hash :=
  (fix union (l : list BlockNode) : gset Hash :=
     match l with
     | [] => ∅
     | p :: l => {[hash p]} ∪ pastHashes p ∪ union l
     end) (parents n).

(** Reachability answered from the parent pointers themselves. *)
Definition pastOracle (this : BlockNode) (other : option BlockNode) : result bool :=
  match other with
  | Some other => Ok (bool_decide (hash this ∈ pastHashes other))
  | None => Panicked NilDereference
  end.

(** Tree ancestry answered from the selected-parent pointers: a node is an
    ancestor of itself and of every node whose chain passes through it. *)
Definition chainOracle (node other : option BlockNode) : result bool :=
  match node, other with
  | Some node, Some other =>
      Ok (bool_decide (hash node ∈ hash <$> other :: selectedParentChain other))
  | _, _ => Panicked NilDereference
  end.

(** Modelled from the spec: the genesis node, which [InitBlockNode] (not
    among the sources) builds without running [Run]: no parents, no
    selected parent, blue score 0.  The block index reads it back the same
    way: a zero selected-parent hash leaves the pointer nil. *)
Definition genesisNode : BlockNode :=
  mkBlockNode 1 [] None [] ∅ 0 0.

Definition nodeA : BlockNode :=
  mkBlockNode 2 [genesisNode] (Some genesisNode) [genesisNode] {[1 := 0]} 1 0.

Definition nodeB : BlockNode :=
  mkBlockNode 3 [genesisNode] (Some genesisNode) [genesisNode] {[1 := 0]} 1 0.

(** A block on [nodeA] and [nodeB], before colouring. *)
Definition nodeC : BlockNode :=
  mkBlockNode 4 [nodeA; nodeB] None [] ∅ 0 0.

(** A block on [nodeA] alone, coloured. *)
Definition nodeD : BlockNode :=
  mkBlockNode 5 [nodeA] (Some nodeA) [nodeA] {[2 := 0]} 2 0.

(** A block on [nodeD], coloured. *)
Definition nodeE : BlockNode :=
  mkBlockNode 6 [nodeD] (Some nodeD) [nodeD] {[5 := 0]} 3 0.

End Ghostdag.

(** ** UTXO diffs and past-UTXO construction *)

Module UTXO.

(** [externalapi.DomainOutpoint]: transaction ID and output index. *)
Abbreviation Outpoint := (N * N)%type.

Record UTXOEntry := {
  Amount : N;
  ScriptPublicKey : string;
  BlockBlueScore : N;
  IsCoinbase : bool;
}.

Abbreviation utxoCollection := (gmap Outpoint UTXOEntry).

Record utxoDiff := {
  toAdd : utxoCollection;
  toRemove : utxoCollection;
}.


#[export] Instance UTXOEntry_eq_dec : EqDecision UTXOEntry.
Proof. solve_decision. Defined.

#[export] Instance utxoDiff_eq_dec : EqDecision utxoDiff.
Proof. solve_decision. Defined.










(** *** Transactions, blocks and acceptance data *)

Record TxOut := {
  Value : N;
  ScriptPubKey : string;
}.

(** The parts of a [*util.Tx] that past-UTXO construction reads; [TxIn]
    holds the previous outpoint of every input. *)
Record Tx := {
  ID : N;
  TxIn : list Outpoint;
  TxOuts : list TxOut;
  IsCoinBase : bool;
}.

Record Block := {
  hashOfBlock : N;
  Transactions : list Tx;
}.

Record TxAcceptanceData := {
  AcceptedTx : Tx;
  IsAccepted : bool;
}.

Record BlockTxsAcceptanceData := {
  BlockHash : N;
  TxsAcceptance : list TxAcceptanceData;
}.

(** Modelled from the spec: the UTXO set of package utxo ([DiffUTXOSet],
    [CloneWithoutBase] and [AddTx] are not among the sources), as the
    collection of unspent outputs the set denotes. *)
Abbreviation UTXOSet := (gmap Outpoint UTXOEntry).

Definition CloneWithoutBase (u : UTXOSet) : UTXOSet := u.

Definition containsInputs (u : UTXOSet) (tx : Tx) : bool :=
  forallb (fun outpoint => bool_decide (is_Some (u !! outpoint))) (TxIn tx).

Definition outputEntries (tx : Tx) (blockBlueScore : N) : list (Outpoint * UTXOEntry) :=
  imap (fun i out =>
          ((ID tx, N.of_nat i),
           {| Amount := Value out; ScriptPublicKey := ScriptPubKey out;
              BlockBlueScore := blockBlueScore; IsCoinbase := IsCoinBase tx |}))
       (TxOuts tx).

Definition appendTx (u : UTXOSet) (tx : Tx) (blockBlueScore : N) : UTXOSet :=
  let spent := foldl (fun u outpoint => delete outpoint u) u (TxIn tx) in
  foldl (fun u oe => <[oe.1 := oe.2]> u) spent (outputEntries tx blockBlueScore).

(** Modelled from the spec: [AddTx]: the transaction is accepted iff every
    outpoint its inputs refer to is in the set; an accepted transaction
    spends those outpoints and adds its outputs, an unaccepted one leaves
    the set as it is. *)
Definition AddTx (u : UTXOSet) (tx : Tx) (blockBlueScore : N) : result (bool * UTXOSet) :=
  if containsInputs u tx then Ok (true, appendTx u tx blockBlueScore)
  else Ok (false, u).

(** The acceptance decision and the set after one transaction of the scan:
    one iteration of the loop over the transactions of a blue block. *)
Definition scanStep (nodeBlueScore : N) (isSelectedParent : bool) (tx : Tx)
    (u : UTXOSet) : bool * UTXOSet :=
  if negb isSelectedParent && IsCoinBase tx then (false, u)
  else if containsInputs u tx then (true, appendTx u tx nodeBlueScore)
  else (false, u).

(** The loop over the transactions of one blue block in [applyBlueBlocks]. *)
Fixpoint applyTransactions (nodeBlueScore : N) (isSelectedParent : bool)
    (transactions : list Tx) (pastUTXO : UTXOSet)
    : result (UTXOSet * list TxAcceptanceData) :=
  match transactions with
  | [] => Ok (pastUTXO, [])
  | tx :: rest =>
      (if negb isSelectedParent && IsCoinBase tx then Ok (false, pastUTXO)
       else AddTx pastUTXO tx nodeBlueScore)
        ≫= fun r : bool * UTXOSet =>
      applyTransactions nodeBlueScore isSelectedParent rest r.2
        ≫= fun s : UTXOSet * list TxAcceptanceData =>
      Ok (s.1, {| AcceptedTx := tx; IsAccepted := r.1 |} :: s.2)
  end.

(** The loop [for i := 0; i < len(blueBlocks); i++], from index [i] on. *)
Fixpoint applyBlocksFrom (nodeBlueScore : N) (i : nat) (blueBlocks : list Block)
    (pastUTXO : UTXOSet) : result (UTXOSet * list BlockTxsAcceptanceData) :=
  match blueBlocks with
  | [] => Ok (pastUTXO, [])
  | blueBlock :: rest =>
      let isSelectedParent := bool_decide (i = 0%nat) in
      applyTransactions nodeBlueScore isSelectedParent (Transactions blueBlock) pastUTXO
        ≫= fun r : UTXOSet * list TxAcceptanceData =>
      applyBlocksFrom nodeBlueScore (S i) rest r.1
        ≫= fun s : UTXOSet * list BlockTxsAcceptanceData =>
      Ok (s.1, {| BlockHash := hashOfBlock blueBlock; TxsAcceptance := r.2 |} :: s.2)
  end.

(** [applyBlueBlocks], given the blue score of the new node. *)
Definition applyBlueBlocks (nodeBlueScore : N) (selectedParentPastUTXO : UTXOSet)
    (blueBlocks : list Block)
    : result (UTXOSet * list BlockTxsAcceptanceData) :=
  applyBlocksFrom nodeBlueScore 0 blueBlocks (CloneWithoutBase selectedParentPastUTXO).

(** The acceptance records of a scan in scan order. *)
Definition acceptanceInScanOrder (data : list BlockTxsAcceptanceData)
    : list TxAcceptanceData :=
  concat (TxsAcceptance <$> data).

(** *** The scan as the spec words it *)

(** The transactions of the blue blocks in the order of the scan: blues
    order, then block order; each comes with the position of its block
    among the blues, from [i] on.  Position 0 is the selected parent. *)
Fixpoint scanOrderFrom (i : nat) (blueBlocks : list Block) : list (nat * Tx) :=
  match blueBlocks with
  | [] => []
  | blueBlock :: rest =>
      ((fun tx => (i, tx)) <$> Transactions blueBlock) ++ scanOrderFrom (S i) rest
  end.

Definition scanOrder (blueBlocks : list Block) : list (nat * Tx) :=
  scanOrderFrom 0 blueBlocks.

(** The spec's acceptance rule: every outpoint the inputs refer to is in
    the past-UTXO, and the transaction is not a coinbase of a blue other
    than the selected parent. *)
Definition acceptedBySpec (pastUTXO : UTXOSet) (item : nat * Tx) : bool :=
  bool_decide
    (Forall (fun outpoint => is_Some (pastUTXO !! outpoint)) (TxIn item.2)
     /\ ~ (item.1 <> 0%nat /\ IsCoinBase item.2 = true)).

(** The past-UTXO the spec accumulates: an accepted transaction spends the
    outpoints of its inputs and adds its outputs at the blue score of the
    new node, an unaccepted one leaves the set as it is.  The accumulation
    runs over the whole scan, across the blocks. *)
Definition accumulate (nodeBlueScore : N) (pastUTXO : UTXOSet) (item : nat * Tx)
    : UTXOSet :=
  if acceptedBySpec pastUTXO item then appendTx pastUTXO item.2 nodeBlueScore
  else pastUTXO.

Definition accumulatedPastUTXO (nodeBlueScore : N) (selectedParentPastUTXO : UTXOSet)
    (processed : list (nat * Tx)) : UTXOSet :=
  foldl (accumulate nodeBlueScore) selectedParentPastUTXO processed.

(** The acceptance records the spec describes for a scan that starts from
    [pastUTXO]. *)
Fixpoint recordsBySpec (nodeBlueScore : N) (pastUTXO : UTXOSet)
    (items : list (nat * Tx)) : list TxAcceptanceData :=
  match items with
  | [] => []
  | item :: rest =>
      {| AcceptedTx := item.2; IsAccepted := acceptedBySpec pastUTXO item |}
      :: recordsBySpec nodeBlueScore (accumulate nodeBlueScore pastUTXO item) rest
  end.

(** *** Two diffs and a short scan *)

Definition entryOf (amount blueScore : N) : UTXOEntry :=
  {| Amount := amount; ScriptPublicKey := "76a914"; BlockBlueScore := blueScore;
     IsCoinbase := false |}.


Definition diffToB : utxoDiff :=
  {| toAdd := {[(1, 0) := entryOf 50 7; (3, 0) := entryOf 20 8]};
     toRemove := {[(2, 0) := entryOf 30 5]} |}.



(** Two transactions that spend the outpoint (9, 0), and the block that
    holds them. *)
Definition spendFirst : Tx :=
  {| ID := 10; TxIn := [(9, 0)]; TxOuts := [{| Value := 5; ScriptPubKey := "51" |}];
     IsCoinBase := false |}.

Definition spendAgain : Tx :=
  {| ID := 11; TxIn := [(9, 0)]; TxOuts := [{| Value := 5; ScriptPubKey := "52" |}];
     IsCoinBase := false |}.

Definition doubleSpendBlock : Block :=
  {| hashOfBlock := 100; Transactions := [spendFirst; spendAgain] |}.

Definition oneOutput : UTXOSet := {[(9, 0) := entryOf 5 1]}.

(** A later blue block: its coinbase, and a transaction that spends (9, 0)
    once more. *)
Definition coinbaseOfBlue : Tx :=
  {| ID := 12; TxIn := []; TxOuts := [{| Value := 50; ScriptPubKey := "53" |}];
     IsCoinBase := true |}.

Definition spendLater : Tx :=
  {| ID := 13; TxIn := [(9, 0)]; TxOuts := [{| Value := 5; ScriptPubKey := "54" |}];
     IsCoinBase := false |}.

Definition laterBlueBlock : Block :=
  {| hashOfBlock := 101; Transactions := [coinbaseOfBlue; spendLater] |}.

End UTXO.

(** ** consensus/blockdag/dag.go: connecting a block *)

Module Connect.

Import Ghostdag UTXO.

(** [BFFastAdd] of the behaviour flags. *)
Definition BFFastAdd : N := 1.

(** Modelled from the spec: the block node store of package blocknode,
    which is not among the sources: a status per node and the set of nodes
    changed since the last flush. *)
Record BlockNodeStore := {
  statuses : gmap Hash N;
  dirty : gset Hash;
}.

Definition NodeStatus (store : BlockNodeStore) (node : BlockNode) : N :=
  default 0 (statuses store !! hash node).

Definition SetStatusFlags (node : BlockNode) (flags : N) (store : BlockNodeStore)
    : BlockNodeStore :=
  {| statuses := <[hash node := N.lor (NodeStatus store node) flags]> (statuses store);
     dirty := {[hash node]} ∪ dirty store |}.

(** Modelled from the spec: the status bits of package blocknode, one bit
    each in the order the spec lists them: data-stored, valid,
    validate-failed, invalid-ancestor. *)
Definition StatusDataStored : N := 1.
Definition StatusValid : N := 2.
Definition StatusValidateFailed : N := 4.
Definition StatusInvalidAncestor : N := 8.

Definition KnownValid (status : N) : bool := negb (N.land status StatusValid =? 0).

(** The database operations whose failure the modelled code handles. *)
Inductive DBOp := OpNewTx | OpFlushBlockNodeStore | OpCommit.

(** A [secp256k1.MultiSet]: a point of the curve, by its coordinates. *)
Abbreviation MultiSet := (Z * Z)%type.

(** [coinbase.CompactFeeData]: bytes. *)
Abbreviation CompactFeeData := (list N).

(** [common.ChainUpdates]. *)
Record ChainUpdates := {
  RemovedChainBlockHashes : list Hash;
  AddedChainBlockHashes : list Hash;
}.

(** Modelled from the spec: the reachability tree, as the interval of each
    node. *)
Abbreviation ReachabilityTree := (gmap Hash (N * N)).

(** Every bucket of the database but the block index: dag-state (the tips
    and the last finality point), utxo-set, utxo-diffs, reachability-data,
    multisets and fee-data. *)
Record OtherBuckets := {
  dagStateBucket : option (list Hash * Hash);
  utxoSetBucket : UTXOSet;
  utxoDiffsBucket : gmap Hash utxoDiff;
  reachabilityDataBucket : gmap Hash (N * N);
  multisetsBucket : gmap Hash MultiSet;
  feeDataBucket : gmap Hash CompactFeeData;
}.

(** The database: the block-index bucket and the other buckets. *)
Record Database := {
  blockIndexBucket : gmap Hash N;
  otherBuckets : OtherBuckets;
}.

(** A database transaction: the writes it will commit. *)
Record TxContext := {
  pendingBlockIndex : gmap Hash N;
}.

Record BlockDAG := {
  blockNodeStore : BlockNodeStore;
  virtualTips : gset Hash;
  virtualUTXOSet : UTXOSet;
  reachabilityTree : ReachabilityTree;
  utxoDiffStore : gmap Hash utxoDiff;
  multisetStore : gmap Hash MultiSet;
  lastFinalityPoint : option BlockNode;
  blockCount : N;
  databaseContext : Database;
}.

Definition withBlockNodeStore (store : BlockNodeStore) (dag : BlockDAG) : BlockDAG :=
  {| blockNodeStore := store; virtualTips := virtualTips dag;
     virtualUTXOSet := virtualUTXOSet dag; reachabilityTree := reachabilityTree dag;
     utxoDiffStore := utxoDiffStore dag; multisetStore := multisetStore dag;
     lastFinalityPoint := lastFinalityPoint dag; blockCount := blockCount dag;
     databaseContext := databaseContext dag |}.

Definition withDatabase (db : Database) (dag : BlockDAG) : BlockDAG :=
  {| blockNodeStore := blockNodeStore dag; virtualTips := virtualTips dag;
     virtualUTXOSet := virtualUTXOSet dag; reachabilityTree := reachabilityTree dag;
     utxoDiffStore := utxoDiffStore dag; multisetStore := multisetStore dag;
     lastFinalityPoint := lastFinalityPoint dag; blockCount := blockCount dag;
     databaseContext := db |}.

Definition withBlockCount (n : N) (dag : BlockDAG) : BlockDAG :=
  {| blockNodeStore := blockNodeStore dag; virtualTips := virtualTips dag;
     virtualUTXOSet := virtualUTXOSet dag; reachabilityTree := reachabilityTree dag;
     utxoDiffStore := utxoDiffStore dag; multisetStore := multisetStore dag;
     lastFinalityPoint := lastFinalityPoint dag; blockCount := n;
     databaseContext := databaseContext dag |}.

Section Connect.

(** The functions [connectBlock] and [verifyAndBuildUTXO] call whose code,
    or the code they rest on, is not among the sources.  The validations
    read the DAG and return; [applyDAGChanges] and [saveChangesFromBlock]
    change it. *)
Record Collaborators := {
  isSynced : BlockDAG -> bool;
  warnUnknownRuleActivations : BlockDAG -> BlockNode -> result unit;
  warnUnknownVersions : BlockDAG -> BlockNode -> result unit;
  IsReachabilityTreeAncestorOf :
    BlockDAG -> option BlockNode -> option BlockNode -> result bool;
  validateGasLimit : BlockDAG -> Block -> result unit;
  pastUTXO :
    BlockDAG -> BlockNode -> result (UTXOSet * UTXOSet * list BlockTxsAcceptanceData);
  validateAcceptedIDMerkleRoot :
    BlockNode -> list BlockTxsAcceptanceData -> result unit;
  checkConnectToPastUTXO :
    BlockDAG -> BlockNode -> UTXOSet -> list Tx -> bool -> result CompactFeeData;
  calcMultiset :
    BlockDAG -> BlockNode -> list BlockTxsAcceptanceData -> UTXOSet -> result MultiSet;
  Finalize : MultiSet -> Hash;
  ValidateCoinbaseTransaction :
    BlockDAG -> BlockNode -> Block -> list BlockTxsAcceptanceData -> result unit;
  applyDAGChanges :
    BlockDAG -> BlockNode -> UTXOSet -> MultiSet -> list BlockNode ->
    BlockDAG * result (utxoDiff * ChainUpdates);
  saveChangesFromBlock :
    BlockDAG -> Block -> utxoDiff -> list BlockTxsAcceptanceData -> CompactFeeData ->
    BlockDAG * result unit;
  ioError : DBOp -> option error;
}.

Variable env : Collaborators.

(** [databaseContext.NewTx], [blockNodeStore.FlushToDB] and [dbTx.Commit]. *)
Definition NewTx (db : Database) : result TxContext :=
  match ioError env OpNewTx with
  | Some e => Err e
  | None => Ok {| pendingBlockIndex := ∅ |}
  end.

Definition FlushToDB (store : BlockNodeStore) (dbTx : TxContext) : result TxContext :=
  match ioError env OpFlushBlockNodeStore with
  | Some e => Err e
  | None =>
      Ok {| pendingBlockIndex :=
              filter (fun kv => kv.1 ∈ dirty store) (statuses store)
              ∪ pendingBlockIndex dbTx |}
  end.

Definition Commit (db : Database) (dbTx : TxContext) : result Database :=
  match ioError env OpCommit with
  | Some e => Err e
  | None =>
      Ok {| blockIndexBucket := pendingBlockIndex dbTx ∪ blockIndexBucket db;
            otherBuckets := otherBuckets db |}
  end.

(** [hash.IsEqual]. *)
Definition IsEqual (a b : Hash) : bool := bool_decide (a = b).

Definition verifyAndBuildUTXO (dag : BlockDAG) (node : BlockNode)
    (transactions : list Tx) (fastAdd : bool)
    : result (UTXOSet * list BlockTxsAcceptanceData * CompactFeeData * MultiSet) :=
  pastUTXO env dag node
    ≫= fun r : UTXOSet * UTXOSet * list BlockTxsAcceptanceData =>
  let '(pastUTXO, selectedParentPastUTXO, txsAcceptanceData) := r in
  _ ← validateAcceptedIDMerkleRoot env node txsAcceptanceData;
  feeData ← checkConnectToPastUTXO env dag node pastUTXO transactions fastAdd;
  multiset ← calcMultiset env dag node txsAcceptanceData selectedParentPastUTXO;
  let calculatedMultisetHash := Finalize env multiset in
  if negb (IsEqual calculatedMultisetHash (utxoCommitment node)) then
    Err (RuleError ErrBadUTXOCommitment)
  else Ok (pastUTXO, txsAcceptanceData, feeData, multiset).

(** The validations of [connectBlock] up to and including
    [ValidateCoinbaseTransaction]; none of them changes the DAG. *)
Definition validateBlock (dag : BlockDAG) (node : BlockNode) (block : Block)
    (fastAdd : bool)
    : result (UTXOSet * list BlockTxsAcceptanceData * CompactFeeData * MultiSet) :=
  _ ← (if isSynced env dag then
         _ ← warnUnknownRuleActivations env dag node;
         warnUnknownVersions env dag node
       else Ok ());
  _ ← checkFinalityViolation (IsReachabilityTreeAncestorOf env dag)
        (lastFinalityPoint dag) node;
  _ ← validateGasLimit env dag block;
  match verifyAndBuildUTXO dag node (Transactions block) fastAdd with
  | Ok r =>
      _ ← ValidateCoinbaseTransaction env dag node block r.1.1.2;
      Ok r
  | Err err => Err (Wrapped "error verifying UTXO" err)
  | Panicked p => Panicked p
  end.

Definition connectBlock (dag : BlockDAG) (node : BlockNode) (block : Block)
    (selectedParentAnticone : list BlockNode) (fastAdd : bool)
    : BlockDAG * result ChainUpdates :=
  match validateBlock dag node block fastAdd with
  | Ok (newBlockPastUTXO, txsAcceptanceData, newBlockFeeData, newBlockMultiSet) =>
      match applyDAGChanges env dag node newBlockPastUTXO newBlockMultiSet
              selectedParentAnticone with
      | (dag, Ok (virtualUTXODiff, chainUpdates)) =>
          match saveChangesFromBlock env dag block virtualUTXODiff txsAcceptanceData
                  newBlockFeeData with
          | (dag, Ok _) => (dag, Ok chainUpdates)
          | (dag, Err err) => (dag, Err err)
          | (dag, Panicked p) => (dag, Panicked p)
          end
      | (dag, Err err) => (dag, Panicked (PanicWith err))
      | (dag, Panicked p) => (dag, Panicked p)
      end
  | Err err => (dag, Err err)
  | Panicked p => (dag, Panicked p)
  end.

(** The flush of the block node store in a transaction of its own. *)
Definition flushBlockNodeStore (dag : BlockDAG) : result Database :=
  dbTx ← NewTx (databaseContext dag);
  dbTx ← FlushToDB (blockNodeStore dag) dbTx;
  Commit (databaseContext dag) dbTx.

Definition addBlock (dag : BlockDAG) (node : BlockNode) (block : Block)
    (selectedParentAnticone : list BlockNode) (flags : N)
    : BlockDAG * result ChainUpdates :=
  let fastAdd :=
    (N.land flags BFFastAdd =? BFFastAdd)
    || KnownValid (NodeStatus (blockNodeStore dag) node) in
  match connectBlock dag node block selectedParentAnticone fastAdd with
  | (dag, Err err) =>
      match asRuleError err with
      | Some _ =>
          let dag :=
            withBlockNodeStore
              (SetStatusFlags node StatusValidateFailed (blockNodeStore dag)) dag in
          match flushBlockNodeStore dag with
          | Ok db => (withDatabase db dag, Err err)
          | Err err => (dag, Err err)
          | Panicked p => (dag, Panicked p)
          end
      | None => (dag, Err err)
      end
  | (dag, Ok chainUpdates) =>
      (withBlockCount (wrap64 (blockCount dag + 1)) dag, Ok chainUpdates)
  | (dag, Panicked p) => (dag, Panicked p)
  end.

(** Every validation that precedes the comparison of the UTXO commitment
    passes, and the multiset of the block is [multiset]. *)
Definition reachesCommitmentCheck (dag : BlockDAG) (node : BlockNode) (block : Block)
    (flags : N) (multiset : MultiSet) : Prop :=
  let fastAdd :=
    (N.land flags BFFastAdd =? BFFastAdd)
    || KnownValid (NodeStatus (blockNodeStore dag) node) in
  exists pastUTXOSet selectedParentPastUTXO txsAcceptanceData feeData,
    (isSynced env dag = true ->
     warnUnknownRuleActivations env dag node = Ok ()
     /\ warnUnknownVersions env dag node = Ok ())
    /\ checkFinalityViolation (IsReachabilityTreeAncestorOf env dag)
         (lastFinalityPoint dag) node = Ok ()
    /\ validateGasLimit env dag block = Ok ()
    /\ pastUTXO env dag node = Ok (pastUTXOSet, selectedParentPastUTXO, txsAcceptanceData)
    /\ validateAcceptedIDMerkleRoot env node txsAcceptanceData = Ok ()
    /\ checkConnectToPastUTXO env dag node pastUTXOSet (Transactions block) fastAdd
       = Ok feeData
    /\ calcMultiset env dag node txsAcceptanceData selectedParentPastUTXO = Ok multiset.

End Connect.

(** *** A block whose header carries the wrong commitment *)

(** Collaborators for which every validation passes and the multiset of
    any block finalizes to 77. *)
Definition passingCollaborators : Collaborators :=
  {| isSynced := fun _ => true;
     warnUnknownRuleActivations := fun _ _ => Ok ();
     warnUnknownVersions := fun _ _ => Ok ();
     IsReachabilityTreeAncestorOf := fun _ => chainOracle;
     validateGasLimit := fun _ _ => Ok ();
     pastUTXO := fun _ _ => Ok (∅, ∅, []);
     validateAcceptedIDMerkleRoot := fun _ _ => Ok ();
     checkConnectToPastUTXO := fun _ _ _ _ _ => Ok [];
     calcMultiset := fun _ _ _ _ => Ok (0%Z, 0%Z);
     Finalize := fun _ => 77;
     ValidateCoinbaseTransaction := fun _ _ _ _ => Ok ();
     applyDAGChanges := fun dag _ _ _ _ =>
       (dag, Err (OtherError "not reached"));
     saveChangesFromBlock := fun dag _ _ _ _ => (dag, Ok ());
     ioError := fun _ => None |}.

(** A DAG that holds the genesis and [nodeA], the latter being the tip and
    the last finality point. *)
Definition smallDAG : BlockDAG :=
  {| blockNodeStore :=
       {| statuses := {[1 := 3; 2 := 3; 5 := StatusDataStored]}; dirty := ∅ |};
     virtualTips := {[2]};
     virtualUTXOSet := ∅;
     reachabilityTree := ∅;
     utxoDiffStore := ∅;
     multisetStore := ∅;
     lastFinalityPoint := Some nodeA;
     blockCount := 2;
     databaseContext :=
       {| blockIndexBucket := {[1 := 3; 2 := 3; 5 := StatusDataStored]};
          otherBuckets :=
            {| dagStateBucket := Some ([2], 2); utxoSetBucket := ∅;
               utxoDiffsBucket := ∅; reachabilityDataBucket := ∅;
               multisetsBucket := ∅; feeDataBucket := ∅ |} |} |}.

(** The block of [nodeD], whose header commits to 0. *)
Definition blockD : Block := {| hashOfBlock := 5; Transactions := [] |}.

End Connect.

(** ** consensus/blockdag/virtualblock.go: the selected-parent chain *)

Module VirtualBlock.

Import Ghostdag.


(** [chainUpdates]. *)
Record chainUpdates := {
  removedChainBlockHashes : list Hash;
  addedChainBlockHashes : list Hash;
}.






End VirtualBlock.

(** ** consensus/blockindex/blockindexio.go: index keys and node queries *)

Module BlockIndex.

Import Ghostdag.

(** [daghash.HashSize]. *)
Definition HashSize : nat := 32.

(** The [n] low bytes of [v], most significant first:
    [binary.BigEndian.PutUint64] writes [bigEndian 8 v]. *)
Fixpoint bigEndian (n : nat) (v : N) : list N :=
  match n with
  | O => []
  | S n => (v / 256 ^ N.of_nat n) mod 256 :: bigEndian n v
  end.

(** [copy(dst, src)] on byte slices: the result in [dst]. *)
Definition copyBytes (dst src : list N) : list N :=
  take (length dst) src ++ drop (length src) dst.

(** [BlockIndexKey], for the bytes [blockHash] of a hash. *)
Definition BlockIndexKey (blockHash : list N) (blueScore : N) : list N :=
  let indexKey := replicate (HashSize + 8) 0 in
  let indexKey := bigEndian 8 blueScore ++ drop 8 indexKey in
  take 8 indexKey ++ copyBytes (drop 8 indexKey) blockHash.

(** [blockHashFromBlockIndexKey]: the slice [key[8:HashSize+8]], which
    [daghash.NewHash] (not among the sources) copies into a hash; it is
    handed [HashSize] bytes.  A key of fewer than [HashSize + 8] bytes is
    a slice bound out of range. *)
Definition blockHashFromBlockIndexKey (key : list N) : result (list N) :=
  if decide (length key < HashSize + 8)%nat
  then Panicked (SliceBoundsOutOfRange (HashSize + 8) (length key))
  else Ok (take HashSize (drop 8 key)).

(** [bytes.Compare(a, b) < 0]: the order in which a cursor visits keys. *)
Fixpoint bytesLess (a b : list N) : bool :=
  match a, b with
  | _, [] => false
  | [], _ :: _ => true
  | x :: a, y :: b => (x <? y) || ((x =? y) && bytesLess a b)
  end.

(** The loop of [SelectedAncestor]: [for n != nil && n.blueScore >
    blueScore { n = n.selectedParent }]. *)
Fixpoint walkToBlueScore (n : BlockNode) (blueScore' : N) : option BlockNode :=
  if blueScore' <? blueScore n then
    match selectedParent n with
    | Some p => walkToBlueScore p blueScore'
    | None => None
    end
  else Some n.

Definition SelectedAncestor (node : BlockNode) (blueScore' : N) : option BlockNode :=
  if blueScore node <? blueScore' then None
  else walkToBlueScore node blueScore'.

(** [a - b] on [uint64]. *)
Definition sub64 (a b : N) : N := (a + 2 ^ 64 - b mod 2 ^ 64) mod 2 ^ 64.

Definition RelativeAncestor (node : BlockNode) (distance : N) : option BlockNode :=
  SelectedAncestor node (sub64 (blueScore node) distance).

End BlockIndex.

(** ** consensus/blockdag/dag.go: gas limits and double spends *)

Module Validation.

Import UTXO.

(** [subnetworkid.SubnetworkID], by the number its bytes spell. *)
Abbreviation SubnetworkID := N.

(** The fields of a [wire.MsgTx] that [validateGasLimit] reads. *)
Record MsgTx := {
  TxSubnetworkID : SubnetworkID;
  Gas : N;
}.

(** [currentSubnetworkID], [currentSubnetworkGasLimit] and
    [currentGasUsage]. *)
Record GasState := {
  currentSubnetworkID : option SubnetworkID;
  currentSubnetworkGasLimit : N;
  currentGasUsage : N;
}.

Section ValidateGasLimit.

(** [SubnetworkID.IsEqual(SubnetworkIDNative) || SubnetworkID.IsBuiltIn()],
    of package subnetworkid, which is not among the sources. *)
Variable isNativeOrBuiltIn : SubnetworkID -> bool.

(** [subnetworks.GasLimit], a database read. *)
Variable GasLimit : SubnetworkID -> result N.

(** The loop of [validateGasLimit] from a given state on. *)
Fixpoint validateGasLimitFrom (transactions : list MsgTx) (st : GasState) : result unit :=
  match transactions with
  | [] => Ok ()
  | msgTx :: rest =>
      if isNativeOrBuiltIn (TxSubnetworkID msgTx) then validateGasLimitFrom rest st
      else
        (if bool_decide (currentSubnetworkID st = Some (TxSubnetworkID msgTx)) then Ok st
         else
           match GasLimit (TxSubnetworkID msgTx) with
           | Ok limit =>
               Ok {| currentSubnetworkID := Some (TxSubnetworkID msgTx);
                     currentSubnetworkGasLimit := limit;
                     currentGasUsage := 0 |}
           | Err _ => Err (OtherError "Error getting gas limit for subnetworkID")
           | Panicked p => Panicked p
           end) ≫= fun st : GasState =>
        let newGasUsage := Ghostdag.wrap64 (currentGasUsage st + Gas msgTx) in
        if newGasUsage <? currentGasUsage st then Err (RuleError ErrInvalidGas)
        else if currentSubnetworkGasLimit st <? newGasUsage then Err (RuleError ErrInvalidGas)
        else
          validateGasLimitFrom rest
            {| currentSubnetworkID := currentSubnetworkID st;
               currentSubnetworkGasLimit := currentSubnetworkGasLimit st;
               currentGasUsage := newGasUsage |}
  end.

Definition validateGasLimit (transactions : list MsgTx) : result unit :=
  validateGasLimitFrom transactions
    {| currentSubnetworkID := None; currentSubnetworkGasLimit := 0;
       currentGasUsage := 0 |}.

(** The gas of the transactions that are checked. *)
Definition gasUsed (transactions : list MsgTx) : N :=
  foldr (fun msgTx total =>
           if isNativeOrBuiltIn (TxSubnetworkID msgTx) then total
           else Gas msgTx + total) 0 transactions.

End ValidateGasLimit.

(** The loop over the inputs of one transaction in
    [checkDoubleSpendsWithBlockPast]. *)
Fixpoint checkInputs (pastUTXO : UTXOSet) (inputs : list Outpoint) : result unit :=
  match inputs with
  | [] => Ok ()
  | previousOutpoint :: rest =>
      match pastUTXO !! previousOutpoint with
      | Some _ => checkInputs pastUTXO rest
      | None => Err (RuleError ErrMissingTxOut)
      end
  end.

Fixpoint checkDoubleSpendsWithBlockPast (pastUTXO : UTXOSet) (blockTransactions : list Tx)
    : result unit :=
  match blockTransactions with
  | [] => Ok ()
  | tx :: rest =>
      if IsCoinBase tx then checkDoubleSpendsWithBlockPast pastUTXO rest
      else
        _ ← checkInputs pastUTXO (TxIn tx);
        checkDoubleSpendsWithBlockPast pastUTXO rest
  end.

End Validation.

(** ** walletnotification: the notification manager *)

Module WalletNotification.

(** A [*routerpkg.Router], by its identity. *)
Abbreviation Router := N.

Abbreviation TxHash := N.

(** The notification messages the manager enqueues, with what identifies
    their content. *)
Inductive Message :=
| BlockAddedNotificationMessage (blockHash : N)
| TransactionAddedNotificationMessage (txHash : TxHash)
| UTXOOfAddressChangedNotificationMessage (changedAddresses : list string)
| ChainChangedNotificationMessage (id : N)
| FinalityConflictNotificationMessage (id : N)
| FinalityConflictResolvedNotificationMessage (id : N).

Record Listener := {
  propagateBlockAddedNotifications : bool;
  propagateTransactionAddedNotifications : bool;
  propagateChainChangedNotifications : bool;
  propagateFinalityConflictNotifications : bool;
  propagateFinalityConflictResolvedNotifications : bool;
  propagateUTXOOfAddressChangedNotifications : bool;
  subscribedTransactions : gset TxHash;
  subscribedAddresses : gset string;
}.

(** The manager's [listeners] and, for each router, the messages enqueued
    on its outgoing route so far. *)
Record Manager := {
  listeners : gmap Router Listener;
  outgoing : gmap Router (list Message);
}.

Definition newNotificationListener : Listener :=
  {| propagateBlockAddedNotifications := false;
     propagateTransactionAddedNotifications := false;
     propagateChainChangedNotifications := false;
     propagateFinalityConflictNotifications := false;
     propagateFinalityConflictResolvedNotifications := false;
     propagateUTXOOfAddressChangedNotifications := false;
     subscribedTransactions := ∅;
     subscribedAddresses := ∅ |}.

Definition AddListener (router : Router) (nm : Manager) : Manager :=
  {| listeners := <[router := newNotificationListener]> (listeners nm);
     outgoing := outgoing nm |}.

Definition RemoveListener (router : Router) (nm : Manager) : Manager :=
  {| listeners := delete router (listeners nm); outgoing := outgoing nm |}.

Definition GetListener (router : Router) (nm : Manager) : result Listener :=
  match listeners nm !! router with
  | Some listener => Ok listener
  | None => Err (OtherError "listener not found")
  end.

Definition PropagateTransactionAddedNotifications (txHash : TxHash) (nl : Listener)
    : Listener :=
  {| propagateBlockAddedNotifications := propagateBlockAddedNotifications nl;
     propagateTransactionAddedNotifications := true;
     propagateChainChangedNotifications := propagateChainChangedNotifications nl;
     propagateFinalityConflictNotifications := propagateFinalityConflictNotifications nl;
     propagateFinalityConflictResolvedNotifications :=
       propagateFinalityConflictResolvedNotifications nl;
     propagateUTXOOfAddressChangedNotifications :=
       propagateUTXOOfAddressChangedNotifications nl;
     subscribedTransactions := {[txHash]} ∪ subscribedTransactions nl;
     subscribedAddresses := subscribedAddresses nl |}.

Definition PropagateUTXOOfAddressChangedNotifications (addresses : list string)
    (nl : Listener) : Listener :=
  {| propagateBlockAddedNotifications := propagateBlockAddedNotifications nl;
     propagateTransactionAddedNotifications := propagateTransactionAddedNotifications nl;
     propagateChainChangedNotifications := propagateChainChangedNotifications nl;
     propagateFinalityConflictNotifications := propagateFinalityConflictNotifications nl;
     propagateFinalityConflictResolvedNotifications :=
       propagateFinalityConflictResolvedNotifications nl;
     propagateUTXOOfAddressChangedNotifications := true;
     subscribedTransactions := subscribedTransactions nl;
     subscribedAddresses :=
       foldl (fun subscribed address => {[address]} ∪ subscribed)
             (subscribedAddresses nl) addresses |}.

Definition withSubscribedTransactions (subscribed : gset TxHash) (nl : Listener)
    : Listener :=
  {| propagateBlockAddedNotifications := propagateBlockAddedNotifications nl;
     propagateTransactionAddedNotifications := propagateTransactionAddedNotifications nl;
     propagateChainChangedNotifications := propagateChainChangedNotifications nl;
     propagateFinalityConflictNotifications := propagateFinalityConflictNotifications nl;
     propagateFinalityConflictResolvedNotifications :=
       propagateFinalityConflictResolvedNotifications nl;
     propagateUTXOOfAddressChangedNotifications :=
       propagateUTXOOfAddressChangedNotifications nl;
     subscribedTransactions := subscribed;
     subscribedAddresses := subscribedAddresses nl |}.

Section Notify.

(** Whether the outgoing route of a router is closed: [Enqueue], of package
    router, which is not among the sources, returns an error then and
    appends the message to the route otherwise. *)
Variable closed : Router -> bool.

Definition Enqueue (router : Router) (message : Message)
    (routes : gmap Router (list Message)) : result (gmap Router (list Message)) :=
  if closed router then Err (OtherError "route is closed")
  else Ok (<[router := default [] (routes !! router) ++ [message]]> routes).

(** The loops [for router, listener := range nm.listeners] that enqueue one
    notification for every listener with a flag set; [order] is the order
    of the visit. *)
Fixpoint notifyListeners (flag : Listener -> bool) (notification : Message)
    (order : list Router) (nm : Manager) : Manager * result unit :=
  match order with
  | [] => (nm, Ok ())
  | router :: rest =>
      match listeners nm !! router with
      | Some listener =>
          if flag listener then
            match Enqueue router notification (outgoing nm) with
            | Ok routes =>
                notifyListeners flag notification rest
                  {| listeners := listeners nm; outgoing := routes |}
            | Err err => (nm, Err err)
            | Panicked p => (nm, Panicked p)
            end
          else notifyListeners flag notification rest nm
      | None => notifyListeners flag notification rest nm
      end
  end.

Definition NotifyBlockAdded (blockHash : N) :=
  notifyListeners propagateBlockAddedNotifications
    (BlockAddedNotificationMessage blockHash).

Definition NotifyChainChanged (id : N) :=
  notifyListeners propagateChainChangedNotifications (ChainChangedNotificationMessage id).

Definition NotifyFinalityConflict (id : N) :=
  notifyListeners propagateFinalityConflictNotifications
    (FinalityConflictNotificationMessage id).

Definition NotifyFinalityConflictResolved (id : N) :=
  notifyListeners propagateFinalityConflictResolvedNotifications
    (FinalityConflictResolvedNotificationMessage id).

(** [for _, tx := range transactions] of [NotifyTransactionAdded], for one
    listener: the subscriptions and the routes it leaves. *)
Fixpoint notifyTransactions (router : Router) (transactions : list TxHash)
    (subscribed : gset TxHash) (routes : gmap Router (list Message))
    : gset TxHash * gmap Router (list Message) * result unit :=
  match transactions with
  | [] => (subscribed, routes, Ok ())
  | tx :: rest =>
      if bool_decide (tx ∈ subscribed) then
        let subscribed := subscribed ∖ {[tx]} in
        match Enqueue router (TransactionAddedNotificationMessage tx) routes with
        | Ok routes => notifyTransactions router rest subscribed routes
        | Err err => (subscribed, routes, Err err)
        | Panicked p => (subscribed, routes, Panicked p)
        end
      else notifyTransactions router rest subscribed routes
  end.

Fixpoint NotifyTransactionAdded (transactions : list TxHash) (order : list Router)
    (nm : Manager) : Manager * result unit :=
  match order with
  | [] => (nm, Ok ())
  | router :: rest =>
      match listeners nm !! router with
      | Some listener =>
          if propagateTransactionAddedNotifications listener then
            let '(subscribed, routes, r) :=
              notifyTransactions router transactions (subscribedTransactions listener)
                (outgoing nm) in
            let nm :=
              {| listeners :=
                   <[router := withSubscribedTransactions subscribed listener]>
                     (listeners nm);
                 outgoing := routes |} in
            match r with
            | Ok _ => NotifyTransactionAdded transactions rest nm
            | Err err => (nm, Err err)
            | Panicked p => (nm, Panicked p)
            end
          else NotifyTransactionAdded transactions rest nm
      | None => NotifyTransactionAdded transactions rest nm
      end
  end.

(** [NotifyUTXOOfAddressChanged]: a listener is sent the changed addresses
    it subscribed to, if there are any. *)
Fixpoint NotifyUTXOOfAddressChanged (changedAddresses : list string)
    (order : list Router) (nm : Manager) : Manager * result unit :=
  match order with
  | [] => (nm, Ok ())
  | router :: rest =>
      match listeners nm !! router with
      | Some listener =>
          if propagateUTXOOfAddressChangedNotifications listener then
            let changedAddressesForListener :=
              filter (fun address => address ∈ subscribedAddresses listener)
                     changedAddresses in
            if bool_decide (0 < length changedAddressesForListener)%nat then
              match Enqueue router
                      (UTXOOfAddressChangedNotificationMessage changedAddressesForListener)
                      (outgoing nm) with
              | Ok routes =>
                  NotifyUTXOOfAddressChanged changedAddresses rest
                    {| listeners := listeners nm; outgoing := routes |}
              | Err err => (nm, Err err)
              | Panicked p => (nm, Panicked p)
              end
            else NotifyUTXOOfAddressChanged changedAddresses rest nm
          else NotifyUTXOOfAddressChanged changedAddresses rest nm
      | None => NotifyUTXOOfAddressChanged changedAddresses rest nm
      end
  end.

End Notify.

(** A listener subscribed to transaction 5 and to two addresses, and a
    listener that did not subscribe to anything. *)
Definition twoListeners : Manager :=
  {| listeners :=
       {[1 := PropagateUTXOOfAddressChangedNotifications ["kaspa:b"; "kaspa:c"]
                (PropagateTransactionAddedNotifications 5 newNotificationListener);
         2 := newNotificationListener]};
     outgoing := ∅ |}.

End WalletNotification.

(** ** consensus/blockdag/dag.go: moving the finality point *)

Module FinalityPoint.

Import Ghostdag.

Section UpdateFinalityPoint.

(** [dag.FinalityInterval()]. *)
Variable FinalityInterval : N.

(** [FinalityScore]: the node is dereferenced, and the division panics for
    an interval of zero. *)
Definition FinalityScore (node : option BlockNode) : result N :=
  match node with
  | None => Panicked NilDereference
  | Some node =>
      if FinalityInterval =? 0
      then Panicked (PanicWith (OtherError "runtime error: integer divide by zero"))
      else Ok (blueScore node / FinalityInterval)
  end.

(** The loop [for currentNode = selectedTip.SelectedParent(); ;
    currentNode = currentNode.SelectedParent()] of [updateFinalityPoint],
    over the nodes it can still visit. *)
Fixpoint findFinalityPoint (chain : list BlockNode) (lastScore : N) : result BlockNode :=
  match chain with
  | [] => Panicked NilDereference
  | currentNode :: rest =>
      score ← FinalityScore (selectedParent currentNode);
      if score =? lastScore then Ok currentNode
      else findFinalityPoint rest lastScore
  end.

(** [updateFinalityPoint], given the selected tip and
    [dag.lastFinalityPoint]: the new [dag.lastFinalityPoint], and whether
    the nodes below it are to be finalized. *)
Definition updateFinalityPoint (selectedTip lastFinalityPoint : option BlockNode)
    : result (option BlockNode * bool) :=
  match selectedTip with
  | None => Panicked NilDereference
  | Some tip =>
      if IsGenesis tip then Ok (Some tip, false)
      else
        tipScore ← FinalityScore (Some tip);
        lastScore ← FinalityScore lastFinalityPoint;
        if tipScore <? wrap64 (lastScore + 2) then Ok (lastFinalityPoint, false)
        else
          currentNode ← findFinalityPoint (selectedParentChain tip) lastScore;
          Ok (Some currentNode, true)
  end.

End UpdateFinalityPoint.

(** [CurrentBits], given the bits of the header of each tip: the lowest. *)
Definition CurrentBits (tipBits : list N) : N :=
  foldl (fun minBits bits => if bits <? minBits then bits else minBits)
        (2 ^ 32 - 1) tipBits.

End FinalityPoint.

(** ** A database that refuses to commit *)

Module ConnectFailures.

Import Connect.

(** The collaborators of [passingCollaborators], with a database whose
    commit fails. *)
Definition refusingCommit : Collaborators :=
  {| isSynced := isSynced passingCollaborators;
     warnUnknownRuleActivations := warnUnknownRuleActivations passingCollaborators;
     warnUnknownVersions := warnUnknownVersions passingCollaborators;
     IsReachabilityTreeAncestorOf := IsReachabilityTreeAncestorOf passingCollaborators;
     validateGasLimit := validateGasLimit passingCollaborators;
     pastUTXO := pastUTXO passingCollaborators;
     validateAcceptedIDMerkleRoot := validateAcceptedIDMerkleRoot passingCollaborators;
     checkConnectToPastUTXO := checkConnectToPastUTXO passingCollaborators;
     calcMultiset := calcMultiset passingCollaborators;
     Finalize := Finalize passingCollaborators;
     ValidateCoinbaseTransaction := ValidateCoinbaseTransaction passingCollaborators;
     applyDAGChanges := applyDAGChanges passingCollaborators;
     saveChangesFromBlock := saveChangesFromBlock passingCollaborators;
     ioError := fun op =>
       match op with
       | OpCommit => Some (OtherError "commit failed")
       | _ => None
       end |}.

End ConnectFailures.

(** ** consensus/blockdag/dag.go: the missing ancestors of an orphan *)

Module OrphanAncestors.

Import Orphans.

Section GetOrphanMissingAncestorHashes.

(** [dag.IsInDAG], which rests on the block node store. *)
Variable IsInDAG : Hash -> bool.

(** The loop [for len(queue) > 0] of [GetOrphanMissingAncestorHashes];
    [None] when [fuel] iterations do not empty the queue.  The source
    compares the pointers [current] and [orphanHash]; a hash is looked at
    only on its first visit, and the first visit of the hash of the orphan
    is that of [orphanHash] itself, so the pointers are equal exactly when
    the hashes are. *)
Fixpoint missingAncestorsLoop (fuel : nat) (pool : gmap Hash orphanBlock)
    (orphanHash : Hash) (missingAncestorsHashes : list Hash) (visited : gset Hash)
    (queue : list Hash) : option (list Hash) :=
  match queue with
  | [] => Some missingAncestorsHashes
  | current :: queue =>
      match fuel with
      | O => None
      | S fuel =>
          if bool_decide (current ∈ visited)
          then missingAncestorsLoop fuel pool orphanHash missingAncestorsHashes visited queue
          else
            let visited := {[current]} ∪ visited in
            match pool !! current with
            | Some orphan =>
                missingAncestorsLoop fuel pool orphanHash missingAncestorsHashes visited
                  (queue ++ parentHashes (block orphan))
            | None =>
                if negb (IsInDAG current) && negb (bool_decide (current = orphanHash))
                then missingAncestorsLoop fuel pool orphanHash
                       (missingAncestorsHashes ++ [current]) visited queue
                else missingAncestorsLoop fuel pool orphanHash missingAncestorsHashes
                       visited queue
            end
      end
  end.

(** The parent hashes of the orphans that have not been visited: the
    hashes the loop can still append to its queue. *)
Definition pendingParents (pool : gmap Hash orphanBlock) (visited : gset Hash) : nat :=
  sum_list ((fun entry : Hash * orphanBlock =>
               if bool_decide (entry.1 ∈ visited) then O
               else length (parentHashes (block entry.2)))
            <$> map_to_list pool).

Definition GetOrphanMissingAncestorHashes (dag : OrphanPool) (orphanHash : Hash)
    : option (list Hash) :=
  missingAncestorsLoop (S (pendingParents (orphans dag) ∅)) (orphans dag) orphanHash
    [] ∅ [orphanHash].

End GetOrphanMissingAncestorHashes.

End OrphanAncestors.

(** ** consensus/blockdag/dag.go: finalizing the nodes below the finality point *)

Module Finalization.

Import Ghostdag.

(** The nodes [n] reaches through parent pointers, each as often as it is
    reached. *)
Fixpoint pastNodes (n : BlockNode) : list BlockNode :=
  (fix collect (l : list BlockNode) : list BlockNode :=
     match l with
     | [] => []
     | p :: l => p :: pastNodes p ++ collect l
     end) (parents n).

Section FinalizeNodes.

(** [utxoDiffStore.RemoveBlocksDiffData], whose code is not among the
    sources. *)
Variable RemoveBlocksDiffData : list BlockNode -> result unit.

(** The loop [for len(queue) > 0] of [finalizeNodesBelowFinalityPoint],
    over the set of the hashes of the finalized nodes; [None] when [fuel]
    iterations do not empty the queue. *)
Fixpoint finalizeQueue (fuel : nat) (deleteDiffData : bool) (finalized : gset Hash)
    (nodesToDelete queue : list BlockNode) : option (gset Hash * list BlockNode) :=
  match queue with
  | [] => Some (finalized, nodesToDelete)
  | current :: queue =>
      match fuel with
      | O => None
      | S fuel =>
          if bool_decide (hash current ∈ finalized)
          then finalizeQueue fuel deleteDiffData finalized nodesToDelete queue
          else
            finalizeQueue fuel deleteDiffData ({[hash current]} ∪ finalized)
              (if deleteDiffData then nodesToDelete ++ [current] else nodesToDelete)
              (queue ++ parents current)
      end
  end.

(** [finalizeNodesBelowFinalityPoint], given [dag.lastFinalityPoint] and
    the finalized nodes: the finalized nodes it leaves and the nodes whose
    diff data it removes. *)
Definition finalizeNodesBelowFinalityPoint (lastFinalityPoint : option BlockNode)
    (deleteDiffData : bool) (finalized : gset Hash)
    : option (result (gset Hash * list BlockNode)) :=
  match lastFinalityPoint with
  | None => Some (Panicked NilDereference)
  | Some lastFinalityPoint =>
      match finalizeQueue (sumSizes (parents lastFinalityPoint)) deleteDiffData finalized []
              (parents lastFinalityPoint) with
      | None => None
      | Some (finalized, nodesToDelete) =>
          Some (if deleteDiffData then
                  match RemoveBlocksDiffData nodesToDelete with
                  | Ok _ => Ok (finalized, nodesToDelete)
                  | Err _ =>
                      Panicked (PanicWith (OtherError
                        "Error removing diff data from utxoDiffStore"))
                  | Panicked p => Panicked p
                  end
                else Ok (finalized, nodesToDelete))
      end
  end.

End FinalizeNodes.

End Finalization.

(** ** utxo_diff.go, mutable_utxo_diff.go: entries of a diff *)

Module DiffEntries.

Import UTXO.

(** Modelled from the spec: the methods of [utxoCollection] that the diff
    and the iterator call, which are not among the sources.  A collection
    is keyed by outpoint: [containsWithBlueScore] holds when the outpoint
    is there with an entry of the given blue score, [Contains] when it is
    there at all; [add] and [remove] are the insertion and the deletion of
    the key. *)
Definition containsWithBlueScore (uc : utxoCollection) (outpoint : Outpoint)
    (blueScore : N) : bool :=
  match uc !! outpoint with
  | Some entry => bool_decide (BlockBlueScore entry = blueScore)
  | None => false
  end.

Definition Contains (uc : utxoCollection) (outpoint : Outpoint) : bool :=
  bool_decide (is_Some (uc !! outpoint)).

(** [addEntry] and [removeEntry] change the diff in place and return an
    error: the diff afterwards, and the error if there is one. *)
Definition addEntry (d : utxoDiff) (outpoint : Outpoint) (entry : UTXOEntry)
    : utxoDiff * option error :=
  if containsWithBlueScore (toRemove d) outpoint (BlockBlueScore entry) then
    ({| toAdd := toAdd d; toRemove := delete outpoint (toRemove d) |}, None)
  else if Contains (toAdd d) outpoint then
    (d, Some (OtherError "AddEntry: Cannot add outpoint twice"))
  else ({| toAdd := <[outpoint := entry]> (toAdd d); toRemove := toRemove d |}, None).

Definition removeEntry (d : utxoDiff) (outpoint : Outpoint) (entry : UTXOEntry)
    : utxoDiff * option error :=
  if containsWithBlueScore (toAdd d) outpoint (BlockBlueScore entry) then
    ({| toAdd := delete outpoint (toAdd d); toRemove := toRemove d |}, None)
  else if Contains (toRemove d) outpoint then
    (d, Some (OtherError "removeEntry: Cannot remove outpoint twice"))
  else ({| toAdd := toAdd d; toRemove := <[outpoint := entry]> (toRemove d) |}, None).

(** The parts of an [externalapi.DomainTransaction] that [AddTransaction]
    reads: for each input the previous outpoint and its entry, the outputs,
    and what [consensusserialization.TransactionID] and
    [transactionhelper.IsCoinBase] (not among the sources) return for it. *)
Record DomainTransaction := {
  Inputs : list (Outpoint * UTXOEntry);
  Outputs : list TxOut;
  TransactionID : N;
  IsCoinBaseTransaction : bool;
}.

(** The loop over the inputs; it stops at the first error, with the
    entries removed so far still removed. *)
Fixpoint removeInputs (d : utxoDiff) (inputs : list (Outpoint * UTXOEntry))
    : utxoDiff * option error :=
  match inputs with
  | [] => (d, None)
  | input :: rest =>
      match removeEntry d input.1 input.2 with
      | (d, Some err) => (d, Some err)
      | (d, None) => removeInputs d rest
      end
  end.

(** The loop over the outputs, from index [i] on; the index is a uint32. *)
Fixpoint addOutputs (d : utxoDiff) (transactionID : N) (isCoinbase : bool)
    (blockBlueScore : N) (i : nat) (outputs : list TxOut) : utxoDiff * option error :=
  match outputs with
  | [] => (d, None)
  | output :: rest =>
      match addEntry d (transactionID, N.of_nat i mod 2 ^ 32)
              {| Amount := Value output; ScriptPublicKey := ScriptPubKey output;
                 BlockBlueScore := blockBlueScore; IsCoinbase := isCoinbase |} with
      | (d, Some err) => (d, Some err)
      | (d, None) => addOutputs d transactionID isCoinbase blockBlueScore (S i) rest
      end
  end.

Definition AddTransaction (md : utxoDiff) (transaction : DomainTransaction)
    (blockBlueScore : N) : utxoDiff * option error :=
  match removeInputs md (Inputs transaction) with
  | (d, Some err) => (d, Some err)
  | (d, None) =>
      addOutputs d (TransactionID transaction) (IsCoinBaseTransaction transaction)
        blockBlueScore 0 (Outputs transaction)
  end.

(** An outpoint that a diff both adds and removes carries different blue
    scores in the two collections. *)
Definition distinctBlueScores (d : utxoDiff) : Prop :=
  forall outpoint added removed,
    toAdd d !! outpoint = Some added -> toRemove d !! outpoint = Some removed ->
    BlockBlueScore added <> BlockBlueScore removed.

(** A transaction that spends (2, 0) and (5, 1) and has two outputs. *)
Definition spendingTransaction : DomainTransaction :=
  {| Inputs := [((2, 0), entryOf 30 5); ((5, 1), entryOf 12 6)];
     Outputs := [{| Value := 40; ScriptPubKey := "script" |}; {| Value := 2; ScriptPubKey := "script" |}];
     TransactionID := 6;
     IsCoinBaseTransaction := false |}.

(** *** The iterator over a set with a diff *)

(** What [Get] of an iterator returns: the outpoint and the entry, both
    pointers, and the error. *)
Record iteratorItem := {
  itemOutpoint : option Outpoint;
  itemEntry : option UTXOEntry;
  itemErr : option error;
}.

(** A [model.ReadOnlyUTXOSetIterator], whose implementations are not among
    the sources: the items that [Get] returns after each call of [Next]
    that returns true, in order; after the last one [Next] returns false. *)
Abbreviation ReadOnlyUTXOSetIterator := (list iteratorItem).

(** [readOnlyUTXOIteratorWithDiff], with a diff pointer that is not nil;
    [current] holds [currentOutpoint], [currentUTXOEntry] and
    [currentErr]. *)
Record readOnlyUTXOIteratorWithDiff := {
  baseIterator : ReadOnlyUTXOSetIterator;
  diff : utxoDiff;
  current : iteratorItem;
  toAddIterator : ReadOnlyUTXOSetIterator;
}.

(** The test [r.diff.toRemove.containsWithBlueScore(r.currentOutpoint,
    r.currentUTXOEntry.BlockBlueScore)]: the blue score is read through
    the entry pointer, and the collection is keyed by the value the
    outpoint points to, so a nil pointer is a nil dereference. *)
Definition removedByDiff (removed : utxoCollection) (item : iteratorItem) : result bool :=
  match itemEntry item, itemOutpoint item with
  | Some entry, Some outpoint =>
      Ok (containsWithBlueScore removed outpoint (BlockBlueScore entry))
  | _, _ => Panicked NilDereference
  end.

(** The items for which the test is false: the ones the loop leaves at. *)
Definition passedOn (removed : utxoCollection) (item : iteratorItem) : bool :=
  match removedByDiff removed item with
  | Ok isRemoved => negb isRemoved
  | _ => false
  end.

(** [for r.baseIterator.Next()]: every item read from the base iterator
    becomes the current one, with its error; the loop leaves at the first
    that the diff does not remove.  The result tells whether there was one,
    the current item and the rest of the base iterator. *)
Fixpoint nextOfBase (removed : utxoCollection) (current : iteratorItem)
    (base : ReadOnlyUTXOSetIterator)
    : result (bool * iteratorItem * ReadOnlyUTXOSetIterator) :=
  match base with
  | [] => Ok (false, current, [])
  | item :: rest =>
      isRemoved ← removedByDiff removed item;
      if isRemoved : bool then nextOfBase removed item rest
      else Ok (true, item, rest)
  end.

(** [Next]: whether there is an item, and the iterator afterwards. *)
Definition Next (r : readOnlyUTXOIteratorWithDiff)
    : result (bool * readOnlyUTXOIteratorWithDiff) :=
  found ← nextOfBase (toRemove (diff r)) (current r) (baseIterator r);
  match found with
  | (true, item, rest) =>
      Ok (true, {| baseIterator := rest; diff := diff r; current := item;
                   toAddIterator := toAddIterator r |})
  | (false, skipped, rest) =>
      match toAddIterator r with
      | item :: toAdd =>
          Ok (true, {| baseIterator := rest; diff := diff r; current := item;
                       toAddIterator := toAdd |})
      | [] =>
          Ok (false, {| baseIterator := rest; diff := diff r; current := skipped;
                        toAddIterator := [] |})
      end
  end.

(** [Get] returns the current outpoint, entry and error. *)
Definition Get (r : readOnlyUTXOIteratorWithDiff) : iteratorItem := current r.

(** What [for r.Next() { r.Get() }] yields within [fuel] calls of [Next],
    and the panic that ended the loop, if one did.  ([Next] has no error
    to return.) *)
Fixpoint drain (fuel : nat) (r : readOnlyUTXOIteratorWithDiff)
    : list iteratorItem * option panic :=
  match fuel with
  | O => ([], None)
  | S fuel =>
      match Next r with
      | Ok (true, r) => let '(items, ended) := drain fuel r in (Get r :: items, ended)
      | Ok (false, _) => ([], None)
      | Err err => ([], Some (PanicWith err))
      | Panicked p => ([], Some p)
      end
  end.

(** The item of an iterator that reads [entry] at [outpoint] without an
    error, and the item of one that failed to read. *)
Definition readItem (outpoint : Outpoint) (entry : UTXOEntry) : iteratorItem :=
  {| itemOutpoint := Some outpoint; itemEntry := Some entry; itemErr := None |}.

Definition failedItem : iteratorItem :=
  {| itemOutpoint := None; itemEntry := None;
     itemErr := Some (OtherError "failed to read the entry") |}.

(** An iterator over three base items, of which the diff removes (2, 0) at
    blue score 5 and the last comes with an error, and one item to add. *)
Definition overThree : readOnlyUTXOIteratorWithDiff :=
  {| baseIterator :=
       [readItem (1, 0) (entryOf 50 7); readItem (2, 0) (entryOf 30 5);
        {| itemOutpoint := Some (2, 1); itemEntry := Some (entryOf 30 5);
           itemErr := Some (OtherError "checksum mismatch") |}];
     diff := {| toAdd := {[(3, 0) := entryOf 20 8]};
                toRemove := {[(2, 0) := entryOf 30 5]} |};
     current := {| itemOutpoint := None; itemEntry := None; itemErr := None |};
     toAddIterator := [readItem (3, 0) (entryOf 20 8)] |}.

(** The same iterator over a base that fails to read its second item. *)
Definition overFailing : readOnlyUTXOIteratorWithDiff :=
  {| baseIterator := [readItem (1, 0) (entryOf 50 7); failedItem;
                      readItem (2, 1) (entryOf 30 5)];
     diff := diff overThree;
     current := current overThree;
     toAddIterator := toAddIterator overThree |}.

End DiffEntries.
(** * Properties *)

(** ** OnNewBlock *)

Section ProtocolFacts.

Import Protocol.

Lemma length_fillIDs ids : forall s i, length (fillIDs s i ids) = length s.
Proof.
  induction ids as [|id ids IH]; intros s i; simpl; [done|].
  by rewrite IH, length_insert.
Qed.

Lemma length_copyOntoTail s n : length (copyOntoTail s n) = length s.
Proof.
  unfold copyOntoTail, copy.
  rewrite !length_app, !length_take, !length_drop. lia.
Qed.

(** Filling a fresh slice puts the IDs in front of the nil entries. *)
Lemma fillIDs_app ids : forall pre rest tl,
  length ids = length rest ->
  fillIDs (pre ++ rest ++ tl) (length pre) ids = pre ++ (Some <$> ids) ++ tl.
Proof.
  induction ids as [|id ids IH]; intros pre rest tl Hlen; simpl.
  - by destruct rest.
  - destruct rest as [|r rest]; [done|]. simpl in Hlen.
    replace (<[length pre:=Some id]> (pre ++ (r :: rest) ++ tl))
      with ((pre ++ [Some id]) ++ rest ++ tl).
    + replace (S (length pre)) with (length (pre ++ [Some id]))
        by (rewrite length_app; simpl; lia).
      rewrite IH by lia. by rewrite <- app_assoc.
    + rewrite insert_app_r_alt by lia.
      rewrite Nat.sub_diag. simpl. by rewrite <- app_assoc.
Qed.

Lemma fillIDs_make (accepted : list TxID) (k : nat) :
  fillIDs (make (length accepted + k)) 0 accepted = (Some <$> accepted) ++ make k.
Proof.
  unfold make. rewrite replicate_add.
  apply (fillIDs_app accepted [] (replicate (length accepted) None)).
  by rewrite length_replicate.
Qed.

(** The slice after [copy(txIDsToBroadcast[n:], txIDsToBroadcast)]: the
    tail holds a copy of the head of the slice itself. *)
Lemma copyOntoTail_filled (accepted : list TxID) (k : nat) :
  copyOntoTail ((Some <$> accepted) ++ make k) (length accepted)
  = (Some <$> accepted) ++ take k ((Some <$> accepted) ++ make k).
Proof.
  assert (Hk : length (make k) = k) by apply length_replicate.
  unfold copyOntoTail, copy.
  rewrite take_app_length' by (by rewrite length_fmap).
  rewrite drop_app_length' by (by rewrite length_fmap).
  rewrite length_app, length_fmap, Hk.
  replace (k `min` (length accepted + k))%nat with k by lia.
  rewrite drop_ge by lia.
  by rewrite app_nil_r.
Qed.

Lemma OnNewBlock_relays (M : nat) (m : Manager) (accepted : list TxID) :
  handleNewBlock m = Ok accepted ->
  isInIBD m = 0 ->
  OnNewBlock M m =
    inv ← resliceTo ((Some <$> accepted)
                      ++ take (length (rebroadcastIDs m))
                           ((Some <$> accepted) ++ make (length (rebroadcastIDs m)))) M;
    Ok (Broadcast inv).
Proof.
  intros Hh Hibd. unfold OnNewBlock. rewrite Hh, Hibd. simpl.
  by rewrite fillIDs_make, copyOntoTail_filled.
Qed.

(** C10.  When not in initial block download, [OnNewBlock] panics with a
    slice-bounds violation whenever the accepted and the rebroadcast IDs
    together are fewer than [wire.MaxInvPerTxInvMsg], because the slice of
    exactly that total length is re-sliced to [wire.MaxInvPerTxInvMsg]
    elements; it completes, handing an inventory to [Broadcast], only when
    the total is at least [wire.MaxInvPerTxInvMsg]. *)
Theorem OnNewBlock_panics_below_MaxInvPerTxInvMsg
    (MaxInvPerTxInvMsg : nat) (m : Manager) (accepted : list TxID) :
  handleNewBlock m = Ok accepted ->
  isInIBD m = 0 ->
  let total := (length accepted + length (rebroadcastIDs m))%nat in
  ((total < MaxInvPerTxInvMsg)%nat ->
   OnNewBlock MaxInvPerTxInvMsg m
   = Panicked (SliceBoundsOutOfRange MaxInvPerTxInvMsg total))
  /\ ((MaxInvPerTxInvMsg <= total)%nat ->
      exists inv, OnNewBlock MaxInvPerTxInvMsg m = Ok (Broadcast inv)
                  /\ length inv = MaxInvPerTxInvMsg)
  /\ ((exists p, OnNewBlock MaxInvPerTxInvMsg m = Panicked p)
      <-> (total < MaxInvPerTxInvMsg)%nat).
Proof.
  intros Hh Hibd total.
  rewrite (OnNewBlock_relays _ _ _ Hh Hibd).
  set (s := (Some <$> accepted) ++ _).
  assert (Hs : length s = total).
  { unfold s, total. rewrite length_app, length_fmap, length_take, length_app.
    rewrite length_fmap. unfold make. rewrite length_replicate. lia. }
  unfold resliceTo. rewrite Hs.
  destruct (decide (MaxInvPerTxInvMsg <= total)%nat) as [Hle|Hgt]; simpl.
  - split; [lia|]. split.
    + intros _. eexists. split; [done|]. rewrite length_take. lia.
    + split; [intros [p Hp]; done | lia].
  - split; [done|]. split; [lia|]. split; [lia | eauto].
Qed.

(** Witness for C10: one accepted transaction, nothing to rebroadcast and a
    limit of two. *)
Lemma OnNewBlock_panics_below_MaxInvPerTxInvMsg_witness :
  OnNewBlock 2 {| handleNewBlock := Ok [7]; isInIBD := 0;
                  shouldRebroadcastTransactions := false;
                  txIDsToRebroadcast := [] |}
  = Panicked (SliceBoundsOutOfRange 2 1).
Proof.
  refine (proj1 (OnNewBlock_panics_below_MaxInvPerTxInvMsg 2
                   {| handleNewBlock := Ok [7]; isInIBD := 0;
                      shouldRebroadcastTransactions := false;
                      txIDsToRebroadcast := [] |} [7] _ _) _).
  - reflexivity.
  - reflexivity.
  - simpl. lia.
Defined.

Lemma take_cons_replicate {A} (x : A) (n : nat) :
  take n (x :: replicate n x) = replicate n x.
Proof.
  change (x :: replicate n x) with (replicate (S n) x).
  rewrite take_replicate. f_equal. lia.
Qed.

(** C8 fails on the code.  With one accepted transaction (ID 1) and as many
    IDs to rebroadcast (all 2) as [wire.MaxInvPerTxInvMsg], whatever that
    limit is from two on, [Broadcast] receives the accepted ID twice and
    nil entries after it: no rebroadcast ID is in the inventory, because
    [copy] copies the slice onto its own tail. *)
Theorem OnNewBlock_loses_rebroadcast_ids (n : nat) :
  let MaxInvPerTxInvMsg := S (S n) in
  let m := {| handleNewBlock := Ok [1]; isInIBD := 0;
              shouldRebroadcastTransactions := true;
              txIDsToRebroadcast := replicate MaxInvPerTxInvMsg 2 |} in
  OnNewBlock MaxInvPerTxInvMsg m
  = Ok (Broadcast (Some 1 :: Some 1 :: replicate n None))
  /\ take MaxInvPerTxInvMsg (intendedInventory [1] (replicate MaxInvPerTxInvMsg 2))
     = Some 1 :: Some 2 :: replicate n (Some 2)
  /\ Some 1 :: Some 1 :: replicate n None
     <> take MaxInvPerTxInvMsg (intendedInventory [1] (replicate MaxInvPerTxInvMsg 2)).
Proof.
  intros M m.
  assert (Hcode : OnNewBlock M m = Ok (Broadcast (Some 1 :: Some 1 :: replicate n None))).
  { rewrite (OnNewBlock_relays M m [1]) by done.
    unfold rebroadcastIDs, m, M, make, resliceTo. simpl.
    rewrite !length_replicate. simpl.
    rewrite !take_cons_replicate, length_replicate.
    destruct (decide _) as [_|Hn]; [|lia].
    done. }
  assert (Hspec : take M (intendedInventory [1] (replicate M 2))
                  = Some 1 :: Some 2 :: replicate n (Some 2)).
  { unfold intendedInventory, M. rewrite fmap_replicate. simpl.
    by rewrite take_cons_replicate. }
  split; [done|]. split; [done|].
  rewrite Hspec. intros Heq. by inversion Heq.
Qed.

End ProtocolFacts.

(** ** checkIncomingConnections *)

Section ConnManagerFacts.

Import ConnManager.

Lemma foldl_disconnectOne (order : list (string * NetConnection)) : forall cs eff,
  (foldl disconnectOne (cs, eff) order).1
  = foldl (fun cs entry => remove entry.2 cs) cs order
  /\ disconnected (foldl disconnectOne (cs, eff) order).2
     = disconnected eff ++ order.*1.
Proof.
  induction order as [|[a c] order IH]; intros cs eff; simpl.
  - by rewrite app_nil_r.
  - destruct (IH (remove c cs)
               {| disconnected := disconnected eff ++ [a];
                  logged := match disconnectResult c with
                            | Some err => logged eff ++ [(a, err)]
                            | None => logged eff
                            end |}) as [-> ->].
    simpl. by rewrite <- app_assoc.
Qed.

Lemma lookup_foldl_remove (order : list (string * NetConnection)) :
  forall (cs : connectionSet) k,
  foldl (fun cs entry => remove entry.2 cs) cs order !! k
  = if decide (k ∈ connAddress <$> order.*2) then None else cs !! k.
Proof.
  induction order as [|[a c] order IH]; intros cs k.
  - simpl. destruct (decide (k ∈ [])) as [Hin|]; [|done]. by apply elem_of_nil in Hin.
  - rewrite !fmap_cons. cbn [foldl snd]. rewrite IH. unfold remove.
    destruct (decide (k ∈ connAddress <$> order.*2)) as [Hin|Hnotin];
      destruct (decide (k ∈ connAddress c :: (connAddress <$> order.*2)))
        as [Hin'|Hnotin']; try done.
    + exfalso. apply Hnotin'. by right.
    + apply elem_of_cons in Hin' as [->|Hin']; [|done].
      apply lookup_delete_eq.
    + apply lookup_delete_ne. intros <-. apply Hnotin'. by left.
Qed.

Lemma wellKeyed_convertToSet connections : wellKeyed (convertToSet connections).
Proof.
  unfold convertToSet.
  assert (H : forall cs, wellKeyed cs ->
                wellKeyed (foldl (fun cs c => add c cs) cs connections)).
  { induction connections as [|c l IH]; intros cs Hcs; simpl; [done|].
    apply IH. intros a c' Hl. unfold add in Hl.
    destruct (decide (connAddress c = a)) as [<-|Hne].
    - rewrite lookup_insert_eq in Hl. by inversion Hl.
    - rewrite lookup_insert_ne in Hl by done. by apply Hcs. }
  apply H. intros a c Hl. by rewrite lookup_empty in Hl.
Qed.

(** C9 fails on the code.  Whenever the set holds more than [maxIncoming]
    connections, [checkIncomingConnections] disconnects every one of them,
    in whatever order the range statement visits them, and leaves the set
    empty; with [maxIncoming] at least one this is not the contract of its
    documentation, which disconnects only the excess. *)
Theorem checkIncomingConnections_disconnects_all
    (c : ConnectionManager) (order : list (string * NetConnection))
    (connSet : connectionSet) :
  wellKeyed connSet ->
  order ≡ₚ map_to_list connSet ->
  (maxIncoming c < Z.of_nat (size connSet))%Z ->
  let r := checkIncomingConnections c order connSet in
  r.1 = ∅
  /\ disconnected r.2 ≡ₚ (map_to_list connSet).*1
  /\ ((1 <= maxIncoming c)%Z -> ~ disconnectsOnlyExcess c connSet r.1 r.2).
Proof.
  intros Hkeys Hperm Hsize r. unfold r, checkIncomingConnections.
  rewrite decide_False by lia.
  destruct (foldl_disconnectOne order connSet noEffects) as [-> ->]. simpl.
  assert (Hempty : foldl (fun cs entry => remove entry.2 cs) connSet order = ∅).
  { apply map_eq. intros k. rewrite lookup_foldl_remove, lookup_empty.
    destruct (decide _) as [|Hnotin]; [done|].
    destruct (connSet !! k) as [conn|] eqn:Hk; [|done].
    exfalso. apply Hnotin.
    apply list_elem_of_fmap. exists conn. split; [by rewrite (Hkeys _ _ Hk)|].
    apply list_elem_of_fmap. exists (k, conn). split; [done|].
    rewrite Hperm. by apply elem_of_map_to_list. }
  rewrite Hempty. split; [done|]. split; [by rewrite Hperm|].
  intros Hmax. unfold disconnectsOnlyExcess.
  rewrite decide_False by lia.
  rewrite map_size_empty. intros (_ & H0 & _). specialize (H0 ltac:(lia)). lia.
Qed.

(** The failing run of C9: three incoming peers and [maxIncoming] of one;
    the peers come from [convertToSet], as in [connectionsLoop]. *)
Lemma checkIncomingConnections_disconnects_all_witness :
  let c := {| maxIncoming := 1 |} in
  let r := checkIncomingConnections c (map_to_list threePeers) threePeers in
  size threePeers = 3%nat
  /\ r.1 = ∅
  /\ disconnected r.2 ≡ₚ (map_to_list threePeers).*1
  /\ ~ disconnectsOnlyExcess c threePeers r.1 r.2.
Proof.
  intros c r.
  assert (Hsize : size threePeers = 3%nat) by (by vm_compute).
  split; [done|].
  pose proof (checkIncomingConnections_disconnects_all c (map_to_list threePeers)
                threePeers (wellKeyed_convertToSet _) (reflexivity _)) as H.
  rewrite Hsize in H. specialize (H ltac:(simpl; lia)).
  destruct H as (H1 & H2 & H3).
  split; [done|]. split; [done|]. apply H3. simpl. lia.
Defined.

End ConnManagerFacts.

(** ** The orphan pool *)

Section OrphanFacts.

Import Orphans.

(** Entries that are neither expired nor newer than the remembered newest
    orphan leave the pool as it is. *)
Lemma expiry_loop_idle (order : list (Hash * orphanBlock)) (now : Time)
    (dag : OrphanPool) (newest : orphanBlock) :
  newestOrphan dag = Some newest ->
  Forall (fun entry =>
            After now (expiration entry.2) = false
            /\ After (timestamp (block entry.2)) (timestamp (block newest)) = false)
         order ->
  foldl (expireOrTrack now) dag order = dag.
Proof.
  intros Hnewest Hall. induction Hall as [|entry order [Hexp Hts] _ IH]; simpl; [done|].
  unfold expireOrTrack at 2. by rewrite Hexp, Hnewest, Hts.
Qed.

(** C7 fails on the code.  When the orphan the pool remembers as its newest
    has already left the pool, and the pool holds [maxOrphanBlocks] orphans,
    none of them expired or newer than the remembered one, then adding a
    block that is not newer than the remembered one evicts nothing and
    inserts the block: the pool holds [maxOrphanBlocks + 1] orphans.  This
    holds for whatever order the range statement visits the pool in. *)
Theorem addOrphanBlock_exceeds_maxOrphanBlocks
    (order : list (Hash * orphanBlock)) (now : Time) (blk : Block)
    (dag : OrphanPool) (stale : orphanBlock) :
  newestOrphan dag = Some stale ->
  orphans dag !! blockHash (block stale) = None ->
  Forall (fun entry =>
            After now (expiration entry.2) = false
            /\ After (timestamp (block entry.2)) (timestamp (block stale)) = false)
         order ->
  size (orphans dag) = maxOrphanBlocks ->
  After (timestamp blk) (timestamp (block stale)) = false ->
  orphans dag !! blockHash blk = None ->
  exists dag',
    addOrphanBlockIn order now blk dag = Ok dag'
    /\ size (orphans dag') = S maxOrphanBlocks
    /\ orphans dag ⊆ orphans dag'.
Proof.
  intros Hnewest Hgone Hall Hsize Hts Hfresh.
  unfold addOrphanBlockIn.
  rewrite (expiry_loop_idle order now dag stale Hnewest Hall).
  rewrite Hsize, Hnewest, Hts.
  rewrite decide_True by lia.
  eexists. split; [done|]. simpl.
  rewrite delete_id by done.
  split.
  - rewrite map_size_insert_None by done. by rewrite Hsize.
  - by apply insert_subseteq.
Qed.

Lemma filledPool_reached : addOrphanBlocks fillingCalls emptyPool = Ok filledPool.
Proof. by vm_compute. Qed.

(** The failing run of C7: 101 calls of [addOrphanBlock] leave a pool of
    exactly [maxOrphanBlocks] orphans that still remembers the expired
    first orphan as its newest; the next orphan, older than the newest of
    the pool, makes 101. *)
Lemma addOrphanBlock_exceeds_maxOrphanBlocks_witness :
  size (orphans filledPool) = maxOrphanBlocks
  /\ exists dag',
       addOrphanBlock (hour + 1) (orphanAt 102 50%Z) filledPool = Ok dag'
       /\ size (orphans dag') = S maxOrphanBlocks
       /\ orphans filledPool ⊆ orphans dag'.
Proof.
  split; [by vm_compute|].
  apply (addOrphanBlock_exceeds_maxOrphanBlocks
           (map_to_list (orphans filledPool)) (hour + 1) (orphanAt 102 50%Z)
           filledPool expiredOrphan).
  - by vm_compute.
  - by vm_compute.
  - refine (@bool_decide_unpack _ _ _). by vm_compute.
  - by vm_compute.
  - by vm_compute.
  - by vm_compute.
Defined.

End OrphanFacts.

(** ** GHOSTDAG *)

Section GhostdagFacts.

Import Ghostdag.

Variable IsInPast : BlockNode -> option BlockNode -> result bool.
Variable K : N.

(** *** The anticone search terminates *)

Lemma pastSize_parents n : pastSize n = S (sumSizes (parents n)).
Proof.
  by destruct n.
Qed.

Lemma sumSizes_app l1 l2 : sumSizes (l1 ++ l2) = (sumSizes l1 + sumSizes l2)%nat.
Proof. induction l1 as [|p l1 IH]; simpl; [done|]. rewrite IH. lia. Qed.

Lemma visitParents_queue node ps : forall st st',
  visitParents IsInPast node ps st = Ok st' ->
  (sumSizes (queue st') <= sumSizes (queue st) + sumSizes ps)%nat.
Proof.
  induction ps as [|parent rest IH]; intros st st' H; simpl in H.
  - inversion H. simpl. lia.
  - simpl. destruct (_ || _).
    + apply IH in H. lia.
    + destruct (IsInPast parent (selectedParent node)) as [[|]| |]; simpl in H; try done.
      * apply IH in H. simpl in H. lia.
      * apply IH in H. simpl in H. rewrite sumSizes_app in H. simpl in H. lia.
Qed.

Lemma sumSizes_cons p l : sumSizes (p :: l) = (pastSize p + sumSizes l)%nat.
Proof. done. Qed.

Lemma drainQueue_enough_fuel fuel : forall node st,
  (sumSizes (queue st) <= fuel)%nat ->
  is_Some (drainQueue IsInPast fuel node st).
Proof.
  induction fuel as [|fuel IH]; intros node st Hfuel;
    destruct st as [a sl p [|current q]]; cbn [drainQueue queue] in *; [eauto| |eauto|].
  - rewrite sumSizes_cons, pastSize_parents in Hfuel. clear -Hfuel. lia.
  - destruct (visitParents _ _ _ _) as [st'| |] eqn:Hvisit; [|eauto..].
    apply IH. apply visitParents_queue in Hvisit. cbn [popQueue queue tail] in Hvisit.
    rewrite sumSizes_cons, pastSize_parents in Hfuel.
    revert Hfuel Hvisit.
    generalize (sumSizes (queue st')) (sumSizes q) (sumSizes (parents current)).
    clear. intros x y z ??. lia.
Qed.

Lemma queueParents_queue node :
  (sumSizes (queue (queueParents node)) <= sumSizes (parents node))%nat.
Proof.
  unfold queueParents.
  enough (H : forall ps st,
             (sumSizes (queue (foldl (fun st parent =>
                 if sameNodeOpt (Some parent) (selectedParent node) then st
                 else pushAnticone parent st) st ps))
              <= sumSizes (queue st) + sumSizes ps)%nat).
  { specialize (H (parents node)
                  {| anticoneSet := ∅; anticoneSlice := [];
                     selectedParentPast := ∅; queue := [] |}).
    exact H. }
  induction ps as [|p ps IH]; intros st; cbn [foldl]; [cbn; lia|].
  etrans; [apply IH|]. rewrite sumSizes_cons.
  destruct (sameNodeOpt _ _); cbn [queue pushAnticone]; [lia|].
  rewrite sumSizes_app, sumSizes_cons. cbn. lia.
Qed.

(** [selectedParentAnticone] always comes to an end: the bound put on its
    loop is never reached. *)
Lemma selectedParentAnticone_terminates node :
  is_Some (selectedParentAnticone IsInPast node).
Proof.
  apply drainQueue_enough_fuel.
  pose proof (queueParents_queue node). pose proof (pastSize_parents node). lia.
Qed.

(** [Run] always comes to an end: with a result, an error or a panic. *)
Lemma Run_terminates newNode : is_Some (Run IsInPast K newNode).
Proof.
  unfold Run. destruct (Bluest (parents newNode)) as [sp|]; [|eauto].
  destruct (selectedParentAnticone_terminates
              (SetBlues [sp] (SetBluesAnticoneSizes {[hash sp := 0]}
                 (SetSelectedParent (Some sp) newNode)))) as [r ->].
  simpl. eauto.
Qed.

(** *** Colouring *)

Lemma elem_of_insertByLess (x c : BlockNode) l :
  c ∈ insertByLess x l -> c = x \/ c ∈ l.
Proof.
  induction l as [|y l IH]; simpl.
  - intros Hin. apply list_elem_of_singleton in Hin. by left.
  - destruct (Less y x).
    + intros [->|Hin]%elem_of_cons.
      * right. by left.
      * destruct (IH Hin) as [->|?]; [by left|]. right. by right.
    + intros [->|Hin]%elem_of_cons; [by left | by right].
Qed.

Lemma elem_of_sortByLess (c : BlockNode) l : c ∈ sortByLess l -> c ∈ l.
Proof.
  induction l as [|x l IH]; simpl; [done|].
  intros [->|Hin]%elem_of_insertByLess; [by left|]. right. by apply IH.
Qed.

Lemma colorCandidates_cons n c rest :
  colorCandidates IsInPast K n (c :: rest)
  = walkChain IsInPast K n c true (n :: selectedParentChain n) ∅ 0
      ≫= fun scan : CandidateScan =>
    if possiblyBlue scan then
      if wrapK (N.of_nat (length (blues (addBlue c scan n)))) =? wrapK (K + 1)
      then Ok (addBlue c scan n)
      else colorCandidates IsInPast K (addBlue c scan n) rest
    else colorCandidates IsInPast K n rest.
Proof. done. Qed.

Lemma blues_addBlue c scan n : blues (addBlue c scan n) = blues n ++ [c].
Proof. done. Qed.

Lemma selectedParent_addBlue c scan n :
  selectedParent (addBlue c scan n) = selectedParent n.
Proof. done. Qed.

(** Colouring appends to the blues and leaves the selected parent alone. *)
Lemma colorCandidates_extends candidates : forall n n',
  colorCandidates IsInPast K n candidates = Ok n' ->
  selectedParent n' = selectedParent n
  /\ exists more, blues n' = blues n ++ more.
Proof.
  induction candidates as [|c rest IH]; intros n n' H.
  - inversion H. split; [done|]. exists []. by rewrite app_nil_r.
  - rewrite colorCandidates_cons in H.
    destruct (walkChain _ _ _ _ _ _ _ _) as [scan| |]; [|done..].
    cbn [mbind result_bind] in H.
    destruct (possiblyBlue scan); [|by apply IH].
    destruct (_ =? _).
    + inversion H. split; [done|]. by exists [c].
    + apply IH in H as [Hsp [more Hmore]]. split; [done|].
      exists (c :: more). rewrite Hmore, blues_addBlue. by rewrite <- app_assoc.
Qed.

(** While fewer than [K + 1] blues are held, colouring stops at [K + 1]. *)
Lemma colorCandidates_length candidates : forall n n',
  N.of_nat (length (blues n)) <= K ->
  colorCandidates IsInPast K n candidates = Ok n' ->
  N.of_nat (length (blues n')) <= K + 1.
Proof.
  induction candidates as [|c rest IH]; intros n n' Hlen H.
  - inversion H. subst. lia.
  - rewrite colorCandidates_cons in H.
    destruct (walkChain _ _ _ _ _ _ _ _) as [scan| |]; [|done..].
    cbn [mbind result_bind] in H.
    destruct (possiblyBlue scan); [|by apply (IH n)].
    assert (Hadd : N.of_nat (length (blues (addBlue c scan n)))
                   = N.of_nat (length (blues n)) + 1).
    { rewrite blues_addBlue, length_app. simpl. lia. }
    destruct (_ =? _) eqn:Hstop.
    + inversion H. subst. lia.
    + apply IH in H; [done|].
      apply N.eqb_neq in Hstop. unfold wrapK in Hstop.
      assert (N.of_nat (length (blues (addBlue c scan n))) <> K + 1); [|lia].
      intros Heq. apply Hstop. by rewrite Heq.
Qed.

(** With [K = 0], a candidate outside the past of which the selected parent
    lies is never blue. *)
Lemma colorCandidates_K0 candidates : forall n n' sp,
  K = 0 ->
  blues n = [sp] ->
  (forall c, c ∈ candidates -> IsInPast sp (Some c) = Ok false) ->
  colorCandidates IsInPast K n candidates = Ok n' ->
  blues n' = [sp].
Proof.
  induction candidates as [|c rest IH]; intros n n' sp HK Hblues Hanti H; simpl in H.
  - by inversion H; subst.
  - rewrite Hblues in H. simpl in H.
    rewrite (Hanti c) in H by (by left). simpl in H.
    destruct (BlueAnticoneSize sp n) as [size| |]; simpl in H; try done.
    assert (Hover : (K <? wrapK (0 + 1)) = true) by (by rewrite HK).
    rewrite Hover in H. simpl in H.
    apply (IH n n' sp HK Hblues); [|done].
    intros c' Hc'. apply Hanti. by right.
Qed.

(** What a successful [Run] did, step by step. *)
Lemma Run_Ok newNode coloured anticone :
  Run IsInPast K newNode = Some (Ok (coloured, anticone)) ->
  exists sp start found last,
    Bluest (parents newNode) = Some sp
    /\ start = SetBlues [sp] (SetBluesAnticoneSizes {[hash sp := 0]}
                                (SetSelectedParent (Some sp) newNode))
    /\ selectedParentAnticone IsInPast start = Some (Ok found)
    /\ anticone = sortByLess found
    /\ colorCandidates IsInPast K start anticone = Ok last
    /\ coloured = SetBlueScore
                    (wrap64 (blueScore sp + N.of_nat (length (blues last)))) last.
Proof.
  unfold Run. intros H.
  destruct (Bluest (parents newNode)) as [sp|]; [|done].
  destruct (selectedParentAnticone _ _) as [[found| |]|] eqn:Hfound; simpl in H; try done.
  destruct (colorCandidates _ _ _ _) as [last| |] eqn:Hlast; simpl in H; try done.
  inversion H. subst. eexists sp, _, found, last. by repeat split.
Qed.

End GhostdagFacts.

(** C2.  For every node that [Run] colours, the blues start with the
    selected parent and are at most [K + 1].  With [K = 0] this rests on
    the reachability tree not putting the selected parent in the past of a
    block of its own anticone. *)
Theorem Run_blues_selected_parent_first_at_most_K_plus_1
    (IsInPast : Ghostdag.BlockNode -> option Ghostdag.BlockNode -> result bool)
    (K : N) (newNode coloured : Ghostdag.BlockNode)
    (anticone : list Ghostdag.BlockNode) :
  Ghostdag.Run IsInPast K newNode = Some (Ok (coloured, anticone)) ->
  (K = 0 -> forall sp c,
     Ghostdag.selectedParent coloured = Some sp -> c ∈ anticone ->
     IsInPast sp (Some c) = Ok false) ->
  exists sp,
    Ghostdag.selectedParent coloured = Some sp
    /\ Ghostdag.blues coloured !! 0%nat = Some sp
    /\ N.of_nat (length (Ghostdag.blues coloured)) <= K + 1.
Proof.
  intros HRun Hanti.
  destruct (Run_Ok _ _ _ _ _ HRun)
    as (sp & start & found & last & _ & Hstart & _ & Hsorted & Hcolor & ->).
  destruct (colorCandidates_extends _ _ _ _ _ Hcolor) as [Hsp [more Hmore]].
  rewrite Hstart in Hsp, Hmore. simpl in Hsp, Hmore.
  exists sp. simpl. split; [done|]. split; [by rewrite Hmore|].
  destruct (decide (K = 0)) as [HK0|HK0].
  - assert (Hone : Ghostdag.blues last = [sp]).
    { apply (colorCandidates_K0 IsInPast K anticone start last sp HK0);
        [by rewrite Hstart| |done].
      intros c Hc. by apply (Hanti HK0). }
    rewrite Hone. simpl. lia.
  - apply (colorCandidates_length IsInPast K) in Hcolor; [done|].
    rewrite Hstart. simpl. lia.
Qed.

(** Witness for C2: the block on both children of the genesis, with [K = 1]. *)
Lemma Run_blues_selected_parent_first_at_most_K_plus_1_witness :
  exists coloured anticone,
    Ghostdag.Run Ghostdag.pastOracle 1 Ghostdag.nodeC = Some (Ok (coloured, anticone))
    /\ exists sp,
         Ghostdag.selectedParent coloured = Some sp
         /\ Ghostdag.blues coloured !! 0%nat = Some sp
         /\ N.of_nat (length (Ghostdag.blues coloured)) <= 1 + 1.
Proof.
  eexists _, _. split; [by vm_compute|].
  eapply (Run_blues_selected_parent_first_at_most_K_plus_1 Ghostdag.pastOracle 1
            Ghostdag.nodeC).
  - by vm_compute.
  - intros HK. by exfalso.
Defined.

(** C3, as it holds.  For every node that [Run] colours, the blue score is
    the blue score of the selected parent plus the number of blues, in
    64-bit arithmetic; it is their sum whenever the sum fits in 64 bits. *)
Theorem Run_blue_score
    (IsInPast : Ghostdag.BlockNode -> option Ghostdag.BlockNode -> result bool)
    (K : N) (newNode coloured : Ghostdag.BlockNode)
    (anticone : list Ghostdag.BlockNode) :
  Ghostdag.Run IsInPast K newNode = Some (Ok (coloured, anticone)) ->
  exists sp,
    Ghostdag.selectedParent coloured = Some sp
    /\ Ghostdag.blueScore coloured
       = Ghostdag.wrap64 (Ghostdag.blueScore sp
                          + N.of_nat (length (Ghostdag.blues coloured)))
    /\ (Ghostdag.blueScore sp + N.of_nat (length (Ghostdag.blues coloured)) < 2 ^ 64 ->
        Ghostdag.blueScoreEquation coloured).
Proof.
  intros HRun.
  destruct (Run_Ok _ _ _ _ _ HRun)
    as (sp & start & found & last & _ & Hstart & _ & Hsorted & Hcolor & ->).
  destruct (colorCandidates_extends _ _ _ _ _ Hcolor) as [Hsp _].
  rewrite Hstart in Hsp. simpl in Hsp.
  exists sp. simpl. split; [done|]. split; [done|].
  intros Hfits. exists sp. simpl. split; [done|].
  unfold Ghostdag.wrap64. by rewrite N.mod_small.
Qed.

(** Witness for C3: the same block; its blue score is 1 + 2. *)
Lemma Run_blue_score_witness :
  exists coloured anticone,
    Ghostdag.Run Ghostdag.pastOracle 1 Ghostdag.nodeC = Some (Ok (coloured, anticone))
    /\ Ghostdag.blueScore coloured = 3
    /\ exists sp,
         Ghostdag.selectedParent coloured = Some sp
         /\ Ghostdag.blueScore coloured
            = Ghostdag.wrap64 (Ghostdag.blueScore sp
                               + N.of_nat (length (Ghostdag.blues coloured)))
         /\ (Ghostdag.blueScore sp + N.of_nat (length (Ghostdag.blues coloured)) < 2 ^ 64 ->
             Ghostdag.blueScoreEquation coloured).
Proof.
  eexists _, _. split; [by vm_compute|]. split; [by vm_compute|].
  eapply (Run_blue_score Ghostdag.pastOracle 1 Ghostdag.nodeC).
  by vm_compute.
Defined.

(** [Run] on a node without parents dereferences the nil selected parent:
    the genesis node is not a node that [Run] colours. *)
Lemma Run_genesis_panics
    (IsInPast : Ghostdag.BlockNode -> option Ghostdag.BlockNode -> result bool) (K : N) :
  Ghostdag.Run IsInPast K Ghostdag.genesisNode = Some (Panicked NilDereference).
Proof. done. Qed.

(** C3 as stated fails at the genesis node: it has no parents, blue score 0
    and no selected parent, so there is no blue score of a selected parent
    for its own to be a sum with. *)
Lemma genesis_has_no_blue_score_equation :
  Ghostdag.IsGenesis Ghostdag.genesisNode = true
  /\ Ghostdag.blueScore Ghostdag.genesisNode = 0
  /\ Ghostdag.selectedParent Ghostdag.genesisNode = None
  /\ ~ Ghostdag.blueScoreEquation Ghostdag.genesisNode.
Proof.
  repeat split; try done.
  intros [sp [Hsp _]]. done.
Qed.

(** ** Finality *)

Section FinalityFacts.

Import Ghostdag.

Variable IsReachabilityTreeAncestorOf :
  option BlockNode -> option BlockNode -> result bool.

(** The finality check as the code decides it, whatever the reachability
    tree answers. *)
Lemma checkFinalityViolation_cases (lastFinalityPoint : option BlockNode)
    (newNode : BlockNode) :
  IsGenesis newNode = false ->
  checkFinalityViolation IsReachabilityTreeAncestorOf lastFinalityPoint newNode
  = if sameNodeOpt lastFinalityPoint (selectedParent newNode) then Ok ()
    else match IsReachabilityTreeAncestorOf lastFinalityPoint (selectedParent newNode) with
         | Ok true => Ok ()
         | Ok false => Err (RuleError ErrFinality)
         | Err e => Err e
         | Panicked p => Panicked p
         end.
Proof.
  intros Hgen. unfold checkFinalityViolation, isInSelectedParentChainOf.
  rewrite Hgen. destruct (sameNodeOpt _ _); [done|].
  by destruct (IsReachabilityTreeAncestorOf _ _) as [[|]| |].
Qed.

End FinalityFacts.

(** C5.  A block that is not the genesis is rejected with a Finality rule
    error if and only if the last finality point is neither its selected
    parent nor on the selected-parent chain of its selected parent; so a
    block that passes the check has the last finality point on its own
    selected-parent chain.  The reachability tree is taken to answer tree
    ancestry for the two nodes. *)
Theorem checkFinalityViolation_Finality_iff
    (IsReachabilityTreeAncestorOf :
       option Ghostdag.BlockNode -> option Ghostdag.BlockNode -> result bool)
    (lastFinalityPoint selectedParent newNode : Ghostdag.BlockNode) :
  Ghostdag.IsGenesis newNode = false ->
  Ghostdag.selectedParent newNode = Some selectedParent ->
  (Ghostdag.hash lastFinalityPoint <> Ghostdag.hash selectedParent ->
   IsReachabilityTreeAncestorOf (Some lastFinalityPoint) (Some selectedParent)
   = Ok (bool_decide (Ghostdag.hash lastFinalityPoint
                      ∈ Ghostdag.hash <$> Ghostdag.selectedParentChain selectedParent))) ->
  (Ghostdag.checkFinalityViolation IsReachabilityTreeAncestorOf
     (Some lastFinalityPoint) newNode = Err (RuleError ErrFinality)
   <-> Ghostdag.hash lastFinalityPoint <> Ghostdag.hash selectedParent
       /\ Ghostdag.hash lastFinalityPoint
          ∉ Ghostdag.hash <$> Ghostdag.selectedParentChain selectedParent)
  /\ (Ghostdag.checkFinalityViolation IsReachabilityTreeAncestorOf
        (Some lastFinalityPoint) newNode = Ok ()
      <-> Ghostdag.hash lastFinalityPoint
          ∈ Ghostdag.hash <$> Ghostdag.selectedParentChain newNode).
Proof.
  intros Hgen Hsp Htree.
  rewrite (checkFinalityViolation_cases _ _ _ Hgen), Hsp.
  assert (Hchain : Ghostdag.selectedParentChain newNode
                   = selectedParent :: Ghostdag.selectedParentChain selectedParent).
  { destruct newNode. simpl in *. by rewrite Hsp. }
  rewrite Hchain, fmap_cons, elem_of_cons.
  unfold Ghostdag.sameNodeOpt, Ghostdag.sameNode.
  destruct (decide (Ghostdag.hash lastFinalityPoint = Ghostdag.hash selectedParent))
    as [Heq|Hne].
  - rewrite bool_decide_eq_true_2 by done. split; [|by split; [left|]].
    split; [done|]. by intros [? _].
  - rewrite bool_decide_eq_false_2 by done. rewrite (Htree Hne).
    destruct (decide (Ghostdag.hash lastFinalityPoint
                      ∈ Ghostdag.hash <$> Ghostdag.selectedParentChain selectedParent))
      as [Hin|Hnotin].
    + rewrite bool_decide_eq_true_2 by done. split.
      * split; [done|]. by intros [_ ?].
      * split; [by right | done].
    + rewrite bool_decide_eq_false_2 by done. split.
      * by split.
      * split; [done|]. by intros [?|?].
Qed.

(** Witness for C5: the chain genesis, A, D, E with A as the last finality
    point and E as the new block. *)
Lemma checkFinalityViolation_Finality_iff_witness :
  Ghostdag.checkFinalityViolation Ghostdag.chainOracle
    (Some Ghostdag.nodeA) Ghostdag.nodeE = Ok ()
  <-> Ghostdag.hash Ghostdag.nodeA
      ∈ Ghostdag.hash <$> Ghostdag.selectedParentChain Ghostdag.nodeE.
Proof.
  refine (proj2 (checkFinalityViolation_Finality_iff Ghostdag.chainOracle
                   Ghostdag.nodeA Ghostdag.nodeD Ghostdag.nodeE _ _ _)).
  - reflexivity.
  - reflexivity.
  - intros _. by vm_compute.
Defined.

(** The same chain with B, which is off it, as the last finality point: the
    block is rejected. *)
Example checkFinalityViolation_rejects_off_chain :
  Ghostdag.checkFinalityViolation Ghostdag.chainOracle
    (Some Ghostdag.nodeB) Ghostdag.nodeE = Err (RuleError ErrFinality).
Proof. by vm_compute. Qed.

(** ** The diff algebra *)

Section DiffFacts.

Import UTXO.







(** What a composition holds at one outpoint in the collection facing [a]:
    [a] and [r] are the entries of the first diff there, [xa] and [xr]
    those of the second. *)
#[local] Abbreviation pickAt xr a r xa :=
  (match xr, a with
   | None, Some x => Some x
   | _, _ => match r with None => xa | Some _ => None end
   end).






End DiffFacts.




(** ** Past-UTXO construction *)

Section ApplyBlueBlocksFacts.

Import UTXO.

Variable nodeBlueScore : N.

Abbreviation scanStep := (UTXO.scanStep nodeBlueScore).

Lemma applyTransactions_cons isSP tx rest u :
  applyTransactions nodeBlueScore isSP (tx :: rest) u
  = applyTransactions nodeBlueScore isSP rest (scanStep isSP tx u).2
      ≫= fun s : UTXOSet * list TxAcceptanceData =>
    Ok (s.1, {| AcceptedTx := tx; IsAccepted := (scanStep isSP tx u).1 |} :: s.2).
Proof.
  cbn [applyTransactions]. unfold UTXO.scanStep, AddTx.
  destruct (negb isSP && IsCoinBase tx); [done|].
  by destruct (containsInputs u tx).
Qed.

(** The scan of a block never fails and records every transaction. *)
Lemma applyTransactions_total isSP txs : forall u,
  exists u' data,
    applyTransactions nodeBlueScore isSP txs u = Ok (u', data)
    /\ length data = length txs.
Proof.
  induction txs as [|tx rest IH]; intros u.
  - by exists u, [].
  - rewrite applyTransactions_cons.
    destruct (IH (scanStep isSP tx u).2) as (u' & data & -> & Hlen).
    eexists _, _. split; [done|]. simpl. by rewrite Hlen.
Qed.

Lemma applyTransactions_app isSP before after : forall u u1 d1 u2 d2,
  applyTransactions nodeBlueScore isSP before u = Ok (u1, d1) ->
  applyTransactions nodeBlueScore isSP after u1 = Ok (u2, d2) ->
  applyTransactions nodeBlueScore isSP (before ++ after) u = Ok (u2, d1 ++ d2).
Proof.
  induction before as [|tx rest IH]; intros u u1 d1 u2 d2 H1 H2.
  - by inversion H1; subst.
  - rewrite <- app_comm_cons, applyTransactions_cons.
    rewrite applyTransactions_cons in H1.
    destruct (applyTransactions_total isSP rest (scanStep isSP tx u).2)
      as (u' & data & Hrest & _).
    rewrite Hrest in H1. inversion H1; subst.
    by rewrite (IH _ _ _ _ _ Hrest H2).
Qed.

Lemma applyBlocksFrom_total blocks : forall i u,
  exists u' data,
    applyBlocksFrom nodeBlueScore i blocks u = Ok (u', data)
    /\ length data = length blocks.
Proof.
  induction blocks as [|blk rest IH]; intros i u.
  - by exists u, [].
  - cbn [applyBlocksFrom].
    destruct (applyTransactions_total (bool_decide (i = 0%nat)) (Transactions blk) u)
      as (u1 & d1 & -> & _).
    destruct (IH (S i) u1) as (u2 & d2 & H2 & Hlen).
    cbn [mbind result_bind fst snd]. rewrite H2.
    eexists _, _. split; [done|]. simpl. by rewrite Hlen.
Qed.

Lemma applyBlocksFrom_app earlier later : forall i u u1 d1 u2 d2,
  applyBlocksFrom nodeBlueScore i earlier u = Ok (u1, d1) ->
  applyBlocksFrom nodeBlueScore (i + length earlier) later u1 = Ok (u2, d2) ->
  applyBlocksFrom nodeBlueScore i (earlier ++ later) u = Ok (u2, d1 ++ d2).
Proof.
  induction earlier as [|blk rest IH]; intros i u u1 d1 u2 d2 H1 H2.
  - inversion H1; subst. simpl in H2. by rewrite Nat.add_0_r in H2.
  - rewrite <- app_comm_cons. cbn [applyBlocksFrom] in *.
    destruct (applyTransactions_total (bool_decide (i = 0%nat)) (Transactions blk) u)
      as (ub & db & Hb & _).
    rewrite Hb in *. cbn [mbind result_bind fst snd] in *.
    destruct (applyBlocksFrom_total rest (S i) ub) as (ur & dr & Hr & _).
    rewrite Hr in H1. inversion H1; subst.
    rewrite (IH (S i) ub u1 dr u2 d2 Hr); [done|].
    replace (S i + length rest)%nat with (i + length (blk :: rest))%nat
      by (simpl; lia).
    done.
Qed.

(** *** Spent outpoints stay spent *)

Lemma lookup_foldl_delete_in (u : UTXOSet) (spent : list Outpoint) (o : Outpoint) :
  o ∈ spent -> foldl (fun u outpoint => delete outpoint u) u spent !! o = None.
Proof.
  revert u. induction spent as [|s spent IH]; intros u Hin; [by apply elem_of_nil in Hin|].
  simpl. destruct (decide (o = s)) as [->|Hne].
  - clear IH Hin. generalize (lookup_delete_eq u s).
    generalize (delete s u). induction spent as [|s' spent IH]; intros v Hv; [done|].
    simpl. apply IH. destruct (decide (s' = s)) as [->|Hne].
    + apply lookup_delete_eq.
    + by rewrite lookup_delete_ne.
  - apply IH. apply elem_of_cons in Hin as [|]; [done|done].
Qed.

Lemma lookup_foldl_delete_None (u : UTXOSet) (spent : list Outpoint) (o : Outpoint) :
  u !! o = None -> foldl (fun u outpoint => delete outpoint u) u spent !! o = None.
Proof.
  revert u. induction spent as [|s spent IH]; intros u Hu; [done|].
  simpl. apply IH. destruct (decide (s = o)) as [->|Hne].
  - apply lookup_delete_eq.
  - by rewrite lookup_delete_ne.
Qed.

Lemma lookup_foldl_insert_other (u : UTXOSet) (new : list (Outpoint * UTXOEntry))
    (o : Outpoint) :
  o ∉ new.*1 -> foldl (fun u oe => <[oe.1 := oe.2]> u) u new !! o = u !! o.
Proof.
  revert u. induction new as [|[k v] new IH]; intros u Hnotin; [done|].
  simpl. rewrite IH.
  - apply lookup_insert_ne. intros <-. apply Hnotin. by left.
  - intros Hin. apply Hnotin. by right.
Qed.

Lemma outputEntries_ID tx (o : Outpoint) :
  o ∈ (outputEntries tx nodeBlueScore).*1 -> o.1 = ID tx.
Proof.
  unfold outputEntries. intros Hin.
  apply list_elem_of_fmap in Hin as ([k v] & -> & Hin).
  apply list_elem_of_lookup in Hin as [i Hi].
  rewrite list_lookup_imap in Hi.
  destruct (TxOuts tx !! i); simpl in Hi; [|done]. by inversion Hi.
Qed.

(** An accepted transaction removes the outpoints it spends, unless it is
    the transaction that creates them. *)
Lemma appendTx_spends u tx (o : Outpoint) :
  o ∈ TxIn tx -> ID tx <> o.1 -> appendTx u tx nodeBlueScore !! o = None.
Proof.
  intros Hin Hid. unfold appendTx.
  rewrite lookup_foldl_insert_other.
  - by apply lookup_foldl_delete_in.
  - intros Hout. by apply outputEntries_ID in Hout.
Qed.

Lemma scanStep_keeps_spent isSP tx u (o : Outpoint) :
  u !! o = None -> ID tx <> o.1 -> (scanStep isSP tx u).2 !! o = None.
Proof.
  intros Hu Hid. unfold UTXO.scanStep.
  destruct (negb isSP && IsCoinBase tx); [done|].
  destruct (containsInputs u tx); [|done]. simpl. unfold appendTx.
  rewrite lookup_foldl_insert_other.
  - by apply lookup_foldl_delete_None.
  - intros Hout. by apply outputEntries_ID in Hout.
Qed.

Lemma applyTransactions_keeps_spent isSP txs (o : Outpoint) : forall u u' data,
  u !! o = None ->
  (forall t, t ∈ txs -> ID t <> o.1) ->
  applyTransactions nodeBlueScore isSP txs u = Ok (u', data) ->
  u' !! o = None.
Proof.
  induction txs as [|tx rest IH]; intros u u' data Hu Hids H.
  - by inversion H; subst.
  - rewrite applyTransactions_cons in H.
    destruct (applyTransactions_total isSP rest (scanStep isSP tx u).2)
      as (ur & dr & Hr & _).
    rewrite Hr in H. inversion H; subst.
    apply (IH (scanStep isSP tx u).2 u' dr); [|by intros t Ht; apply Hids; right|done].
    apply scanStep_keeps_spent; [done|]. apply Hids. by left.
Qed.

Lemma containsInputs_spec u tx :
  containsInputs u tx = true <-> forall o, o ∈ TxIn tx -> is_Some (u !! o).
Proof.
  unfold containsInputs. rewrite forallb_forall. split.
  - intros H o Ho. apply (bool_decide_eq_true_1 _). apply H. by apply list_elem_of_In.
  - intros H o Ho. apply bool_decide_eq_true_2, H. by apply list_elem_of_In.
Qed.

(** The decision of one step, as the claim words it. *)
Lemma scanStep_accepts isSP tx u :
  (scanStep isSP tx u).1 = true
  <-> (forall o, o ∈ TxIn tx -> is_Some (u !! o))
      /\ ~ (isSP = false /\ IsCoinBase tx = true).
Proof.
  unfold UTXO.scanStep. rewrite <- containsInputs_spec.
  destruct isSP, (IsCoinBase tx), (containsInputs u tx); simpl; split;
    try done; try (by intros [? ?]); try (intros [_ H]; by destruct H);
    intros _; split; try done; by intros [? ?].
Qed.

(** *** The loops of the code against the scan of the spec *)

(** One step of the code is one step of the spec. *)
Lemma scanStep_spec (i : nat) tx u :
  scanStep (bool_decide (i = 0%nat)) tx u
  = (acceptedBySpec u (i, tx), accumulate nodeBlueScore u (i, tx)).
Proof.
  unfold accumulate.
  assert (Hdecision : (scanStep (bool_decide (i = 0%nat)) tx u).1
                      = acceptedBySpec u (i, tx)).
  { apply eq_true_iff_eq. rewrite scanStep_accepts. unfold acceptedBySpec.
    rewrite bool_decide_eq_true, Forall_forall. cbn [fst snd].
    split; intros [Hin Hcb]; (split; [done|]); intros [Hidx Hc]; apply Hcb; split;
      try done.
    - by apply bool_decide_eq_false.
    - by apply bool_decide_eq_false in Hidx. }
  rewrite <- Hdecision. unfold UTXO.scanStep.
  destruct (negb (bool_decide (i = 0%nat)) && IsCoinBase tx); [done|].
  by destruct (containsInputs u tx).
Qed.

Lemma applyTransactions_spec (i : nat) txs : forall u,
  applyTransactions nodeBlueScore (bool_decide (i = 0%nat)) txs u
  = Ok (accumulatedPastUTXO nodeBlueScore u ((fun tx => (i, tx)) <$> txs),
        recordsBySpec nodeBlueScore u ((fun tx => (i, tx)) <$> txs)).
Proof.
  induction txs as [|tx rest IH]; intros u; [done|].
  rewrite applyTransactions_cons, scanStep_spec. cbn [fst snd].
  by rewrite IH.
Qed.

Lemma accumulatedPastUTXO_app u before after :
  accumulatedPastUTXO nodeBlueScore u (before ++ after)
  = accumulatedPastUTXO nodeBlueScore
      (accumulatedPastUTXO nodeBlueScore u before) after.
Proof. apply foldl_app. Qed.

Lemma recordsBySpec_app before after : forall u,
  recordsBySpec nodeBlueScore u (before ++ after)
  = recordsBySpec nodeBlueScore u before
    ++ recordsBySpec nodeBlueScore (accumulatedPastUTXO nodeBlueScore u before) after.
Proof.
  induction before as [|item before IH]; intros u; [done|].
  cbn [app recordsBySpec]. by rewrite IH.
Qed.

Lemma length_recordsBySpec items : forall u,
  length (recordsBySpec nodeBlueScore u items) = length items.
Proof.
  induction items as [|item items IH]; intros u; [done|].
  cbn [recordsBySpec length]. by rewrite IH.
Qed.

Lemma AcceptedTx_recordsBySpec (i : nat) txs : forall u,
  AcceptedTx <$> recordsBySpec nodeBlueScore u ((fun tx => (i, tx)) <$> txs) = txs.
Proof.
  induction txs as [|tx rest IH]; intros u; [done|].
  cbn [fmap list_fmap recordsBySpec]. f_equal. apply IH.
Qed.

(** The loop over the blue blocks hands the set on from block to block. *)
Lemma applyBlocksFrom_spec blueBlocks : forall i u,
  exists data,
    applyBlocksFrom nodeBlueScore i blueBlocks u
    = Ok (accumulatedPastUTXO nodeBlueScore u (scanOrderFrom i blueBlocks), data)
    /\ acceptanceInScanOrder data
       = recordsBySpec nodeBlueScore u (scanOrderFrom i blueBlocks)
    /\ BlockHash <$> data = hashOfBlock <$> blueBlocks
    /\ (fun blockData => AcceptedTx <$> TxsAcceptance blockData) <$> data
       = Transactions <$> blueBlocks.
Proof.
  induction blueBlocks as [|blueBlock rest IH]; intros i u.
  - by exists [].
  - cbn [applyBlocksFrom scanOrderFrom]. rewrite applyTransactions_spec.
    cbn [mbind result_bind fst snd].
    destruct (IH (S i) (accumulatedPastUTXO nodeBlueScore u
                          ((fun tx => (i, tx)) <$> Transactions blueBlock)))
      as (data & -> & Hrecords & Hhashes & Htxs).
    cbn [mbind result_bind fst snd]. eexists. split; [|split; [|split]].
    + by rewrite accumulatedPastUTXO_app.
    + unfold acceptanceInScanOrder in *. cbn [fmap list_fmap concat TxsAcceptance].
      by rewrite recordsBySpec_app, Hrecords.
    + cbn [fmap list_fmap BlockHash]. f_equal. apply Hhashes.
    + cbn [fmap list_fmap TxsAcceptance]. f_equal; [|apply Htxs].
      apply AcceptedTx_recordsBySpec.
Qed.

(** The record of the transaction that follows [processed] in a scan. *)
Lemma recordsBySpec_lookup u processed item rest :
  recordsBySpec nodeBlueScore u (processed ++ item :: rest) !! length processed
  = Some {| AcceptedTx := item.2;
            IsAccepted :=
              acceptedBySpec (accumulatedPastUTXO nodeBlueScore u processed) item |}.
Proof.
  rewrite recordsBySpec_app. cbn [recordsBySpec].
  rewrite <- (length_recordsBySpec processed u). apply list_lookup_middle. done.
Qed.

Lemma acceptedBySpec_spec u (item : nat * Tx) :
  acceptedBySpec u item = true
  <-> (forall outpoint, outpoint ∈ TxIn item.2 -> is_Some (u !! outpoint))
      /\ ~ (item.1 <> 0%nat /\ IsCoinBase item.2 = true).
Proof. unfold acceptedBySpec. by rewrite bool_decide_eq_true, Forall_forall. Qed.

(** *** An outpoint spent in the scan stays spent *)

Lemma accumulate_spends u (item : nat * Tx) (o : Outpoint) :
  acceptedBySpec u item = true -> o ∈ TxIn item.2 -> ID item.2 <> o.1 ->
  accumulate nodeBlueScore u item !! o = None.
Proof.
  intros Haccepted Hin Hid. unfold accumulate. rewrite Haccepted.
  by apply appendTx_spends.
Qed.

Lemma accumulate_keeps_spent u (item : nat * Tx) (o : Outpoint) :
  u !! o = None -> ID item.2 <> o.1 -> accumulate nodeBlueScore u item !! o = None.
Proof.
  intros Hu Hid. unfold accumulate.
  destruct (acceptedBySpec u item); [|done]. unfold appendTx.
  rewrite lookup_foldl_insert_other.
  - by apply lookup_foldl_delete_None.
  - intros Hout. by apply outputEntries_ID in Hout.
Qed.

Lemma accumulatedPastUTXO_keeps_spent items (o : Outpoint) : forall u,
  u !! o = None ->
  (forall t, t ∈ items -> ID t.2 <> o.1) ->
  accumulatedPastUTXO nodeBlueScore u items !! o = None.
Proof.
  induction items as [|item items IH]; intros u Hu Hids; [done|].
  unfold accumulatedPastUTXO. cbn [foldl]. apply IH.
  - apply accumulate_keeps_spent; [done|]. apply Hids. by left.
  - intros t Ht. apply Hids. by right.
Qed.

End ApplyBlueBlocksFacts.

(** C1.  The scan of the blue blocks never returns an error and records
    the transactions block by block, in blues order and in block order.
    The transaction that follows [processed] in the scan is recorded as
    accepted if and only if every outpoint its inputs refer to is in the
    past-UTXO accumulated over [processed] (from the first blue on, across
    the blocks) and it is not a coinbase of a blue other than the selected
    parent; the set returned is the one accumulated over the whole scan.
    A transaction anywhere later in the scan, in the same block or in a
    later blue, that spends an outpoint an accepted transaction spent is
    recorded as not accepted. *)
Theorem applyBlueBlocks_accepts_iff
    (nodeBlueScore : N) (selectedParentPastUTXO : UTXO.UTXOSet)
    (blueBlocks : list UTXO.Block) :
  exists pastUTXO data,
    UTXO.applyBlueBlocks nodeBlueScore selectedParentPastUTXO blueBlocks
    = Ok (pastUTXO, data)
    /\ pastUTXO = UTXO.accumulatedPastUTXO nodeBlueScore selectedParentPastUTXO
                    (UTXO.scanOrder blueBlocks)
    /\ UTXO.BlockHash <$> data = UTXO.hashOfBlock <$> blueBlocks
    /\ (fun blockData => UTXO.AcceptedTx <$> UTXO.TxsAcceptance blockData) <$> data
       = UTXO.Transactions <$> blueBlocks
    /\ (forall processed item rest,
          UTXO.scanOrder blueBlocks = processed ++ item :: rest ->
          exists accepted,
            UTXO.acceptanceInScanOrder data !! length processed
            = Some {| UTXO.AcceptedTx := item.2; UTXO.IsAccepted := accepted |}
            /\ (accepted = true
                <-> (forall outpoint, outpoint ∈ UTXO.TxIn item.2 ->
                       is_Some (UTXO.accumulatedPastUTXO nodeBlueScore
                                  selectedParentPastUTXO processed !! outpoint))
                    /\ ~ (item.1 <> 0%nat /\ UTXO.IsCoinBase item.2 = true)))
    /\ (forall processed first between again rest (outpoint : N * N),
          UTXO.scanOrder blueBlocks = processed ++ first :: between ++ again :: rest ->
          UTXO.acceptanceInScanOrder data !! length processed
          = Some {| UTXO.AcceptedTx := first.2; UTXO.IsAccepted := true |} ->
          outpoint ∈ UTXO.TxIn first.2 ->
          outpoint ∈ UTXO.TxIn again.2 ->
          (forall t, t ∈ first :: between -> UTXO.ID t.2 <> outpoint.1) ->
          UTXO.acceptanceInScanOrder data !! (length processed + 1 + length between)%nat
          = Some {| UTXO.AcceptedTx := again.2; UTXO.IsAccepted := false |}).
Proof.
  destruct (applyBlocksFrom_spec nodeBlueScore blueBlocks 0 selectedParentPastUTXO)
    as (data & Hrun & Hrecords & Hhashes & Htxs).
  exists (UTXO.accumulatedPastUTXO nodeBlueScore selectedParentPastUTXO
            (UTXO.scanOrder blueBlocks)), data.
  split; [done|]. split; [done|]. split; [done|]. split; [done|].
  fold (UTXO.scanOrder blueBlocks) in Hrecords. rewrite Hrecords. split.
  - intros processed item rest ->. eexists. split.
    + apply recordsBySpec_lookup.
    + apply acceptedBySpec_spec.
  - intros processed first between again rest outpoint -> Hfirst Hin Hagain Hids.
    rewrite recordsBySpec_lookup in Hfirst. injection Hfirst as Hfirst.
    replace (processed ++ first :: between ++ again :: rest)
      with ((processed ++ first :: between) ++ again :: rest)
      by (by rewrite <- app_assoc).
    replace (length processed + 1 + length between)%nat
      with (length (processed ++ first :: between))
      by (rewrite length_app; cbn [length]; lia).
    rewrite recordsBySpec_lookup. do 2 f_equal.
    apply not_true_is_false. rewrite acceptedBySpec_spec. intros [Hall _].
    destruct (Hall outpoint Hagain) as [entry Hentry].
    rewrite accumulatedPastUTXO_app in Hentry.
    change (first :: between) with ([first] ++ between) in Hentry.
    rewrite accumulatedPastUTXO_app in Hentry.
    rewrite (accumulatedPastUTXO_keeps_spent nodeBlueScore between outpoint) in Hentry;
      [done| |].
    + apply accumulate_spends; [done..|]. apply Hids. by left.
    + intros t Ht. apply Hids. by right.
Qed.

(** Witness for C1: the selected parent holds two transactions that spend
    the same outpoint, and a later blue holds its coinbase and a third
    transaction that spends that outpoint; only the first of the four is
    accepted. *)
Lemma applyBlueBlocks_accepts_iff_witness :
  exists pastUTXO data,
    UTXO.applyBlueBlocks 7 UTXO.oneOutput [UTXO.doubleSpendBlock; UTXO.laterBlueBlock]
    = Ok (pastUTXO, data)
    /\ UTXO.acceptanceInScanOrder data
       = [ {| UTXO.AcceptedTx := UTXO.spendFirst; UTXO.IsAccepted := true |};
           {| UTXO.AcceptedTx := UTXO.spendAgain; UTXO.IsAccepted := false |};
           {| UTXO.AcceptedTx := UTXO.coinbaseOfBlue; UTXO.IsAccepted := false |};
           {| UTXO.AcceptedTx := UTXO.spendLater; UTXO.IsAccepted := false |} ].
Proof.
  destruct (applyBlueBlocks_accepts_iff 7 UTXO.oneOutput
              [UTXO.doubleSpendBlock; UTXO.laterBlueBlock])
    as (pastUTXO & data & Hrun & _).
  exists pastUTXO, data. split; [done|].
  revert Hrun. vm_compute. intros Hrun. by inversion Hrun.
Defined.

(** ** Connecting a block with a wrong UTXO commitment *)

Section ConnectFacts.

Import Ghostdag UTXO Connect.

Variable env : Collaborators.

(** When every validation before it passes, [verifyAndBuildUTXO] is decided
    by the comparison of the commitment. *)
Lemma validateBlock_bad_commitment (dag : BlockDAG) (node : BlockNode)
    (block : Block) (flags : N) (multiset : MultiSet) :
  reachesCommitmentCheck env dag node block flags multiset ->
  Finalize env multiset <> utxoCommitment node ->
  validateBlock env dag node block
    ((N.land flags BFFastAdd =? BFFastAdd)
     || KnownValid (NodeStatus (blockNodeStore dag) node))
  = Err (Wrapped "error verifying UTXO" (RuleError ErrBadUTXOCommitment)).
Proof.
  intros (pastU & spU & acc & fees & Hwarn & Hfin & Hgas & Hpast & Hmerkle & Hconn & Hms)
    Hdiff.
  unfold validateBlock, verifyAndBuildUTXO.
  assert (Hw : (if isSynced env dag
                then _ ← warnUnknownRuleActivations env dag node;
                     warnUnknownVersions env dag node
                else Ok ()) = Ok ()).
  { destruct (isSynced env dag); [|done]. destruct Hwarn as [-> ->]; done. }
  rewrite Hw, Hfin, Hgas, Hpast. cbn [mbind result_bind].
  rewrite Hmerkle, Hconn, Hms. cbn [mbind result_bind].
  unfold IsEqual. by rewrite bool_decide_eq_false_2.
Qed.

End ConnectFacts.

(** C6.  When the validations that precede it pass and the finalized
    multiset hash differs from the UTXO commitment of the header, and the
    database takes the writes, [addBlock] fails with a BadUTXOCommitment
    rule error; the validate-failed bit is set in the status of the node,
    in the store and in the block index of the database; nothing else of
    the DAG or of the database changes. *)
Theorem addBlock_bad_UTXO_commitment
    (env : Connect.Collaborators) (dag : Connect.BlockDAG)
    (node : Ghostdag.BlockNode) (block : UTXO.Block)
    (selectedParentAnticone : list Ghostdag.BlockNode) (flags : N)
    (multiset : Z * Z) :
  Connect.reachesCommitmentCheck env dag node block flags multiset ->
  Connect.Finalize env multiset <> Ghostdag.utxoCommitment node ->
  (forall op, Connect.ioError env op = None) ->
  let r := Connect.addBlock env dag node block selectedParentAnticone flags in
  let failed := N.lor (Connect.NodeStatus (Connect.blockNodeStore dag) node)
                  Connect.StatusValidateFailed in
  (exists err, r.2 = Err err /\ asRuleError err = Some ErrBadUTXOCommitment)
  /\ Connect.NodeStatus (Connect.blockNodeStore r.1) node = failed
  /\ Connect.blockIndexBucket (Connect.databaseContext r.1) !! Ghostdag.hash node
     = Some failed
  /\ (forall h, h <> Ghostdag.hash node ->
        Connect.statuses (Connect.blockNodeStore r.1) !! h
        = Connect.statuses (Connect.blockNodeStore dag) !! h)
  /\ Connect.otherBuckets (Connect.databaseContext r.1)
     = Connect.otherBuckets (Connect.databaseContext dag)
  /\ Connect.virtualTips r.1 = Connect.virtualTips dag
  /\ Connect.virtualUTXOSet r.1 = Connect.virtualUTXOSet dag
  /\ Connect.reachabilityTree r.1 = Connect.reachabilityTree dag
  /\ Connect.utxoDiffStore r.1 = Connect.utxoDiffStore dag
  /\ Connect.multisetStore r.1 = Connect.multisetStore dag
  /\ Connect.lastFinalityPoint r.1 = Connect.lastFinalityPoint dag
  /\ Connect.blockCount r.1 = Connect.blockCount dag.
Proof.
  intros Hreach Hdiff Hio r failed. subst r.
  unfold Connect.addBlock, Connect.connectBlock.
  rewrite (validateBlock_bad_commitment env dag node block flags multiset Hreach Hdiff).
  cbn [asRuleError].
  unfold Connect.flushBlockNodeStore, Connect.NewTx, Connect.FlushToDB, Connect.Commit.
  rewrite !Hio. cbn.
  split; [by eexists|].
  assert (Hstatus : Connect.NodeStatus
                      (Connect.SetStatusFlags node Connect.StatusValidateFailed
                         (Connect.blockNodeStore dag)) node = failed).
  { unfold Connect.NodeStatus at 1. cbn. by rewrite lookup_insert_eq. }
  split; [done|]. split.
  - do 2 apply lookup_union_Some_l. apply map_lookup_filter_Some. split.
    + apply lookup_insert_eq.
    + cbn. set_solver.
  - split; [|done]. intros h Hne. by rewrite lookup_insert_ne.
Qed.

(** Witness for C6: the block of [nodeD] on a DAG whose tip is [nodeA]; its
    header commits to 0 and its multiset finalizes to 77. *)
Lemma addBlock_bad_UTXO_commitment_witness :
  let r := Connect.addBlock Connect.passingCollaborators Connect.smallDAG
             Ghostdag.nodeD Connect.blockD [] 0 in
  (exists err, r.2 = Err err /\ asRuleError err = Some ErrBadUTXOCommitment)
  /\ Connect.NodeStatus (Connect.blockNodeStore r.1) Ghostdag.nodeD = 5
  /\ Connect.blockIndexBucket (Connect.databaseContext r.1) !! 5 = Some 5
  /\ Connect.otherBuckets (Connect.databaseContext r.1)
     = Connect.otherBuckets (Connect.databaseContext Connect.smallDAG)
  /\ Connect.virtualTips r.1 = {[2]}.
Proof.
  intros r.
  destruct (addBlock_bad_UTXO_commitment Connect.passingCollaborators Connect.smallDAG
              Ghostdag.nodeD Connect.blockD [] 0 (0%Z, 0%Z))
    as (Herr & Hstatus & Hindex & _ & Hother & Htips & _).
  - exists ∅, ∅, [], []. repeat split; reflexivity.
  - simpl. discriminate.
  - intros op. reflexivity.
  - split; [exact Herr|]. split; [exact Hstatus|]. split; [exact Hindex|].
    split; [exact Hother | exact Htips].
Defined.
(** ** The orphan pool: expiry, capacity and the parent index *)

Section OrphanPoolFacts.

Import Orphans.

(** An entry that is not expired only updates the remembered newest orphan. *)
Lemma expireOrTrack_unexpired (now : Time) (dag : OrphanPool) (h : Hash) (o : orphanBlock) :
  After now (expiration o) = false ->
  expireOrTrack now dag (h, o)
  = {| orphans := orphans dag; prevOrphans := prevOrphans dag;
       newestOrphan :=
         Some match newestOrphan dag with
              | None => o
              | Some newest =>
                  if After (timestamp (block o)) (timestamp (block newest))
                  then o else newest
              end |}.
Proof.
  intros Hexp. unfold expireOrTrack. cbn [snd]. rewrite Hexp.
  destruct dag as [os ps [newest|]]; cbn [orphans prevOrphans newestOrphan]; [|done].
  by destruct (After (timestamp (block o)) (timestamp (block newest))).
Qed.

(** When no visited entry is expired, the expiry loop changes nothing but
    the remembered newest orphan, which ends up the newest-stamped among
    the one remembered before and the visited ones. *)
Lemma expiry_loop_tracks_newest (order : list (Hash * orphanBlock)) (now : Time) :
  forall dag,
  Forall (fun entry => After now (expiration entry.2) = false) order ->
  let dag' := foldl (expireOrTrack now) dag order in
  orphans dag' = orphans dag
  /\ prevOrphans dag' = prevOrphans dag
  /\ match newestOrphan dag' with
     | None => newestOrphan dag = None /\ order = []
     | Some m =>
         (newestOrphan dag = Some m \/ m ∈ order.*2)
         /\ (forall n, newestOrphan dag = Some n ->
                       (timestamp (block n) <= timestamp (block m))%Z)
         /\ (forall o, o ∈ order.*2 ->
                       (timestamp (block o) <= timestamp (block m))%Z)
     end.
Proof.
  induction order as [|[h o] order IH]; intros dag Hall; cbn [foldl].
  - split; [done|]. split; [done|]. destruct (newestOrphan dag) as [m|]; [|done].
    split; [by left|]. split.
    + intros n Hn. inversion Hn. lia.
    + intros o Ho. by apply elem_of_nil in Ho.
  - apply Forall_cons in Hall as [Hexp Hall]. cbn [snd] in Hexp.
    rewrite (expireOrTrack_unexpired now dag h o Hexp).
    set (picked := match newestOrphan dag with
                   | None => o
                   | Some newest =>
                       if After (timestamp (block o)) (timestamp (block newest))
                       then o else newest
                   end).
    specialize (IH {| orphans := orphans dag; prevOrphans := prevOrphans dag;
                      newestOrphan := Some picked |} Hall).
    cbn [orphans prevOrphans newestOrphan] in IH.
    destruct IH as (Ho & Hp & Hm). split; [done|]. split; [done|].
    destruct (newestOrphan (foldl _ _ order)) as [m|]; [|by destruct Hm].
    destruct Hm as (Hfrom & Hge & Hall').
    specialize (Hge picked eq_refl).
    assert (Hpicked : (timestamp (block o) <= timestamp (block picked))%Z
                      /\ (forall n, newestOrphan dag = Some n ->
                            (timestamp (block n) <= timestamp (block picked))%Z)
                      /\ (newestOrphan dag = Some picked \/ picked = o)).
    { unfold picked, After. destruct (newestOrphan dag) as [newest|].
      - destruct (Z.ltb_spec (timestamp (block newest)) (timestamp (block o))).
        + split; [lia|]. split; [|by right]. intros n Hn. inversion Hn; subst. lia.
        + split; [lia|]. split; [|by left]. intros n Hn. inversion Hn; subst. lia.
      - split; [lia|]. split; [done | by right]. }
    destruct Hpicked as (Hpo & Hpn & Hpfrom).
    rewrite fmap_cons. cbn [snd]. split; [|split].
    + destruct Hfrom as [Hfrom|Hfrom]; [|right; by right].
      inversion Hfrom; subst m. destruct Hpfrom as [? | ->]; [by left|]. right. by left.
    + intros n Hn. specialize (Hpn n Hn). lia.
    + intros o' [->|Ho']%elem_of_cons; [lia|]. by apply Hall'.
Qed.

(** X1.  [addOrphanBlock] on a full pool in which nothing is expired and
    the remembered newest orphan, if any, is still in the pool: the expiry
    loop settles on a newest-stamped orphan of the pool; a block stamped
    later than it is dropped and the pool is unchanged; any other block
    replaces that orphan, and the pool keeps [maxOrphanBlocks] orphans. *)
Lemma addOrphanBlock_at_capacity (order : list (Hash * orphanBlock)) (now : Time)
    (blk : Block) (dag : OrphanPool) :
  order ≡ₚ map_to_list (orphans dag) ->
  (forall h o, orphans dag !! h = Some o ->
               blockHash (block o) = h /\ After now (expiration o) = false) ->
  (forall n, newestOrphan dag = Some n -> orphans dag !! blockHash (block n) = Some n) ->
  size (orphans dag) = maxOrphanBlocks ->
  orphans dag !! blockHash blk = None ->
  exists newest dag',
    orphans dag !! blockHash (block newest) = Some newest
    /\ (forall h o, orphans dag !! h = Some o ->
                    (timestamp (block o) <= timestamp (block newest))%Z)
    /\ addOrphanBlockIn order now blk dag = Ok dag'
    /\ size (orphans dag') = maxOrphanBlocks
    /\ if After (timestamp blk) (timestamp (block newest))
       then orphans dag' = orphans dag
       else orphans dag'
            = <[blockHash blk := {| block := blk; expiration := (now + hour)%Z |}]>
                (delete (blockHash (block newest)) (orphans dag)).
Proof.
  intros Hperm Hpool Hfresh Hsize Hnew.
  assert (Hin : forall o, o ∈ order.*2 -> orphans dag !! blockHash (block o) = Some o).
  { intros o Ho. apply list_elem_of_fmap in Ho as ([h o'] & -> & Ho).
    rewrite Hperm in Ho. apply elem_of_map_to_list in Ho.
    cbn [snd]. by destruct (Hpool h o' Ho) as [-> _]. }
  assert (Hall : Forall (fun entry => After now (expiration entry.2) = false) order).
  { apply Forall_forall. intros [h o] Ho. rewrite Hperm in Ho.
    apply elem_of_map_to_list in Ho. by destruct (Hpool h o Ho). }
  destruct (expiry_loop_tracks_newest order now dag Hall) as (Ho & Hp & Hm).
  unfold addOrphanBlockIn. rewrite Ho, Hsize. rewrite decide_True by lia.
  destruct (newestOrphan (foldl _ _ order)) as [m|].
  - destruct Hm as (Hfrom & _ & Hge).
    assert (Hmin : orphans dag !! blockHash (block m) = Some m).
    { destruct Hfrom as [Hfrom|Hfrom]; [by apply Hfresh | by apply Hin]. }
    assert (Hmax : forall h o, orphans dag !! h = Some o ->
                     (timestamp (block o) <= timestamp (block m))%Z).
    { intros h o Hho. apply Hge. apply list_elem_of_fmap. exists (h, o).
      split; [done|]. rewrite Hperm. by apply elem_of_map_to_list. }
    destruct (After (timestamp blk) (timestamp (block m))) eqn:Hafter.
    + eexists m, _. split; [done|]. split; [done|]. split; [done|].
      rewrite Hafter, Ho. by split.
    + eexists m, _. split; [done|]. split; [done|]. split; [done|].
      rewrite Hafter. cbn [orphans insertOrphan removeOrphanBlock]. rewrite Ho.
      split; [|done].
      rewrite map_size_insert_None.
      * rewrite map_size_delete, Hmin, Hsize. done.
      * destruct (decide (blockHash blk = blockHash (block m))) as [Heq|Hne].
        -- rewrite Heq. apply lookup_delete_eq.
        -- by rewrite lookup_delete_ne.
  - destruct Hm as [_ Hnil]. subst order.
    symmetry in Hperm. apply Permutation_nil_r in Hperm.
    apply map_to_list_empty_iff in Hperm. rewrite Hperm, map_size_empty in Hsize.
    done.
Qed.

(** The full pool of a hundred fresh orphans, and a block stamped 50. *)
Lemma addOrphanBlock_at_capacity_witness :
  exists newest dag',
    orphans freshPool !! blockHash (block newest) = Some newest
    /\ (forall h o, orphans freshPool !! h = Some o ->
                    (timestamp (block o) <= timestamp (block newest))%Z)
    /\ addOrphanBlockIn (map_to_list (orphans freshPool)) 2 (orphanAt 200 50) freshPool
       = Ok dag'
    /\ size (orphans dag') = maxOrphanBlocks
    /\ if After (timestamp (orphanAt 200 50)) (timestamp (block newest))
       then orphans dag' = orphans freshPool
       else orphans dag'
            = <[blockHash (orphanAt 200 50) :=
                  {| block := orphanAt 200 50; expiration := (2 + hour)%Z |}]>
                (delete (blockHash (block newest)) (orphans freshPool)).
Proof.
  apply addOrphanBlock_at_capacity.
  - done.
  - change (map_Forall (fun h o => blockHash (block o) = h
                                   /\ After 2 (expiration o) = false)
              (orphans freshPool)).
    refine (@bool_decide_unpack _ _ _). by vm_compute.
  - intros n Hn. vm_compute in Hn. inversion Hn. by vm_compute.
  - by vm_compute.
  - by vm_compute.
Defined.

(** The orphans the expiry loop leaves: a visited entry goes when it is
    expired; nothing else changes. *)
Lemma expiry_loop_lookup (order : list (Hash * orphanBlock)) (now : Time) :
  forall dag,
  Forall (fun entry => blockHash (block entry.2) = entry.1) order ->
  forall k,
  orphans (foldl (expireOrTrack now) dag order) !! k
  = if bool_decide (Exists (fun entry => entry.1 = k
                                         /\ After now (expiration entry.2) = true) order)
    then None else orphans dag !! k.
Proof.
  induction order as [|[h o] order IH]; intros dag Hkeys k; cbn [foldl].
  - rewrite bool_decide_eq_false_2; [done|]. by intros ?%Exists_nil.
  - apply Forall_cons in Hkeys as [Hkey Hkeys]. cbn [fst snd] in Hkey.
    rewrite (IH _ Hkeys k).
    destruct (bool_decide (Exists _ order)) eqn:Hrest.
    + apply bool_decide_eq_true in Hrest.
      rewrite bool_decide_eq_true_2; [done|]. by apply Exists_cons_tl.
    + apply bool_decide_eq_false in Hrest.
      unfold expireOrTrack. cbn [snd].
      destruct (After now (expiration o)) eqn:Hexp.
      * cbn [removeOrphanBlock orphans]. rewrite Hkey.
        destruct (decide (h = k)) as [->|Hne].
        -- rewrite lookup_delete_eq. rewrite bool_decide_eq_true_2; [done|].
           by apply Exists_cons_hd.
        -- rewrite (lookup_delete_ne _ _ _ Hne).
           rewrite bool_decide_eq_false_2; [done|].
           intros [[? _]|?]%Exists_cons; [done|done].
      * rewrite bool_decide_eq_false_2.
        -- destruct (newestOrphan dag) as [newest|]; [|done].
           by destruct (After (timestamp (block o)) (timestamp (block newest))).
        -- intros [[_ Hc]|?]%Exists_cons; [|done]. cbn [snd] in Hc. congruence.
Qed.

(** Visiting every entry of a pool filed under its own hash, the expiry
    loop leaves exactly the orphans that are not expired. *)
Lemma expiry_loop_unexpired (order : list (Hash * orphanBlock)) (now : Time)
    (dag : OrphanPool) :
  order ≡ₚ map_to_list (orphans dag) ->
  (forall h o, orphans dag !! h = Some o -> blockHash (block o) = h) ->
  orphans (foldl (expireOrTrack now) dag order) = unexpired now (orphans dag).
Proof.
  intros Hperm Hkeys. apply map_eq. intros k.
  rewrite expiry_loop_lookup.
  2:{ apply Forall_forall. intros [h o] Hin. rewrite Hperm in Hin.
      apply elem_of_map_to_list in Hin. cbn [fst snd]. by apply Hkeys. }
  unfold unexpired.
  destruct (bool_decide (Exists _ order)) eqn:Hex.
  - apply bool_decide_eq_true in Hex. apply Exists_exists in Hex as ([h o] & Hin & Hk & Hexp).
    cbn [fst snd] in Hk, Hexp. subst h. rewrite Hperm in Hin.
    apply elem_of_map_to_list in Hin. symmetry. apply map_lookup_filter_None.
    right. intros o' Ho'. cbn [snd]. rewrite Hin in Ho'. inversion Ho'; subst. congruence.
  - apply bool_decide_eq_false in Hex.
    destruct (orphans dag !! k) as [o|] eqn:Hk.
    + symmetry. apply map_lookup_filter_Some. split; [done|]. cbn [snd].
      destruct (After now (expiration o)) eqn:Hexp; [|done].
      exfalso. apply Hex. apply Exists_exists. exists (k, o). split; [|done].
      rewrite Hperm. by apply elem_of_map_to_list.
    + symmetry. apply map_lookup_filter_None. by left.
Qed.

(** Filing an orphan under its parents leaves it listed under each one. *)
Lemma index_under_parents (oBlock : orphanBlock) (parents : list Hash) :
  forall (prev : gmap Hash (list orphanBlock)) (p : Hash),
  p ∈ parents \/ (exists l, prev !! p = Some l /\ oBlock ∈ l) ->
  exists l,
    foldl (fun prev parentHash =>
             <[parentHash := default [] (prev !! parentHash) ++ [oBlock]]> prev)
          prev parents !! p = Some l
    /\ oBlock ∈ l.
Proof.
  induction parents as [|q parents IH]; intros prev p Hp; cbn [foldl].
  - destruct Hp as [Hp|Hp]; [by apply elem_of_nil in Hp | done].
  - apply IH. destruct (decide (p = q)) as [->|Hne].
    + right. rewrite lookup_insert_eq. eexists. split; [done|].
      apply elem_of_app. right. by apply list_elem_of_singleton.
    + destruct Hp as [[?|Hp]%elem_of_cons|Hp]; [done | by left |].
      right. by rewrite lookup_insert_ne.
Qed.

(** X2.  Whatever branch [addOrphanBlock] takes, every orphan of the pool
    it leaves is either the block just added, expiring an hour from now, or
    an orphan that was in the pool before and is not expired: the call
    keeps no expired orphan and invents none. *)
Lemma addOrphanBlock_keeps_no_expired_orphan (order : list (Hash * orphanBlock))
    (now : Time) (blk : Block) (dag dag' : OrphanPool) :
  order ≡ₚ map_to_list (orphans dag) ->
  (forall h o, orphans dag !! h = Some o -> blockHash (block o) = h) ->
  addOrphanBlockIn order now blk dag = Ok dag' ->
  forall h o, orphans dag' !! h = Some o ->
    (h = blockHash blk /\ o = {| block := blk; expiration := (now + hour)%Z |})
    \/ (orphans dag !! h = Some o /\ After now (expiration o) = false).
Proof.
  intros Hperm Hkeys Hrun h o Hlook.
  pose proof (expiry_loop_unexpired order now dag Hperm Hkeys) as Hloop.
  assert (Hold : forall m : gmap Hash orphanBlock,
            m ⊆ orphans (foldl (expireOrTrack now) dag order) ->
            <[blockHash blk := {| block := blk; expiration := (now + hour)%Z |}]> m
              !! h = Some o ->
            (h = blockHash blk /\ o = {| block := blk; expiration := (now + hour)%Z |})
            \/ (orphans dag !! h = Some o /\ After now (expiration o) = false)).
  { intros m Hsub Hm. destruct (decide (blockHash blk = h)) as [<-|Hne].
    - rewrite lookup_insert_eq in Hm. left. split; [done|congruence].
    - rewrite lookup_insert_ne in Hm by done. right.
      eapply lookup_weaken in Hm; [|exact Hsub]. rewrite Hloop in Hm.
      by apply map_lookup_filter_Some in Hm. }
  unfold addOrphanBlockIn in Hrun.
  destruct (decide _) as [Hfull|Hroom] in Hrun.
  - destruct (newestOrphan (foldl _ _ order)) as [newest|]; [|done].
    destruct (After (timestamp blk) (timestamp (block newest))).
    + inversion Hrun; subst dag'. rewrite Hloop in Hlook. right.
      by apply map_lookup_filter_Some in Hlook.
    + inversion Hrun; subst dag'. cbn [orphans insertOrphan removeOrphanBlock] in Hlook.
      apply (Hold _ (delete_subseteq _ _) Hlook).
  - inversion Hrun; subst dag'. cbn [orphans insertOrphan] in Hlook.
    by apply (Hold _ (reflexivity _)).
Qed.

(** Adding a second orphan to a pool whose only orphan has expired: the
    pool is left with the new orphan alone. *)
Lemma addOrphanBlock_keeps_no_expired_orphan_witness :
  orphans (poolOf (addOrphanBlock (hour + 1) (orphanAt 7 7)
                     (poolOf (addOrphanBlock 0 (orphanAt 2 5) emptyPool)))) !! 7
  = Some {| block := orphanAt 7 7; expiration := (hour + 1 + hour)%Z |}
  /\ ((7 = blockHash (orphanAt 7 7)
       /\ {| block := orphanAt 7 7; expiration := (hour + 1 + hour)%Z |}
          = {| block := orphanAt 7 7; expiration := (hour + 1 + hour)%Z |})
      \/ (orphans (poolOf (addOrphanBlock 0 (orphanAt 2 5) emptyPool)) !! 7
          = Some {| block := orphanAt 7 7; expiration := (hour + 1 + hour)%Z |}
          /\ After (hour + 1)
               (expiration {| block := orphanAt 7 7;
                              expiration := (hour + 1 + hour)%Z |}) = false)).
Proof.
  split; [by vm_compute|].
  apply (addOrphanBlock_keeps_no_expired_orphan
           (map_to_list (orphans (poolOf (addOrphanBlock 0 (orphanAt 2 5) emptyPool))))
           (hour + 1) (orphanAt 7 7)
           (poolOf (addOrphanBlock 0 (orphanAt 2 5) emptyPool))
           (poolOf (addOrphanBlock (hour + 1) (orphanAt 7 7)
                      (poolOf (addOrphanBlock 0 (orphanAt 2 5) emptyPool))))).
  - done.
  - change (map_Forall (fun h o => blockHash (block o) = h)
              (orphans (poolOf (addOrphanBlock 0 (orphanAt 2 5) emptyPool)))).
    refine (@bool_decide_unpack _ _ _). by vm_compute.
  - by vm_compute.
  - by vm_compute.
Defined.

(** X3.  When fewer than [maxOrphanBlocks] orphans of the pool are
    unexpired, [addOrphanBlock] returns with the pool holding exactly those
    and the new block, which expires an hour from now; the block is a known
    orphan and is listed in the index under each of its parents. *)
Lemma addOrphanBlock_below_capacity (order : list (Hash * orphanBlock))
    (now : Time) (blk : Block) (dag : OrphanPool) :
  order ≡ₚ map_to_list (orphans dag) ->
  (forall h o, orphans dag !! h = Some o -> blockHash (block o) = h) ->
  (size (unexpired now (orphans dag)) < maxOrphanBlocks)%nat ->
  exists dag',
    addOrphanBlockIn order now blk dag = Ok dag'
    /\ orphans dag'
       = <[blockHash blk := {| block := blk; expiration := (now + hour)%Z |}]>
           (unexpired now (orphans dag))
    /\ IsKnownOrphan dag' (blockHash blk) = true
    /\ forall p, p ∈ parentHashes blk ->
         exists l, prevOrphans dag' !! p = Some l
                   /\ {| block := blk; expiration := (now + hour)%Z |} ∈ l.
Proof.
  intros Hperm Hkeys Hsize.
  pose proof (expiry_loop_unexpired order now dag Hperm Hkeys) as Hloop.
  unfold addOrphanBlockIn. rewrite Hloop. rewrite decide_False by lia.
  eexists. split; [done|]. unfold insertOrphan. cbn [orphans prevOrphans].
  rewrite Hloop.
  split; [done|]. split.
  - unfold IsKnownOrphan. apply bool_decide_eq_true. cbn [orphans].
    rewrite lookup_insert_eq. by eexists.
  - intros p Hp. apply index_under_parents. by left.
Qed.

(** A pool of one unexpired orphan, and a second block. *)
Lemma addOrphanBlock_below_capacity_witness :
  exists dag',
    addOrphanBlockIn
      (map_to_list (orphans (poolOf (addOrphanBlock 0 (orphanAt 2 5) emptyPool))))
      1 (orphanAt 7 7) (poolOf (addOrphanBlock 0 (orphanAt 2 5) emptyPool)) = Ok dag'
    /\ orphans dag'
       = <[blockHash (orphanAt 7 7) :=
             {| block := orphanAt 7 7; expiration := (1 + hour)%Z |}]>
           (unexpired 1 (orphans (poolOf (addOrphanBlock 0 (orphanAt 2 5) emptyPool))))
    /\ IsKnownOrphan dag' (blockHash (orphanAt 7 7)) = true
    /\ forall p, p ∈ parentHashes (orphanAt 7 7) ->
         exists l, prevOrphans dag' !! p = Some l
                   /\ {| block := orphanAt 7 7; expiration := (1 + hour)%Z |} ∈ l.
Proof.
  apply addOrphanBlock_below_capacity.
  - done.
  - change (map_Forall (fun h o => blockHash (block o) = h)
              (orphans (poolOf (addOrphanBlock 0 (orphanAt 2 5) emptyPool)))).
    refine (@bool_decide_unpack _ _ _). by vm_compute.
  - vm_compute. lia.
Defined.

Lemma filter_idem {A : Type} (P : A -> Prop) `{!forall x, Decision (P x)} (l : list A) :
  filter P (filter P l) = filter P l.
Proof.
  induction l as [|x l IH]; [done|].
  destruct (decide (P x)) as [HP|HP].
  - rewrite (filter_cons_True _ _ _ HP), (filter_cons_True _ _ _ HP). by rewrite IH.
  - by rewrite (filter_cons_False _ _ _ HP).
Qed.

(** The index after the loop of [removeOrphanBlock] over the parent hashes. *)
Lemma removeFromPrevOrphans_lookup (orphanHash : Hash) (parents : list Hash) :
  forall (prev : gmap Hash (list orphanBlock)) (p : Hash),
  foldl (removeFromPrevOrphans orphanHash) prev parents !! p
  = if bool_decide (p ∈ parents)
    then match filter (fun o => blockHash (block o) <> orphanHash)
                      (default [] (prev !! p)) with
         | [] => None
         | l => Some l
         end
    else prev !! p.
Proof.
  induction parents as [|q parents IH]; intros prev p; cbn [foldl].
  - rewrite bool_decide_eq_false_2; [done|]. by intros ?%elem_of_nil.
  - rewrite IH.
    assert (Hstep : forall k,
              removeFromPrevOrphans orphanHash prev q !! k
              = if decide (k = q)
                then match filter (fun o => blockHash (block o) <> orphanHash)
                                  (default [] (prev !! q)) with
                     | [] => None
                     | l => Some l
                     end
                else prev !! k).
    { intros k. unfold removeFromPrevOrphans.
      destruct (filter _ (default [] (prev !! q))) as [|o l] eqn:Hf.
      - destruct (decide (k = q)) as [->|Hne].
        + apply lookup_delete_eq.
        + by rewrite lookup_delete_ne.
      - destruct (decide (k = q)) as [->|Hne].
        + apply lookup_insert_eq.
        + by rewrite lookup_insert_ne. }
    rewrite (Hstep p).
    destruct (decide (p = q)) as [->|Hne].
    + rewrite (bool_decide_eq_true_2 (q ∈ q :: parents)) by (by left).
      destruct (bool_decide (q ∈ parents)); [|done].
      destruct (filter _ (default [] (prev !! q))) as [|o l] eqn:Hf; [done|].
      cbn [default from_option id]. rewrite <- Hf, filter_idem. by rewrite Hf.
    + destruct (bool_decide (p ∈ parents)) eqn:Hin.
      * apply bool_decide_eq_true in Hin.
        rewrite bool_decide_eq_true_2; [done | by right].
      * apply bool_decide_eq_false in Hin.
        rewrite bool_decide_eq_false_2; [done|].
        by intros [?|?]%elem_of_cons.
Qed.

(** X4.  [removeOrphanBlock] leaves the orphan unknown, every other
    orphan in place and the newest-orphan pointer as it was.  In the index
    only the entries of the orphan's parents change, and each of them is
    determined: under a parent the orphans with the removed hash are gone
    and the others stay, in their order; when none stays the entry is
    deleted rather than left as an empty list. *)
Lemma removeOrphanBlock_pool_and_index (dag : OrphanPool) (orphan : orphanBlock) :
  let orphanHash := blockHash (block orphan) in
  let dag' := removeOrphanBlock dag orphan in
  IsKnownOrphan dag' orphanHash = false
  /\ (forall h, h <> orphanHash -> orphans dag' !! h = orphans dag !! h)
  /\ newestOrphan dag' = newestOrphan dag
  /\ (forall p, p ∉ parentHashes (block orphan) ->
                prevOrphans dag' !! p = prevOrphans dag !! p)
  /\ (forall p, p ∈ parentHashes (block orphan) ->
        prevOrphans dag' !! p
        = match filter (fun o => blockHash (block o) <> orphanHash)
                       (default [] (prevOrphans dag !! p)) with
          | [] => None
          | others => Some others
          end).
Proof.
  intros orphanHash dag'. subst dag'. unfold removeOrphanBlock, IsKnownOrphan.
  cbn [orphans prevOrphans newestOrphan]. fold orphanHash.
  split; [|split; [|split; [|split]]].
  - apply bool_decide_eq_false. rewrite lookup_delete_eq. by intros [? ?].
  - intros h Hne. by rewrite lookup_delete_ne.
  - done.
  - intros p Hp. rewrite removeFromPrevOrphans_lookup.
    by rewrite bool_decide_eq_false_2.
  - intros p Hp.
    by rewrite removeFromPrevOrphans_lookup, bool_decide_eq_true_2.
Qed.

End OrphanPoolFacts.

(** ** GHOSTDAG: the bookkeeping of the k-cluster rule *)

Section GhostdagBookkeeping.

Import Ghostdag.

Variable IsInPast : BlockNode -> option BlockNode -> result bool.
Variable K : N.

Lemma wrapK_le (n : N) : wrapK n <= n.
Proof. unfold wrapK. apply N.Div0.mod_le. Qed.

(** A scan that leaves the candidate possibly blue has counted at most [K]
    blues and has met only blues whose anticone holds fewer than [K]. *)
Lemma scanBlues_within_K newNode blueCandidate blocks : forall sizes count scan,
  (forall h s, sizes !! h = Some s -> s < K) ->
  count <= K ->
  scanBlues IsInPast K newNode blueCandidate blocks sizes count = Ok scan ->
  possiblyBlue scan = true ->
  (forall h s, candidateBluesAnticoneSizes scan !! h = Some s -> s < K)
  /\ candidateAnticoneSize scan <= K.
Proof.
  induction blocks as [|block rest IH]; intros sizes count scan Hsizes Hcount Hscan Hblue.
  - inversion Hscan; subst. by split.
  - cbn [scanBlues] in Hscan.
    destruct (IsInPast block (Some blueCandidate)) as [[|]| |];
      cbn [mbind result_bind] in Hscan; try done.
    + by apply (IH sizes count).
    + destruct (BlueAnticoneSize block newNode) as [size| |];
        cbn [mbind result_bind] in Hscan; try done.
      destruct (K <? wrapK (count + 1)) eqn:Hover.
      { inversion Hscan; subst. done. }
      destruct (size =? K) eqn:Hfull.
      { inversion Hscan; subst. done. }
      destruct (K <? size) eqn:Hmore; [done|].
      apply N.ltb_ge in Hover, Hmore. apply N.eqb_neq in Hfull.
      apply (IH (<[hash block := size]> sizes) (wrapK (count + 1))); try done.
      intros h s [[_ <-]|[_ Hold]]%lookup_insert_Some; [lia|]. by apply (Hsizes h).
Qed.

Lemma walkChain_within_K newNode blueCandidate chain : forall atNewNode sizes count scan,
  (forall h s, sizes !! h = Some s -> s < K) ->
  count <= K ->
  walkChain IsInPast K newNode blueCandidate atNewNode chain sizes count = Ok scan ->
  possiblyBlue scan = true ->
  (forall h s, candidateBluesAnticoneSizes scan !! h = Some s -> s < K)
  /\ candidateAnticoneSize scan <= K.
Proof.
  induction chain as [|chainBlock rest IH];
    intros atNewNode sizes count scan Hsizes Hcount Hwalk Hblue; [done|].
  cbn [walkChain] in Hwalk.
  destruct (if atNewNode then Ok false else IsInPast chainBlock (Some blueCandidate))
    as [[|]| |]; cbn [mbind result_bind] in Hwalk; try done.
  - inversion Hwalk; subst. by split.
  - destruct (scanBlues _ _ _ _ _ _ _) as [inner| |] eqn:Hinner;
      cbn [mbind result_bind] in Hwalk; try done.
    destruct (possiblyBlue inner) eqn:Hinnerblue.
    + destruct (scanBlues_within_K _ _ _ _ _ _ Hsizes Hcount Hinner Hinnerblue).
      by apply (IH false (candidateBluesAnticoneSizes inner) (candidateAnticoneSize inner)).
    + inversion Hwalk; subst. congruence.
Qed.

Lemma bluesAnticoneSizes_addBlue c scan n :
  bluesAnticoneSizes (addBlue c scan n)
  = ((fun blueAnticoneSize => wrapK (blueAnticoneSize + 1))
       <$> candidateBluesAnticoneSizes scan)
    ∪ <[hash c := candidateAnticoneSize scan]> (bluesAnticoneSizes n).
Proof. done. Qed.

(** Colouring keeps every recorded anticone size within [K] and an entry
    for every blue. *)
Lemma colorCandidates_sizes candidates : forall n n',
  (forall h s, bluesAnticoneSizes n !! h = Some s -> s <= K) ->
  (forall b, b ∈ blues n -> is_Some (bluesAnticoneSizes n !! hash b)) ->
  colorCandidates IsInPast K n candidates = Ok n' ->
  (forall h s, bluesAnticoneSizes n' !! h = Some s -> s <= K)
  /\ (forall b, b ∈ blues n' -> is_Some (bluesAnticoneSizes n' !! hash b)).
Proof.
  induction candidates as [|c rest IH]; intros n n' Hle Hkeys H.
  - inversion H; subst. by split.
  - rewrite colorCandidates_cons in H.
    destruct (walkChain _ _ _ _ _ _ _ _) as [scan| |] eqn:Hwalk; [|done..].
    cbn [mbind result_bind] in H.
    destruct (possiblyBlue scan) eqn:Hblue; [|by apply (IH n)].
    assert (Hempty : forall h s, (∅ : gmap Hash N) !! h = Some s -> s < K).
    { intros h s Hl. by rewrite lookup_empty in Hl. }
    destruct (walkChain_within_K _ _ _ _ _ _ _ Hempty (N.le_0_l K) Hwalk Hblue)
      as [Hscan Hcount].
    assert (Hle' : forall h s, bluesAnticoneSizes (addBlue c scan n) !! h = Some s -> s <= K).
    { intros h s. rewrite bluesAnticoneSizes_addBlue.
      intros [Hnew|[_ Hold]]%lookup_union_Some_raw.
      - apply lookup_fmap_Some in Hnew as (s0 & <- & Hs0).
        specialize (Hscan h s0 Hs0). pose proof (wrapK_le (s0 + 1)). lia.
      - apply lookup_insert_Some in Hold as [[_ <-]|[_ Hold]]; [done|].
        by apply (Hle h). }
    assert (Hkeys' : forall b, b ∈ blues (addBlue c scan n) ->
                       is_Some (bluesAnticoneSizes (addBlue c scan n) !! hash b)).
    { intros b. rewrite blues_addBlue, bluesAnticoneSizes_addBlue.
      intros Hb. apply lookup_union_is_Some. right.
      apply elem_of_app in Hb as [Hb|Hb%list_elem_of_singleton].
      - destruct (decide (hash c = hash b)) as [->|Hne].
        + rewrite lookup_insert_eq. by eexists.
        + rewrite lookup_insert_ne by done. by apply Hkeys.
      - subst b. rewrite lookup_insert_eq. by eexists. }
    destruct (_ =? _).
    + inversion H; subst. by split.
    + by apply (IH (addBlue c scan n)).
Qed.

End GhostdagBookkeeping.

(** X5.  A node that [Run] has coloured records, for each of its blues, a
    blue anticone size, and no size it records exceeds [K]: the
    bookkeeping of the k-cluster rule stays within the bound whatever the
    reachability oracle answers. *)
Lemma Run_records_anticone_sizes_within_K
    (IsInPast : Ghostdag.BlockNode -> option Ghostdag.BlockNode -> result bool)
    (K : N) (newNode coloured : Ghostdag.BlockNode)
    (anticone : list Ghostdag.BlockNode) :
  Ghostdag.Run IsInPast K newNode = Some (Ok (coloured, anticone)) ->
  (forall h s, Ghostdag.bluesAnticoneSizes coloured !! h = Some s -> s <= K)
  /\ (forall b, b ∈ Ghostdag.blues coloured ->
        exists s, Ghostdag.bluesAnticoneSizes coloured !! Ghostdag.hash b = Some s
                  /\ s <= K).
Proof.
  intros HRun.
  destruct (Run_Ok _ _ _ _ _ HRun)
    as (sp & start & found & last & _ & Hstart & _ & _ & Hcolor & ->).
  destruct (colorCandidates_sizes IsInPast K anticone start last) as [Hle Hkeys];
    [| |done|].
  - rewrite Hstart. cbn. intros h s [_ <-]%lookup_singleton_Some. lia.
  - rewrite Hstart. cbn. intros b ->%list_elem_of_singleton.
    rewrite lookup_singleton_eq. by eexists.
  - cbn. split; [done|]. intros b Hb. destruct (Hkeys b Hb) as [s Hs].
    exists s. split; [done|]. by apply (Hle (Ghostdag.hash b)).
Qed.

(** The block on both children of the genesis, with [K = 1]. *)
Lemma Run_records_anticone_sizes_within_K_witness :
  exists coloured anticone,
    Ghostdag.Run Ghostdag.pastOracle 1 Ghostdag.nodeC = Some (Ok (coloured, anticone))
    /\ (forall h s, Ghostdag.bluesAnticoneSizes coloured !! h = Some s -> s <= 1)
    /\ (forall b, b ∈ Ghostdag.blues coloured ->
          exists s, Ghostdag.bluesAnticoneSizes coloured !! Ghostdag.hash b = Some s
                    /\ s <= 1).
Proof.
  eexists _, _. split; [by vm_compute|].
  eapply (Run_records_anticone_sizes_within_K Ghostdag.pastOracle 1 Ghostdag.nodeC).
  by vm_compute.
Defined.

(** ** GHOSTDAG: the order of candidates and blues *)

Section LessFacts.

Import Ghostdag.

(** [less] compares the pairs (blue score, hash) lexicographically. *)
Lemma Less_spec (a b : BlockNode) :
  Less a b = true
  <-> blueScore a < blueScore b
      \/ (blueScore a = blueScore b /\ hash a < hash b).
Proof.
  unfold Less. destruct (N.eqb_spec (blueScore a) (blueScore b)) as [Heq|Hne].
  - rewrite N.ltb_lt. lia.
  - rewrite N.ltb_lt. lia.
Qed.

Lemma Less_false (a b : BlockNode) :
  Less a b = false
  <-> blueScore b < blueScore a
      \/ (blueScore a = blueScore b /\ hash b <= hash a).
Proof.
  rewrite <- not_true_iff_false, Less_spec. lia.
Qed.

(** Inserting into an ascending list keeps it ascending. *)
Lemma insertByLess_sorted (x : BlockNode) (l : list BlockNode) :
  StronglySorted (fun a b => Less b a = false) l ->
  StronglySorted (fun a b => Less b a = false) (insertByLess x l).
Proof.
  induction l as [|y l IH]; intros Hsorted; cbn [insertByLess].
  - repeat constructor.
  - apply StronglySorted_inv in Hsorted as [Hl Hy].
    destruct (Less y x) eqn:Hyx.
    + constructor; [by apply IH|].
      apply Forall_forall. intros z [->|Hz]%elem_of_insertByLess.
      * apply Less_spec in Hyx. apply Less_false. lia.
      * rewrite Forall_forall in Hy. by apply Hy.
    + constructor; [by constructor|].
      constructor.
      * apply Less_false in Hyx. apply Less_false. lia.
      * apply Forall_forall. intros z Hz. rewrite Forall_forall in Hy.
        specialize (Hy z Hz). apply Less_false in Hyx, Hy. apply Less_false. lia.
Qed.

Lemma sortByLess_sorted (l : list BlockNode) :
  StronglySorted (fun a b => Less b a = false) (sortByLess l).
Proof.
  induction l as [|x l IH]; cbn [sortByLess foldr]; [constructor|].
  by apply insertByLess_sorted.
Qed.

Lemma insertByLess_Permutation (x : BlockNode) (l : list BlockNode) :
  insertByLess x l ≡ₚ x :: l.
Proof.
  induction l as [|y l IH]; cbn [insertByLess]; [done|].
  destruct (Less y x); [|done]. rewrite IH. apply perm_swap.
Qed.

Lemma sortByLess_Permutation (l : list BlockNode) : sortByLess l ≡ₚ l.
Proof.
  induction l as [|x l IH]; cbn [sortByLess foldr]; [done|].
  rewrite insertByLess_Permutation. by constructor.
Qed.

End LessFacts.

Section GhostdagOrder.

Import Ghostdag.

Variable IsInPast : BlockNode -> option BlockNode -> result bool.
Variable K : N.

(** The blues that colouring appends are candidates, in candidate order. *)
Lemma colorCandidates_sublist candidates : forall n n',
  colorCandidates IsInPast K n candidates = Ok n' ->
  exists more, blues n' = blues n ++ more /\ more `sublist_of` candidates.
Proof.
  induction candidates as [|c rest IH]; intros n n' H.
  - inversion H. exists []. by rewrite app_nil_r.
  - rewrite colorCandidates_cons in H.
    destruct (walkChain _ _ _ _ _ _ _ _) as [scan| |]; [|done..].
    cbn [mbind result_bind] in H.
    destruct (possiblyBlue scan).
    + destruct (_ =? _).
      * inversion H. exists [c]. split; [done|].
        apply sublist_skip, sublist_nil_l.
      * apply IH in H as (more & Hmore & Hsub).
        exists (c :: more). rewrite Hmore, blues_addBlue, <- app_assoc.
        split; [done|]. by apply sublist_skip.
    + apply IH in H as (more & Hmore & Hsub).
      exists more. split; [done|]. by apply sublist_cons.
Qed.

End GhostdagOrder.

(** X6.  The anticone that [Run] returns is in ascending order of [Less]
    (no block is less than one before it), and the blues of the coloured
    node are its selected parent followed by blocks of that anticone, in
    that order: blues are considered, and recorded, lowest blue score
    first. *)
Lemma Run_blues_follow_sorted_anticone
    (IsInPast : Ghostdag.BlockNode -> option Ghostdag.BlockNode -> result bool)
    (K : N) (newNode coloured : Ghostdag.BlockNode)
    (anticone : list Ghostdag.BlockNode) :
  Ghostdag.Run IsInPast K newNode = Some (Ok (coloured, anticone)) ->
  StronglySorted (fun a b => Ghostdag.Less b a = false) anticone
  /\ exists sp more,
       Ghostdag.selectedParent coloured = Some sp
       /\ Ghostdag.blues coloured = sp :: more
       /\ more `sublist_of` anticone.
Proof.
  intros HRun.
  destruct (Run_Ok _ _ _ _ _ HRun)
    as (sp & start & found & last & _ & Hstart & _ & -> & Hcolor & ->).
  split; [apply sortByLess_sorted|].
  destruct (colorCandidates_extends _ _ _ _ _ Hcolor) as [Hsp _].
  destruct (colorCandidates_sublist _ _ _ _ _ Hcolor) as (more & Hmore & Hsub).
  rewrite Hstart in Hsp, Hmore. cbn in Hsp, Hmore.
  exists sp, more. by cbn.
Qed.

(** The block on both children of the genesis, with [K = 1]. *)
Lemma Run_blues_follow_sorted_anticone_witness :
  exists coloured anticone,
    Ghostdag.Run Ghostdag.pastOracle 1 Ghostdag.nodeC = Some (Ok (coloured, anticone))
    /\ StronglySorted (fun a b => Ghostdag.Less b a = false) anticone
    /\ exists sp more,
         Ghostdag.selectedParent coloured = Some sp
         /\ Ghostdag.blues coloured = sp :: more
         /\ more `sublist_of` anticone.
Proof.
  eexists _, _. split; [by vm_compute|].
  eapply (Run_blues_follow_sorted_anticone Ghostdag.pastOracle 1 Ghostdag.nodeC).
  by vm_compute.
Defined.

(** ** GHOSTDAG: the anticone search *)

Section AnticoneSearchFacts.

Import Ghostdag.

Variable IsInPast : BlockNode -> option BlockNode -> result bool.

(** What the search keeps true of its state for a node [node]: the slice
    holds no hash twice, every hash of the slice is in the set, and every
    block of the slice is a parent of [node] other than its selected
    parent, or a block the oracle put outside the past of the selected
    parent. *)
Lemma pushAnticone_keeps (node parent : BlockNode) (st : AnticoneSearch) :
  hash parent ∉ anticoneSet st ->
  NoDup (hash <$> anticoneSlice st) ->
  (forall c, c ∈ anticoneSlice st -> hash c ∈ anticoneSet st) ->
  NoDup (hash <$> anticoneSlice (pushAnticone parent st))
  /\ (forall c, c ∈ anticoneSlice (pushAnticone parent st) ->
                hash c ∈ anticoneSet (pushAnticone parent st)).
Proof.
  intros Hfresh Hnodup Hset. cbn [pushAnticone anticoneSlice anticoneSet]. split.
  - rewrite fmap_app. apply NoDup_app. split; [done|]. split.
    + intros h Hh ->%list_elem_of_singleton.
      apply list_elem_of_fmap in Hh as (c & Hc & Hin). apply Hfresh.
      rewrite Hc. by apply Hset.
    + apply NoDup_singleton.
  - intros c [Hc| ->%list_elem_of_singleton]%elem_of_app.
    + apply elem_of_union_r. by apply Hset.
    + apply elem_of_union_l. by apply elem_of_singleton.
Qed.

Lemma visitParents_keeps (node : BlockNode) (ps : list BlockNode) : forall st st',
  visitParents IsInPast node ps st = Ok st' ->
  NoDup (hash <$> anticoneSlice st) ->
  (forall c, c ∈ anticoneSlice st -> hash c ∈ anticoneSet st) ->
  NoDup (hash <$> anticoneSlice st')
  /\ (forall c, c ∈ anticoneSlice st' -> hash c ∈ anticoneSet st')
  /\ (forall c, c ∈ anticoneSlice st' ->
        c ∈ anticoneSlice st \/ IsInPast c (selectedParent node) = Ok false)
  /\ (forall c, c ∈ anticoneSlice st -> c ∈ anticoneSlice st').
Proof.
  induction ps as [|parent rest IH]; intros st st' Hvisit Hnodup Hset;
    cbn [visitParents] in Hvisit.
  - inversion Hvisit; subst. repeat split; try done. intros c Hc. by left.
  - destruct (bool_decide (hash parent ∈ anticoneSet st)
              || bool_decide (hash parent ∈ selectedParentPast st)) eqn:Hseen.
    { by apply IH. }
    apply orb_false_iff in Hseen as [Hfresh%bool_decide_eq_false _].
    destruct (IsInPast parent (selectedParent node)) as [[|]| |] eqn:Hpast;
      cbn [mbind result_bind] in Hvisit; try done.
    + by apply (IH (markPast parent st)).
    + destruct (pushAnticone_keeps node parent st Hfresh Hnodup Hset) as [Hnodup' Hset'].
      destruct (IH _ _ Hvisit Hnodup' Hset') as (H1 & H2 & H3 & H4).
      split; [done|]. split; [done|]. split.
      * intros c Hc. destruct (H3 c Hc) as [Hin|Hout]; [|by right].
        cbn [pushAnticone anticoneSlice] in Hin.
        apply elem_of_app in Hin as [Hin| ->%list_elem_of_singleton]; [by left | by right].
      * intros c Hc. apply H4. cbn [pushAnticone anticoneSlice].
        apply elem_of_app. by left.
Qed.

Lemma drainQueue_keeps (node : BlockNode) (fuel : nat) : forall st found,
  drainQueue IsInPast fuel node st = Some (Ok found) ->
  NoDup (hash <$> anticoneSlice st) ->
  (forall c, c ∈ anticoneSlice st -> hash c ∈ anticoneSet st) ->
  NoDup (hash <$> found)
  /\ (forall c, c ∈ found ->
        c ∈ anticoneSlice st \/ IsInPast c (selectedParent node) = Ok false)
  /\ (forall c, c ∈ anticoneSlice st -> c ∈ found).
Proof.
  induction fuel as [|fuel IH]; intros st found Hdrain Hnodup Hset;
    cbn [drainQueue] in Hdrain; destruct (queue st) as [|current q] eqn:Hq.
  - inversion Hdrain; subst. repeat split; try done. intros c Hc. by left.
  - done.
  - inversion Hdrain; subst. repeat split; try done. intros c Hc. by left.
  - destruct (visitParents _ _ _ _) as [st1| |] eqn:Hvisit; try done.
    destruct (visitParents_keeps _ _ _ _ Hvisit) as (H1 & H2 & H3 & H4); [done..|].
    destruct (IH _ _ Hdrain H1 H2) as (G1 & G2 & G3).
    split; [done|]. split.
    + intros c Hc. destruct (G2 c Hc) as [Hin|Hout]; [|by right].
      destruct (H3 c Hin) as [Hin'|Hout]; [by left | by right].
    + intros c Hc. apply G3, H4. done.
Qed.

(** The first loop files every parent but the selected parent. *)
Lemma queueParents_keeps (node : BlockNode) :
  NoDup (hash <$> parents node) ->
  NoDup (hash <$> anticoneSlice (queueParents node))
  /\ (forall c, c ∈ anticoneSlice (queueParents node) ->
                hash c ∈ anticoneSet (queueParents node))
  /\ (forall c, c ∈ anticoneSlice (queueParents node) <->
        c ∈ parents node /\ sameNodeOpt (Some c) (selectedParent node) = false).
Proof.
  unfold queueParents.
  enough (H : forall ps st,
             NoDup (hash <$> ps) ->
             NoDup (hash <$> anticoneSlice st) ->
             (forall c, c ∈ anticoneSlice st -> hash c ∈ anticoneSet st) ->
             (forall c, c ∈ ps -> hash c ∉ anticoneSet st) ->
             let st' := foldl (fun st parent =>
                                 if sameNodeOpt (Some parent) (selectedParent node) then st
                                 else pushAnticone parent st) st ps in
             NoDup (hash <$> anticoneSlice st')
             /\ (forall c, c ∈ anticoneSlice st' -> hash c ∈ anticoneSet st')
             /\ (forall c, c ∈ anticoneSlice st' <->
                   c ∈ anticoneSlice st
                   \/ (c ∈ ps /\ sameNodeOpt (Some c) (selectedParent node) = false))).
  { intros Hnodup.
    destruct (H (parents node)
                {| anticoneSet := ∅; anticoneSlice := [];
                   selectedParentPast := ∅; queue := [] |} Hnodup)
      as (H1 & H2 & H3); cbn [anticoneSlice anticoneSet].
    - constructor.
    - by intros c ?%elem_of_nil.
    - intros c _. apply not_elem_of_empty.
    - split; [done|]. split; [done|]. intros c. rewrite H3. cbn [anticoneSlice].
      split; [intros [?%elem_of_nil|?]; done | by right]. }
  induction ps as [|p ps IH]; intros st Hps Hnodup Hset Hfresh; cbn [foldl].
  - split; [done|]. split; [done|]. intros c. split; [by left|].
    intros [?|[?%elem_of_nil _]]; done.
  - rewrite fmap_cons in Hps. apply NoDup_cons in Hps as [Hp Hps].
    destruct (sameNodeOpt (Some p) (selectedParent node)) eqn:Hsp.
    + destruct (IH st Hps Hnodup Hset) as (H1 & H2 & H3).
      { intros c Hc. apply Hfresh. by right. }
      split; [done|]. split; [done|]. intros c. rewrite H3. split.
      * intros [?|[? ?]]; [by left|]. right. split; [by right | done].
      * intros [?|[[->|?]%elem_of_cons ?]]; [by left | congruence |]. by right.
    + destruct (pushAnticone_keeps node p st) as [Hnodup' Hset']; [|done..|].
      { apply Hfresh. by left. }
      destruct (IH (pushAnticone p st) Hps Hnodup' Hset') as (H1 & H2 & H3).
      { intros c Hc. cbn [pushAnticone anticoneSet].
        intros [Hin%elem_of_singleton|Hin]%elem_of_union.
        - apply Hp. rewrite <- Hin. apply list_elem_of_fmap. by exists c.
        - revert Hin. apply Hfresh. by right. }
      split; [done|]. split; [done|]. intros c. rewrite H3.
      cbn [pushAnticone anticoneSlice]. rewrite elem_of_app, list_elem_of_singleton.
      split.
      * intros [[?| ->]|[? ?]]; [by left | right; split; [by left | done] |].
        right. split; [by right | done].
      * intros [?|[[->|?]%elem_of_cons ?]]; [by left; left | by left; right |].
        right. by split.
Qed.

End AnticoneSearchFacts.

(** X7.  For a node whose parents carry distinct hashes,
    [selectedParentAnticone] returns no hash twice; it returns every parent
    other than the selected parent, and any other block it returns is one
    that the reachability oracle put outside the past of the selected
    parent. *)
Lemma selectedParentAnticone_distinct_outside_past
    (IsInPast : Ghostdag.BlockNode -> option Ghostdag.BlockNode -> result bool)
    (node : Ghostdag.BlockNode) (found : list Ghostdag.BlockNode) :
  NoDup (Ghostdag.hash <$> Ghostdag.parents node) ->
  Ghostdag.selectedParentAnticone IsInPast node = Some (Ok found) ->
  NoDup (Ghostdag.hash <$> found)
  /\ (forall p, p ∈ Ghostdag.parents node ->
        Ghostdag.sameNodeOpt (Some p) (Ghostdag.selectedParent node) = false ->
        p ∈ found)
  /\ (forall c, c ∈ found ->
        (c ∈ Ghostdag.parents node
         /\ Ghostdag.sameNodeOpt (Some c) (Ghostdag.selectedParent node) = false)
        \/ IsInPast c (Ghostdag.selectedParent node) = Ok false).
Proof.
  intros Hparents Hfound. unfold Ghostdag.selectedParentAnticone in Hfound.
  destruct (queueParents_keeps node Hparents) as (H1 & H2 & H3).
  destruct (drainQueue_keeps IsInPast _ _ _ _ Hfound H1 H2) as (G1 & G2 & G3).
  split; [done|]. split.
  - intros p Hp Hsp. apply G3, H3. by split.
  - intros c Hc. destruct (G2 c Hc) as [Hin|Hout]; [|by right].
    left. by apply H3.
Qed.

(** The block on both children of the genesis, the first of them its
    selected parent. *)
Lemma selectedParentAnticone_distinct_outside_past_witness :
  exists found,
    Ghostdag.selectedParentAnticone Ghostdag.pastOracle
      (Ghostdag.SetSelectedParent (Some Ghostdag.nodeA) Ghostdag.nodeC)
    = Some (Ok found)
    /\ NoDup (Ghostdag.hash <$> found)
    /\ (forall p, p ∈ Ghostdag.parents
                        (Ghostdag.SetSelectedParent (Some Ghostdag.nodeA) Ghostdag.nodeC) ->
          Ghostdag.sameNodeOpt (Some p)
            (Ghostdag.selectedParent
               (Ghostdag.SetSelectedParent (Some Ghostdag.nodeA) Ghostdag.nodeC)) = false ->
          p ∈ found)
    /\ (forall c, c ∈ found ->
          (c ∈ Ghostdag.parents
                 (Ghostdag.SetSelectedParent (Some Ghostdag.nodeA) Ghostdag.nodeC)
           /\ Ghostdag.sameNodeOpt (Some c)
                (Ghostdag.selectedParent
                   (Ghostdag.SetSelectedParent (Some Ghostdag.nodeA) Ghostdag.nodeC))
              = false)
          \/ Ghostdag.pastOracle c
               (Ghostdag.selectedParent
                  (Ghostdag.SetSelectedParent (Some Ghostdag.nodeA) Ghostdag.nodeC))
             = Ok false).
Proof.
  eexists. split; [by vm_compute|].
  apply selectedParentAnticone_distinct_outside_past.
  - refine (@bool_decide_unpack _ _ _). by vm_compute.
  - by vm_compute.
Defined.

(** ** The selected-parent chain of the virtual block *)

Section VirtualBlockFacts.

Import Ghostdag VirtualBlock.

Lemma selectedParentChain_unfold (n : BlockNode) :
  selectedParentChain n
  = match selectedParent n with
    | Some p => p :: selectedParentChain p
    | None => []
    end.
Proof. by destruct n. Qed.





End VirtualBlockFacts.

Section VirtualBlockChain.

Import Ghostdag VirtualBlock.

(** What follows a node on a chain is the chain of that node. *)
Lemma chain_after (added : list BlockNode) : forall (n i : BlockNode) (rest : list BlockNode),
  n :: selectedParentChain n = added ++ i :: rest ->
  rest = selectedParentChain i.
Proof.
  induction added as [|a added IH]; intros n i rest Hchain; cbn [app] in Hchain.
  - by inversion Hchain.
  - injection Hchain as _ Hchain. rewrite selectedParentChain_unfold in Hchain.
    destruct (selectedParent n) as [p|]; [by apply (IH p)|].
    by destruct added.
Qed.


End VirtualBlockChain.



(** ** The block index: keys, ancestors by blue score *)

Section BlockIndexKeyFacts.

Import BlockIndex.

Lemma length_bigEndian (n : nat) (v : N) : length (bigEndian n v) = n.
Proof. induction n as [|n IH]; cbn [bigEndian length]; [done|]. by rewrite IH. Qed.

(** The key is the eight bytes of the blue score and then the hash. *)
Lemma BlockIndexKey_bytes (blockHash : list N) (blueScore : N) :
  length blockHash = HashSize ->
  BlockIndexKey blockHash blueScore = bigEndian 8 blueScore ++ blockHash.
Proof.
  intros Hlen. unfold BlockIndexKey, copyBytes.
  rewrite take_app_length' by (by rewrite length_bigEndian).
  rewrite drop_app_length' by (by rewrite length_bigEndian).
  rewrite length_drop, length_replicate, Hlen. f_equal.
  rewrite drop_ge by (rewrite length_drop, length_replicate; unfold HashSize; lia).
  rewrite app_nil_r. apply take_ge. rewrite Hlen. unfold HashSize. lia.
Qed.

Lemma pow256_pos (n : nat) : 0 < 256 ^ N.of_nat n.
Proof. apply N.neq_0_lt_0, N.pow_nonzero. lia. Qed.

Lemma mod_pow256_succ (n : nat) (v : N) :
  v mod 256 ^ N.of_nat (S n)
  = v mod 256 ^ N.of_nat n + 256 ^ N.of_nat n * ((v / 256 ^ N.of_nat n) mod 256).
Proof.
  rewrite Nat2N.inj_succ, N.pow_succ_r', (N.mul_comm 256).
  apply N.Div0.mod_mul_r.
Qed.

(** Bytewise order of the encodings is the order of the numbers. *)
Lemma bytesLess_bigEndian (n : nat) (v w : N) :
  bytesLess (bigEndian n v) (bigEndian n w) = true
  <-> v mod 256 ^ N.of_nat n < w mod 256 ^ N.of_nat n.
Proof.
  induction n as [|n IH]; cbn [bigEndian bytesLess].
  - cbn. rewrite !N.mod_1_r. split; [done | lia].
  - rewrite !mod_pow256_succ.
    pose proof (pow256_pos n) as Hpos.
    pose proof (N.mod_upper_bound v _ (N.neq_sym _ _ (N.lt_neq _ _ Hpos))) as Hv.
    pose proof (N.mod_upper_bound w _ (N.neq_sym _ _ (N.lt_neq _ _ Hpos))) as Hw.
    set (b := bytesLess (bigEndian n v) (bigEndian n w)) in *. clearbody b.
    set (d := (v / 256 ^ N.of_nat n) mod 256). clearbody d.
    set (e := (w / 256 ^ N.of_nat n) mod 256). clearbody e.
    set (r := v mod 256 ^ N.of_nat n) in *. clearbody r.
    set (s := w mod 256 ^ N.of_nat n) in *. clearbody s.
    set (p := 256 ^ N.of_nat n) in *. clearbody p.
    rewrite orb_true_iff, andb_true_iff, N.ltb_lt, N.eqb_eq, IH. split.
    + intros [Hlt|[-> ?]]; [|lia].
      assert (Hmul : p * (d + 1) <= p * e) by (apply N.mul_le_mono_l; lia).
      rewrite N.mul_add_distr_l, N.mul_1_r in Hmul. lia.
    + intros Hlt. destruct (N.lt_trichotomy d e) as [?|[->|Hgt]]; [by left | right; lia |].
      assert (Hmul : p * (e + 1) <= p * d) by (apply N.mul_le_mono_l; lia).
      rewrite N.mul_add_distr_l, N.mul_1_r in Hmul. lia.
Qed.

Lemma bigEndian_inj (n : nat) (v w : N) :
  bigEndian n v = bigEndian n w -> v mod 256 ^ N.of_nat n = w mod 256 ^ N.of_nat n.
Proof.
  induction n as [|n IH]; cbn [bigEndian].
  - intros _. cbn. by rewrite !N.mod_1_r.
  - intros Heq. injection Heq as Hd Hrest. rewrite !mod_pow256_succ.
    by rewrite (IH Hrest), Hd.
Qed.

Lemma bytesLess_irrefl (a : list N) : bytesLess a a = false.
Proof.
  induction a as [|x a IH]; cbn [bytesLess]; [done|].
  rewrite IH, N.ltb_irrefl. by rewrite andb_false_r.
Qed.

Lemma bytesLess_app (a : list N) : forall b x y,
  length a = length b ->
  bytesLess (a ++ x) (b ++ y) = true
  <-> bytesLess a b = true \/ (a = b /\ bytesLess x y = true).
Proof.
  induction a as [|c a IH]; intros [|d b] x y Hlen; try done; cbn [app bytesLess].
  - split; [by right | by intros [?|[_ ?]]].
  - injection Hlen as Hlen. specialize (IH b x y Hlen).
    rewrite !orb_true_iff, !andb_true_iff, N.ltb_lt, N.eqb_eq, IH.
    split.
    + intros [?|[-> [?|[-> ?]]]]; [by left; left | by left; right | by right].
    + intros [[?|[-> ?]]|[Heq ?]]; [by left | right; split; [done | by left] |].
      injection Heq as -> ->. right. split; [done|]. by right.
Qed.

End BlockIndexKeyFacts.

(** X9.  The hash is read back from the key that [BlockIndexKey] builds
    for it, and the key has [HashSize + 8] bytes. *)
Lemma blockHashFromBlockIndexKey_BlockIndexKey (blockHash : list N) (blueScore : N) :
  length blockHash = BlockIndex.HashSize ->
  length (BlockIndex.BlockIndexKey blockHash blueScore) = (BlockIndex.HashSize + 8)%nat
  /\ BlockIndex.blockHashFromBlockIndexKey (BlockIndex.BlockIndexKey blockHash blueScore)
     = Ok blockHash.
Proof.
  intros Hlen. rewrite BlockIndexKey_bytes by done.
  assert (Hkey : length (BlockIndex.bigEndian 8 blueScore ++ blockHash)
                 = (BlockIndex.HashSize + 8)%nat).
  { rewrite length_app, length_bigEndian, Hlen. lia. }
  split; [done|]. unfold BlockIndex.blockHashFromBlockIndexKey.
  rewrite Hkey, decide_False by lia.
  rewrite drop_app_length' by (by rewrite length_bigEndian).
  f_equal. apply take_ge. lia.
Qed.

(** The key of a hash of 32 bytes at blue score 258. *)
Lemma blockHashFromBlockIndexKey_BlockIndexKey_witness :
  length (BlockIndex.BlockIndexKey (N.of_nat <$> seq 0 32) 258)
  = (BlockIndex.HashSize + 8)%nat
  /\ BlockIndex.blockHashFromBlockIndexKey
       (BlockIndex.BlockIndexKey (N.of_nat <$> seq 0 32) 258)
     = Ok (N.of_nat <$> seq 0 32).
Proof.
  apply blockHashFromBlockIndexKey_BlockIndexKey. by vm_compute.
Defined.

(** X10.  Keys are ordered bytewise as their blocks are ordered by blue
    score, and by the bytes of the hash among blocks of one blue score: a
    cursor over the block index visits blocks in blue-score order. *)
Lemma BlockIndexKey_order (hash1 hash2 : list N) (blueScore1 blueScore2 : N) :
  length hash1 = BlockIndex.HashSize ->
  length hash2 = BlockIndex.HashSize ->
  blueScore1 < 2 ^ 64 ->
  blueScore2 < 2 ^ 64 ->
  BlockIndex.bytesLess (BlockIndex.BlockIndexKey hash1 blueScore1)
                       (BlockIndex.BlockIndexKey hash2 blueScore2) = true
  <-> blueScore1 < blueScore2
      \/ (blueScore1 = blueScore2 /\ BlockIndex.bytesLess hash1 hash2 = true).
Proof.
  intros Hlen1 Hlen2 Hs1 Hs2. rewrite !BlockIndexKey_bytes by done.
  rewrite bytesLess_app by (by rewrite !length_bigEndian).
  rewrite bytesLess_bigEndian.
  change (256 ^ N.of_nat 8) with (2 ^ 64). rewrite !N.mod_small by done.
  split.
  - intros [?|[Heq ?]]; [by left|]. right. split; [|done].
    apply bigEndian_inj in Heq. change (256 ^ N.of_nat 8) with (2 ^ 64) in Heq.
    by rewrite !N.mod_small in Heq.
  - intros [?|[-> ?]]; [by left | by right].
Qed.

(** Blue scores 255 and 256: the second key comes later although its last
    score byte is smaller. *)
Lemma BlockIndexKey_order_witness :
  BlockIndex.bytesLess (BlockIndex.BlockIndexKey (replicate 32 9) 255)
                       (BlockIndex.BlockIndexKey (replicate 32 1) 256) = true
  <-> 255 < 256
      \/ (255 = 256 /\ BlockIndex.bytesLess (replicate 32 9) (replicate 32 1) = true).
Proof.
  apply BlockIndexKey_order; by vm_compute.
Defined.

Section SelectedAncestorFacts.

Import Ghostdag BlockIndex.

Lemma walkToBlueScore_unfold (n : BlockNode) (blueScore' : N) :
  walkToBlueScore n blueScore'
  = if blueScore' <? blueScore n then
      match selectedParent n with
      | Some p => walkToBlueScore p blueScore'
      | None => None
      end
    else Some n.
Proof. by destruct n. Qed.

(** The walk stops at the first node of the chain whose blue score does not
    exceed the requested one, and ends in nil if there is none. *)
Lemma walkToBlueScore_first (len : nat) : forall (n : BlockNode) (blueScore' : N),
  length (selectedParentChain n) = len ->
  match walkToBlueScore n blueScore' with
  | Some a =>
      blueScore a <= blueScore'
      /\ exists before,
           n :: selectedParentChain n = before ++ a :: selectedParentChain a
           /\ Forall (fun b => blueScore' < blueScore b) before
  | None => Forall (fun b => blueScore' < blueScore b) (n :: selectedParentChain n)
  end.
Proof.
  induction len as [|len IH]; intros n blueScore' Hlen;
    rewrite walkToBlueScore_unfold;
    destruct (N.ltb_spec blueScore' (blueScore n)) as [Hgt|Hle];
    try (split; [done|]; by exists []).
  - apply nil_length_inv in Hlen. rewrite Hlen.
    rewrite selectedParentChain_unfold in Hlen.
    destruct (selectedParent n); [done|]. by repeat constructor.
  - rewrite selectedParentChain_unfold in Hlen |- *.
    destruct (selectedParent n) as [p|]; [|done].
    injection Hlen as Hlen. specialize (IH p blueScore' Hlen).
    destruct (walkToBlueScore p blueScore') as [a|].
    + destruct IH as (Ha & before & Hbefore & Hall). split; [done|].
      exists (n :: before). cbn [app]. rewrite Hbefore. split; [done|]. by constructor.
    + by constructor.
Qed.

End SelectedAncestorFacts.

(** X11.  [SelectedAncestor] returns nil for a blue score above the
    node's.  Otherwise it returns the first node, from the node up its
    selected-parent chain, whose blue score does not exceed the requested
    one (every node before it on the chain has a higher blue score), and
    nil when the chain has no such node. *)
Lemma SelectedAncestor_first_not_above (node : Ghostdag.BlockNode) (blueScore : N) :
  match BlockIndex.SelectedAncestor node blueScore with
  | Some a =>
      Ghostdag.blueScore a <= blueScore <= Ghostdag.blueScore node
      /\ exists before,
           node :: Ghostdag.selectedParentChain node
           = before ++ a :: Ghostdag.selectedParentChain a
           /\ Forall (fun b => blueScore < Ghostdag.blueScore b) before
  | None =>
      Ghostdag.blueScore node < blueScore
      \/ Forall (fun b => blueScore < Ghostdag.blueScore b)
                (node :: Ghostdag.selectedParentChain node)
  end.
Proof.
  unfold BlockIndex.SelectedAncestor.
  destruct (N.ltb_spec (Ghostdag.blueScore node) blueScore) as [Hlt|Hle]; [by left|].
  pose proof (walkToBlueScore_first _ node blueScore eq_refl) as Hwalk.
  destruct (BlockIndex.walkToBlueScore node blueScore) as [a|]; [|by right].
  destruct Hwalk as [Ha Hbefore]. split; [lia | done].
Qed.

(** X12.  [RelativeAncestor] subtracts in 64 bits.  A distance that does
    not exceed the blue score of the node gives [SelectedAncestor] at the
    difference, and distance 0 gives the node itself; a larger distance
    wraps around to a blue score above the node's, and the result is
    nil. *)
Lemma RelativeAncestor_distance (node : Ghostdag.BlockNode) (distance : N) :
  Ghostdag.blueScore node < 2 ^ 64 ->
  distance < 2 ^ 64 ->
  (distance <= Ghostdag.blueScore node ->
   BlockIndex.RelativeAncestor node distance
   = BlockIndex.SelectedAncestor node (Ghostdag.blueScore node - distance))
  /\ (distance = 0 -> BlockIndex.RelativeAncestor node distance = Some node)
  /\ (Ghostdag.blueScore node < distance ->
      BlockIndex.RelativeAncestor node distance = None).
Proof.
  intros Hscore Hdistance. unfold BlockIndex.RelativeAncestor, BlockIndex.sub64.
  rewrite (N.mod_small distance) by done.
  split; [|split].
  - intros Hle.
    replace (Ghostdag.blueScore node + 2 ^ 64 - distance)
      with (Ghostdag.blueScore node - distance + 1 * 2 ^ 64) by lia.
    rewrite N.Div0.mod_add. by rewrite N.mod_small by lia.
  - intros ->. rewrite N.sub_0_r.
    replace (Ghostdag.blueScore node + 2 ^ 64)
      with (Ghostdag.blueScore node + 1 * 2 ^ 64) by lia.
    rewrite N.Div0.mod_add, N.mod_small by done.
    unfold BlockIndex.SelectedAncestor. rewrite N.ltb_irrefl.
    rewrite walkToBlueScore_unfold. by rewrite N.ltb_irrefl.
  - intros Hgt. rewrite N.mod_small by lia.
    unfold BlockIndex.SelectedAncestor.
    destruct (N.ltb_spec (Ghostdag.blueScore node)
                (Ghostdag.blueScore node + 2 ^ 64 - distance)); [done|lia].
Qed.

(** The block [nodeE], of blue score 3. *)
Lemma RelativeAncestor_distance_witness :
  (2 <= Ghostdag.blueScore Ghostdag.nodeE ->
   BlockIndex.RelativeAncestor Ghostdag.nodeE 2
   = BlockIndex.SelectedAncestor Ghostdag.nodeE (Ghostdag.blueScore Ghostdag.nodeE - 2))
  /\ (2 = 0 -> BlockIndex.RelativeAncestor Ghostdag.nodeE 2 = Some Ghostdag.nodeE)
  /\ (Ghostdag.blueScore Ghostdag.nodeE < 2 ->
      BlockIndex.RelativeAncestor Ghostdag.nodeE 2 = None).
Proof.
  apply RelativeAncestor_distance; by vm_compute.
Defined.

(** ** Gas limits and double spends *)

Section GasFacts.

Import Validation.

Variable isNativeOrBuiltIn : SubnetworkID -> bool.
Variable GasLimit : SubnetworkID -> result N.

(** Within one subnetwork the loop accepts exactly while the running total
    stays within the limit; an overflow of the 64-bit total is caught. *)
Lemma validateGasLimitFrom_one_subnetwork (subnetwork : SubnetworkID) (limit : N)
    (transactions : list MsgTx) : forall usage,
  limit < 2 ^ 64 ->
  usage <= limit ->
  Forall (fun msgTx => Gas msgTx < 2 ^ 64
                       /\ (isNativeOrBuiltIn (TxSubnetworkID msgTx) = false ->
                           TxSubnetworkID msgTx = subnetwork)) transactions ->
  validateGasLimitFrom isNativeOrBuiltIn GasLimit transactions
    {| currentSubnetworkID := Some subnetwork; currentSubnetworkGasLimit := limit;
       currentGasUsage := usage |}
  = if usage + gasUsed isNativeOrBuiltIn transactions <=? limit then Ok ()
    else Err (RuleError ErrInvalidGas).
Proof.
  induction transactions as [|msgTx rest IH]; intros usage Hlimit Husage Hall;
    cbn [validateGasLimitFrom gasUsed foldr].
  - rewrite N.add_0_r. by destruct (N.leb_spec usage limit); [|lia].
  - apply Forall_cons in Hall as [[Hgas Hsub] Hall]. fold (gasUsed isNativeOrBuiltIn rest).
    destruct (isNativeOrBuiltIn (TxSubnetworkID msgTx)) eqn:Hexempt; [by apply IH|].
    rewrite (Hsub eq_refl). cbn [currentSubnetworkID].
    rewrite bool_decide_eq_true_2 by done.
    cbn [mbind result_bind currentGasUsage currentSubnetworkGasLimit currentSubnetworkID].
    unfold Ghostdag.wrap64.
    destruct (N.lt_ge_cases (usage + Gas msgTx) (2 ^ 64)) as [Hfits|Hover].
    + rewrite (N.mod_small _ _ Hfits).
      destruct (N.ltb_spec (usage + Gas msgTx) usage) as [?|_]; [lia|].
      destruct (N.ltb_spec limit (usage + Gas msgTx)) as [Hmore|Hless].
      * by destruct (N.leb_spec (usage + (Gas msgTx + gasUsed isNativeOrBuiltIn rest)) limit);
          [lia|].
      * rewrite (IH (usage + Gas msgTx) Hlimit Hless Hall). by rewrite N.add_assoc.
    + assert (Hwrap : (usage + Gas msgTx) mod 2 ^ 64 = usage + Gas msgTx - 2 ^ 64).
      { replace (usage + Gas msgTx) with (usage + Gas msgTx - 2 ^ 64 + 1 * 2 ^ 64) at 1
          by lia.
        rewrite N.Div0.mod_add. apply N.mod_small. lia. }
      rewrite Hwrap.
      destruct (N.ltb_spec (usage + Gas msgTx - 2 ^ 64) usage) as [_|?]; [|lia].
      by destruct (N.leb_spec (usage + (Gas msgTx + gasUsed isNativeOrBuiltIn rest)) limit);
        [lia|].
Qed.

End GasFacts.

(** X13.  For a block whose checked transactions (those outside the native
    and built-in subnetworks) all belong to one subnetwork with a stored
    gas limit, [validateGasLimit] accepts exactly when their gas adds up to
    at most the limit, and rejects with an InvalidGas rule error
    otherwise, also when the sum does not fit in 64 bits. *)
Lemma validateGasLimit_one_subnetwork
    (isNativeOrBuiltIn : Validation.SubnetworkID -> bool)
    (GasLimit : Validation.SubnetworkID -> result N)
    (subnetwork : Validation.SubnetworkID) (limit : N)
    (transactions : list Validation.MsgTx) :
  GasLimit subnetwork = Ok limit ->
  limit < 2 ^ 64 ->
  Forall (fun msgTx => Validation.Gas msgTx < 2 ^ 64
                       /\ (isNativeOrBuiltIn (Validation.TxSubnetworkID msgTx) = false ->
                           Validation.TxSubnetworkID msgTx = subnetwork)) transactions ->
  Validation.validateGasLimit isNativeOrBuiltIn GasLimit transactions
  = if Validation.gasUsed isNativeOrBuiltIn transactions <=? limit then Ok ()
    else Err (RuleError ErrInvalidGas).
Proof.
  intros Hstored Hlimit Hall. unfold Validation.validateGasLimit.
  induction transactions as [|msgTx rest IH];
    cbn [Validation.validateGasLimitFrom Validation.gasUsed foldr].
  - by destruct (N.leb_spec 0 limit); [|lia].
  - apply Forall_cons in Hall as [[Hgas Hsub] Hall].
    fold (Validation.gasUsed isNativeOrBuiltIn rest).
    destruct (isNativeOrBuiltIn (Validation.TxSubnetworkID msgTx)) eqn:Hexempt;
      [by apply IH|].
    rewrite (Hsub eq_refl). cbn [Validation.currentSubnetworkID].
    rewrite bool_decide_eq_false_2 by done. rewrite Hstored.
    pose proof (validateGasLimitFrom_one_subnetwork isNativeOrBuiltIn GasLimit
                  subnetwork limit (msgTx :: rest) 0 Hlimit (N.le_0_l _)) as Hfrom.
    cbn [Validation.validateGasLimitFrom Validation.gasUsed foldr] in Hfrom.
    fold (Validation.gasUsed isNativeOrBuiltIn rest) in Hfrom.
    rewrite Hexempt, (Hsub eq_refl) in Hfrom. cbn [Validation.currentSubnetworkID] in Hfrom.
    rewrite bool_decide_eq_true_2 in Hfrom by done.
    rewrite N.add_0_l in Hfrom. apply Hfrom.
    constructor; [|done]. split; [done|]. intros _. by apply Hsub.
Qed.

(** Two transactions of subnetwork 7, whose gas adds up to 2^64 + 1, and a
    native one between them. *)
Lemma validateGasLimit_one_subnetwork_witness :
  Validation.validateGasLimit (fun id => id =? 0) (fun _ => Ok 1000)
    [{| Validation.TxSubnetworkID := 7; Validation.Gas := 2 ^ 64 - 1 |};
     {| Validation.TxSubnetworkID := 0; Validation.Gas := 0 |};
     {| Validation.TxSubnetworkID := 7; Validation.Gas := 2 |}]
  = if Validation.gasUsed (fun id => id =? 0)
         [{| Validation.TxSubnetworkID := 7; Validation.Gas := 2 ^ 64 - 1 |};
          {| Validation.TxSubnetworkID := 0; Validation.Gas := 0 |};
          {| Validation.TxSubnetworkID := 7; Validation.Gas := 2 |}] <=? 1000
    then Ok () else Err (RuleError ErrInvalidGas).
Proof.
  apply (validateGasLimit_one_subnetwork _ _ 7).
  - done.
  - by vm_compute.
  - repeat constructor; by vm_compute.
Defined.

(** X14.  [checkDoubleSpendsWithBlockPast] accepts exactly when every input
    of every transaction other than a coinbase refers to an output of the
    given set; otherwise it rejects with a MissingTxOut rule error. *)
Lemma checkDoubleSpendsWithBlockPast_iff (pastUTXO : UTXO.UTXOSet)
    (blockTransactions : list UTXO.Tx) :
  (Validation.checkDoubleSpendsWithBlockPast pastUTXO blockTransactions = Ok ()
   <-> forall tx, tx ∈ blockTransactions -> UTXO.IsCoinBase tx = false ->
         forall outpoint, outpoint ∈ UTXO.TxIn tx -> is_Some (pastUTXO !! outpoint))
  /\ (Validation.checkDoubleSpendsWithBlockPast pastUTXO blockTransactions = Ok ()
      \/ Validation.checkDoubleSpendsWithBlockPast pastUTXO blockTransactions
         = Err (RuleError ErrMissingTxOut)).
Proof.
  assert (Hinputs : forall inputs,
            (Validation.checkInputs pastUTXO inputs = Ok ()
             <-> forall outpoint, outpoint ∈ inputs -> is_Some (pastUTXO !! outpoint))
            /\ (Validation.checkInputs pastUTXO inputs = Ok ()
                \/ Validation.checkInputs pastUTXO inputs = Err (RuleError ErrMissingTxOut))).
  { induction inputs as [|outpoint rest [IH1 IH2]]; cbn [Validation.checkInputs].
    - split; [|by left]. split; [|done]. by intros _ o ?%elem_of_nil.
    - destruct (pastUTXO !! outpoint) as [entry|] eqn:Hlook.
      + split; [|done]. rewrite IH1. split.
        * intros Hrest o [->|?]%elem_of_cons; [by rewrite Hlook | by apply Hrest].
        * intros Hall o Ho. apply Hall. by right.
      + split; [|by right]. split; [done|]. intros Hall.
        destruct (Hall outpoint) as [? Hsome]; [by left|]. congruence. }
  induction blockTransactions as [|tx rest [IH1 IH2]];
    cbn [Validation.checkDoubleSpendsWithBlockPast].
  - split; [|by left]. split; [|done]. by intros _ tx ?%elem_of_nil.
  - destruct (UTXO.IsCoinBase tx) eqn:Hcoinbase.
    + split; [|done]. rewrite IH1. split.
      * intros Hrest tx' [->|?]%elem_of_cons; [congruence | by apply Hrest].
      * intros Hall tx' Htx'. apply Hall. by right.
    + destruct (Hinputs (UTXO.TxIn tx)) as [Hin1 Hin2].
      destruct (Validation.checkInputs pastUTXO (UTXO.TxIn tx)) as [[]| |] eqn:Hcheck;
        cbn [mbind result_bind].
      * split; [|done]. rewrite IH1. split.
        -- intros Hrest tx' [->|?]%elem_of_cons; [intros _; by apply Hin1 | by apply Hrest].
        -- intros Hall tx' Htx'. apply Hall. by right.
      * destruct Hin2 as [?|Herr]; [done|]. split; [|right; congruence].
        split; [done|]. intros Hall.
        assert (Hok : Err e = Ok ()); [|done].
        apply Hin1. apply Hall; [by left | done].
      * by destruct Hin2.
Qed.

(** ** The notification manager *)

Section NotificationFacts.

Import WalletNotification.

Variable closed : Router -> bool.







End NotificationFacts.



Section AddressNotificationFacts.

Import WalletNotification.

(** X16.  When no outgoing route is closed, [NotifyUTXOOfAddressChanged]
    returns without error, leaves the listeners as they are and sends each
    visited listener that propagates such notifications at most one
    message: the changed addresses it subscribed to, in the order of the
    notification, and nothing when it subscribed to none of them.  Every
    other route is left alone. *)
Lemma NotifyUTXOOfAddressChanged_sends_subscribed (closed : Router -> bool)
    (changedAddresses : list string) (order : list Router) : forall nm,
  (forall router, router ∈ order -> closed router = false) ->
  NoDup order ->
  exists nm',
    NotifyUTXOOfAddressChanged closed changedAddresses order nm = (nm', Ok ())
    /\ listeners nm' = listeners nm
    /\ forall router,
         outgoing nm' !! router
         = match listeners nm !! router with
           | Some listener =>
               if bool_decide (router ∈ order)
                  && propagateUTXOOfAddressChangedNotifications listener
               then
                 match filter (fun address => address ∈ subscribedAddresses listener)
                              changedAddresses with
                 | [] => outgoing nm !! router
                 | addresses =>
                     Some (default [] (outgoing nm !! router)
                           ++ [UTXOOfAddressChangedNotificationMessage addresses])
                 end
               else outgoing nm !! router
           | None => outgoing nm !! router
           end.
Proof.
  induction order as [|r rest IH]; intros nm Hopen Hnodup.
  - exists nm. split; [done|]. split; [done|]. intros router.
    destruct (listeners nm !! router); [|done].
    by rewrite bool_decide_eq_false_2 by (by intros ?%elem_of_nil).
  - apply NoDup_cons in Hnodup as [Hr Hnodup].
    assert (Hopen' : forall router, router ∈ rest -> closed router = false).
    { intros router Hin. apply Hopen. by right. }
    cbn [NotifyUTXOOfAddressChanged].
    assert (Hskip : (forall listener, listeners nm !! r = Some listener ->
                       propagateUTXOOfAddressChangedNotifications listener = true ->
                       filter (fun address => address ∈ subscribedAddresses listener)
                              changedAddresses = []) ->
              exists nm',
                NotifyUTXOOfAddressChanged closed changedAddresses rest nm = (nm', Ok ())
                /\ listeners nm' = listeners nm
                /\ forall router,
                     outgoing nm' !! router
                     = match listeners nm !! router with
                       | Some listener =>
                           if bool_decide (router ∈ r :: rest)
                              && propagateUTXOOfAddressChangedNotifications listener
                           then
                             match filter (fun address =>
                                             address ∈ subscribedAddresses listener)
                                          changedAddresses with
                             | [] => outgoing nm !! router
                             | addresses =>
                                 Some (default [] (outgoing nm !! router)
                                       ++ [UTXOOfAddressChangedNotificationMessage
                                             addresses])
                             end
                           else outgoing nm !! router
                       | None => outgoing nm !! router
                       end).
    { intros Hidle. destruct (IH nm Hopen' Hnodup) as (nm' & Hcall & Hsame & Hroutes).
      exists nm'. split; [done|]. split; [done|]. intros router. rewrite Hroutes.
      destruct (listeners nm !! router) as [listener|] eqn:Hlook; [|done].
      destruct (decide (router = r)) as [->|Hne].
      - rewrite (bool_decide_eq_false_2 (r ∈ rest)) by done.
        rewrite (bool_decide_eq_true_2 (r ∈ r :: rest)) by (by left).
        cbn [andb].
        destruct (propagateUTXOOfAddressChangedNotifications listener) eqn:Hflag; [|done].
        by rewrite (Hidle listener).
      - destruct (bool_decide (router ∈ rest)) eqn:Hin.
        + apply bool_decide_eq_true in Hin.
          by rewrite (bool_decide_eq_true_2 (router ∈ r :: rest)) by (by right).
        + apply bool_decide_eq_false in Hin.
          rewrite (bool_decide_eq_false_2 (router ∈ r :: rest)); [done|].
          by intros [?|?]%elem_of_cons. }
    destruct (listeners nm !! r) as [listener|] eqn:Hlook; [|by apply Hskip].
    destruct (propagateUTXOOfAddressChangedNotifications listener) eqn:Hflag;
      [|apply Hskip; intros ? [= <-]; congruence].
    destruct (filter (fun address => address ∈ subscribedAddresses listener)
                     changedAddresses) as [|address addresses] eqn:Hfilter.
    { cbn [length]. rewrite bool_decide_eq_false_2 by lia.
      apply Hskip. by intros ? [= <-]. }
    cbn [length]. rewrite bool_decide_eq_true_2 by lia.
    unfold Enqueue. rewrite (Hopen r) by (by left).
    set (nm1 := {| listeners := listeners nm;
                   outgoing := <[r := default [] (outgoing nm !! r)
                                       ++ [UTXOOfAddressChangedNotificationMessage
                                             (address :: addresses)]]> (outgoing nm) |}).
    destruct (IH nm1 Hopen' Hnodup) as (nm' & Hcall & Hsame & Hroutes).
    exists nm'. split; [done|]. split; [done|]. intros router. rewrite Hroutes.
    cbn [nm1 listeners outgoing].
    destruct (decide (router = r)) as [->|Hne].
    + rewrite Hlook, lookup_insert_eq.
      rewrite (bool_decide_eq_false_2 (r ∈ rest)) by done.
      rewrite (bool_decide_eq_true_2 (r ∈ r :: rest)) by (by left).
      cbn [andb]. by rewrite Hflag, Hfilter.
    + rewrite lookup_insert_ne by done.
      destruct (listeners nm !! router) as [listener'|]; [|done].
      destruct (bool_decide (router ∈ rest)) eqn:Hin.
      * apply bool_decide_eq_true in Hin.
        by rewrite (bool_decide_eq_true_2 (router ∈ r :: rest)) by (by right).
      * apply bool_decide_eq_false in Hin.
        rewrite (bool_decide_eq_false_2 (router ∈ r :: rest)); [done|].
        by intros [?|?]%elem_of_cons.
Qed.

End AddressNotificationFacts.

(** A listener subscribed to two addresses, of which one changes, and a
    listener that did not subscribe. *)
Lemma NotifyUTXOOfAddressChanged_sends_subscribed_witness :
  exists nm',
    WalletNotification.NotifyUTXOOfAddressChanged (fun _ => false)
      ["kaspa:a"; "kaspa:b"] [1; 2] WalletNotification.twoListeners = (nm', Ok ())
    /\ WalletNotification.listeners nm'
       = WalletNotification.listeners WalletNotification.twoListeners
    /\ forall router,
         WalletNotification.outgoing nm' !! router
         = match WalletNotification.listeners WalletNotification.twoListeners !! router with
           | Some listener =>
               if bool_decide (router ∈ [1; 2])
                  && WalletNotification.propagateUTXOOfAddressChangedNotifications listener
               then
                 match filter (fun address =>
                                 address ∈ WalletNotification.subscribedAddresses listener)
                              ["kaspa:a"; "kaspa:b"] with
                 | [] => WalletNotification.outgoing WalletNotification.twoListeners !! router
                 | addresses =>
                     Some (default []
                             (WalletNotification.outgoing WalletNotification.twoListeners
                                !! router)
                           ++ [WalletNotification.UTXOOfAddressChangedNotificationMessage
                                 addresses])
                 end
               else WalletNotification.outgoing WalletNotification.twoListeners !! router
           | None => WalletNotification.outgoing WalletNotification.twoListeners !! router
           end.
Proof.
  apply NotifyUTXOOfAddressChanged_sends_subscribed.
  - done.
  - refine (@bool_decide_unpack _ _ _). by vm_compute.
Defined.

Section QuietListenerFacts.

Import WalletNotification.

Variable closed : Router -> bool.

(** A listener whose flag is off is sent nothing. *)
Lemma notifyListeners_flag_off (flag : Listener -> bool) (notification : Message)
    (order : list Router) (router : Router) : forall nm,
  (forall listener, listeners nm !! router = Some listener -> flag listener = false) ->
  outgoing (notifyListeners closed flag notification order nm).1 !! router
  = outgoing nm !! router.
Proof.
  induction order as [|r rest IH]; intros nm Hoff; cbn [notifyListeners]; [done|].
  destruct (listeners nm !! r) as [listener|] eqn:Hlook; [|by apply IH].
  destruct (flag listener) eqn:Hflag; [|by apply IH].
  unfold Enqueue. destruct (closed r); [done|].
  rewrite IH by done. cbn [outgoing]. apply lookup_insert_ne.
  intros ->. specialize (Hoff listener Hlook). congruence.
Qed.

Lemma NotifyTransactionAdded_flag_off (transactions : list TxHash) (order : list Router)
    (router : Router) : forall nm,
  (forall listener, listeners nm !! router = Some listener ->
                    propagateTransactionAddedNotifications listener = false) ->
  outgoing (NotifyTransactionAdded closed transactions order nm).1 !! router
  = outgoing nm !! router.
Proof.
  assert (Hone : forall r txs subscribed routes,
            r <> router ->
            (notifyTransactions closed r txs subscribed routes).1.2 !! router
            = routes !! router).
  { intros r txs. induction txs as [|tx txs IH]; intros subscribed routes Hne;
      cbn [notifyTransactions]; [done|].
    destruct (bool_decide (tx ∈ subscribed)); [|by apply IH].
    unfold Enqueue. destruct (closed r); [done|].
    rewrite IH by done. by apply lookup_insert_ne. }
  induction order as [|r rest IH]; intros nm Hoff; cbn [NotifyTransactionAdded]; [done|].
  destruct (listeners nm !! r) as [listener|] eqn:Hlook; [|by apply IH].
  destruct (propagateTransactionAddedNotifications listener) eqn:Hflag; [|by apply IH].
  assert (Hne : r <> router).
  { intros ->. specialize (Hoff listener Hlook). congruence. }
  specialize (Hone r transactions (subscribedTransactions listener) (outgoing nm) Hne).
  destruct (notifyTransactions _ _ _ _ _) as [[subscribed routes] [[]| |]];
    cbn [fst snd] in Hone |- *; [|done..].
  rewrite IH; [done|]. cbn [listeners]. by rewrite lookup_insert_ne.
Qed.

Lemma NotifyUTXOOfAddressChanged_flag_off (changedAddresses : list string)
    (order : list Router) (router : Router) : forall nm,
  (forall listener, listeners nm !! router = Some listener ->
                    propagateUTXOOfAddressChangedNotifications listener = false) ->
  outgoing (NotifyUTXOOfAddressChanged closed changedAddresses order nm).1 !! router
  = outgoing nm !! router.
Proof.
  induction order as [|r rest IH]; intros nm Hoff; cbn [NotifyUTXOOfAddressChanged];
    [done|].
  destruct (listeners nm !! r) as [listener|] eqn:Hlook; [|by apply IH].
  destruct (propagateUTXOOfAddressChangedNotifications listener) eqn:Hflag; [|by apply IH].
  destruct (bool_decide _); [|by apply IH].
  unfold Enqueue. destruct (closed r); [done|].
  rewrite IH by done. cbn [outgoing]. apply lookup_insert_ne.
  intros ->. specialize (Hoff listener Hlook). congruence.
Qed.

End QuietListenerFacts.

(** X17.  A listener that has just been registered is sent nothing: after
    [AddListener] for a router, none of the six notifications enqueues a
    message on the route of that router, whatever was registered for it
    before, in whatever order the listeners are visited and whichever
    routes are closed. *)
Lemma AddListener_receives_nothing (closed : WalletNotification.Router -> bool)
    (router : WalletNotification.Router) (order : list WalletNotification.Router)
    (nm : WalletNotification.Manager) (id : N)
    (transactions : list WalletNotification.TxHash) (changedAddresses : list string) :
  let added := WalletNotification.AddListener router nm in
  let unchanged (after : WalletNotification.Manager * result unit) :=
    WalletNotification.outgoing after.1 !! router
    = WalletNotification.outgoing nm !! router in
  unchanged (WalletNotification.NotifyBlockAdded closed id order added)
  /\ unchanged (WalletNotification.NotifyTransactionAdded closed transactions order added)
  /\ unchanged (WalletNotification.NotifyUTXOOfAddressChanged closed changedAddresses
                  order added)
  /\ unchanged (WalletNotification.NotifyChainChanged closed id order added)
  /\ unchanged (WalletNotification.NotifyFinalityConflict closed id order added)
  /\ unchanged (WalletNotification.NotifyFinalityConflictResolved closed id order added).
Proof.
  intros added unchanged. subst unchanged. cbn beta.
  assert (Hnew : forall flag : WalletNotification.Listener -> bool,
            flag WalletNotification.newNotificationListener = false ->
            forall listener,
              WalletNotification.listeners added !! router = Some listener ->
              flag listener = false).
  { intros flag Hflag listener. subst added.
    cbn [WalletNotification.AddListener WalletNotification.listeners].
    rewrite lookup_insert_eq. by intros [= <-]. }
  repeat split.
  - unfold WalletNotification.NotifyBlockAdded.
    by rewrite notifyListeners_flag_off by (by apply Hnew).
  - by rewrite NotifyTransactionAdded_flag_off by (by apply Hnew).
  - by rewrite NotifyUTXOOfAddressChanged_flag_off by (by apply Hnew).
  - unfold WalletNotification.NotifyChainChanged.
    by rewrite notifyListeners_flag_off by (by apply Hnew).
  - unfold WalletNotification.NotifyFinalityConflict.
    by rewrite notifyListeners_flag_off by (by apply Hnew).
  - unfold WalletNotification.NotifyFinalityConflictResolved.
    by rewrite notifyListeners_flag_off by (by apply Hnew).
Qed.

(** ** The finality point, the lowest bits, the order of nodes *)

Section FinalityPointFacts.

Import Ghostdag FinalityPoint.

Variable FinalityInterval : N.

(** The loop stops at the first node whose selected parent has the score
    looked for. *)
Lemma findFinalityPoint_first (chain : list BlockNode) (lastScore : N)
    (currentNode : BlockNode) :
  findFinalityPoint FinalityInterval chain lastScore = Ok currentNode
  <-> exists before after,
        chain = before ++ currentNode :: after
        /\ FinalityScore FinalityInterval (selectedParent currentNode) = Ok lastScore
        /\ Forall (fun b => exists score,
                     FinalityScore FinalityInterval (selectedParent b) = Ok score
                     /\ score <> lastScore) before.
Proof.
  induction chain as [|node rest IH]; cbn [findFinalityPoint].
  - split; [done|]. intros (before & after & Hchain & _). by destruct before.
  - destruct (FinalityScore FinalityInterval (selectedParent node)) as [score| |] eqn:Hscore;
      cbn [mbind result_bind].
    + destruct (N.eqb_spec score lastScore) as [->|Hne].
      * split.
        -- intros [= <-]. exists [], rest. by repeat split.
        -- intros ([|b before] & after & Hchain & Hlast & Hbefore).
           ++ by injection Hchain as -> _.
           ++ injection Hchain as <- _. apply Forall_cons in Hbefore as [(s & Hs & Hne) _].
              congruence.
      * rewrite IH. split.
        -- intros (before & after & -> & Hlast & Hbefore).
           exists (node :: before), after. split; [done|]. split; [done|].
           constructor; [by exists score | done].
        -- intros ([|b before] & after & Hchain & Hlast & Hbefore).
           ++ injection Hchain as <- _. congruence.
           ++ injection Hchain as _ ->. apply Forall_cons in Hbefore as [_ Hbefore].
              by exists before, after.
    + split; [done|]. intros ([|b before] & after & Hchain & Hlast & Hbefore).
      * injection Hchain as <- _. congruence.
      * injection Hchain as <- _. apply Forall_cons in Hbefore as [(s & Hs & _) _].
        congruence.
    + split; [done|]. intros ([|b before] & after & Hchain & Hlast & Hbefore).
      * injection Hchain as <- _. congruence.
      * injection Hchain as <- _. apply Forall_cons in Hbefore as [(s & Hs & _) _].
        congruence.
Qed.

(** What follows a node on the chain of a tip is the chain of that node. *)
Lemma chain_below (tip new : BlockNode) (before rest : list BlockNode) :
  selectedParentChain tip = before ++ new :: rest ->
  rest = selectedParentChain new.
Proof.
  rewrite selectedParentChain_unfold.
  destruct (selectedParent tip) as [sp|]; [|by destruct before].
  apply chain_after.
Qed.

Lemma FinalityScore_selectedParent (node : BlockNode) (s : N) :
  FinalityInterval <> 0 ->
  FinalityScore FinalityInterval (selectedParent node) = Ok s
  <-> exists p, selectedParent node = Some p /\ blueScore p / FinalityInterval = s.
Proof.
  intros Hinterval. unfold FinalityScore.
  destruct (selectedParent node) as [p|].
  - destruct (N.eqb_spec FinalityInterval 0) as [?|_]; [done|]. split.
    + intros [= <-]. by exists p.
    + by intros (p' & [= <-] & <-).
  - split; [done|]. by intros (p & ? & _).
Qed.

(** The loop over the chain of a tip, in terms of the nodes and their
    selected parents. *)
Lemma findFinalityPoint_chain (tip new : BlockNode) (lastScore : N) :
  FinalityInterval <> 0 ->
  findFinalityPoint FinalityInterval (selectedParentChain tip) lastScore = Ok new
  <-> exists before parent,
        selectedParentChain tip = before ++ new :: parent :: selectedParentChain parent
        /\ blueScore parent / FinalityInterval = lastScore
        /\ Forall (fun b => exists p, selectedParent b = Some p
                                      /\ blueScore p / FinalityInterval <> lastScore)
                  before.
Proof.
  intros Hinterval. rewrite findFinalityPoint_first. split.
  - intros (before & after & Hchain & Hlast & Hbefore).
    apply FinalityScore_selectedParent in Hlast as (parent & Hparent & Hscore); [|done].
    exists before, parent. split; [|split; [done|]].
    + rewrite Hchain. do 2 f_equal. rewrite (chain_below _ _ _ _ Hchain).
      rewrite selectedParentChain_unfold. by rewrite Hparent.
    + eapply Forall_impl; [exact Hbefore|]. intros b (s & Hs & Hne).
      apply FinalityScore_selectedParent in Hs as (p & Hp & <-); [|done]. by exists p.
  - intros (before & parent & Hchain & Hscore & Hbefore).
    exists before, (parent :: selectedParentChain parent).
    split; [done|]. split.
    + apply FinalityScore_selectedParent; [done|]. exists parent. split; [|done].
      pose proof (chain_below _ _ _ _ Hchain) as Hnew.
      rewrite (selectedParentChain_unfold new) in Hnew.
      destruct (selectedParent new) as [q|]; [|done]. by injection Hnew as ->.
    + eapply Forall_impl; [exact Hbefore|]. intros b (p & Hp & Hne).
      exists (blueScore p / FinalityInterval). split; [|done].
      apply FinalityScore_selectedParent; [done|]. by exists p.
Qed.

End FinalityPointFacts.

(** X18.  [updateFinalityPoint] moves the finality point only up the chain
    of the selected tip.  For a selected tip that is not the genesis, with
    a positive finality interval: while the finality score of the tip is
    below that of the last finality point plus 2 the point stays; from
    then on the call returns a new point exactly when some node below the
    tip on its selected-parent chain has a selected parent with the
    finality score of the old point, and the new point is the first such
    node from the tip down. *)
Lemma updateFinalityPoint_first_above_last (FinalityInterval : N)
    (tip last : Ghostdag.BlockNode) :
  FinalityInterval <> 0 ->
  Ghostdag.IsGenesis tip = false ->
  let score (node : Ghostdag.BlockNode) := Ghostdag.blueScore node / FinalityInterval in
  (score tip < Ghostdag.wrap64 (score last + 2) ->
   FinalityPoint.updateFinalityPoint FinalityInterval (Some tip) (Some last)
   = Ok (Some last, false))
  /\ (Ghostdag.wrap64 (score last + 2) <= score tip ->
      forall new,
        FinalityPoint.updateFinalityPoint FinalityInterval (Some tip) (Some last)
        = Ok (Some new, true)
        <-> exists before parent,
              Ghostdag.selectedParentChain tip
              = before ++ new :: parent :: Ghostdag.selectedParentChain parent
              /\ score parent = score last
              /\ Forall (fun b => exists p, Ghostdag.selectedParent b = Some p
                                            /\ score p <> score last) before).
Proof.
  intros Hinterval Hgenesis score.
  unfold FinalityPoint.updateFinalityPoint. rewrite Hgenesis.
  cbn [FinalityPoint.FinalityScore].
  destruct (N.eqb_spec FinalityInterval 0) as [?|_]; [done|].
  cbn [mbind result_bind]. subst score. cbn beta.
  set (tipScore := Ghostdag.blueScore tip / FinalityInterval).
  set (lastScore := Ghostdag.blueScore last / FinalityInterval).
  split.
  - intros Hbelow. by destruct (N.ltb_spec tipScore (Ghostdag.wrap64 (lastScore + 2)));
      [|lia].
  - intros Habove new.
    destruct (N.ltb_spec tipScore (Ghostdag.wrap64 (lastScore + 2))) as [?|_]; [lia|].
    rewrite <- (findFinalityPoint_chain FinalityInterval tip new lastScore Hinterval).
    destruct (FinalityPoint.findFinalityPoint FinalityInterval
                (Ghostdag.selectedParentChain tip) lastScore) as [found| |];
      cbn [mbind result_bind]; [|done..].
    split; [by intros [= <-] | by intros [= <-]].
Qed.

(** The tip [nodeE], of blue score 3, over the genesis as last finality
    point, with interval 1: the point would move to [nodeA]. *)
Lemma updateFinalityPoint_first_above_last_witness :
  let score (node : Ghostdag.BlockNode) := Ghostdag.blueScore node / 1 in
  (score Ghostdag.nodeE < Ghostdag.wrap64 (score Ghostdag.genesisNode + 2) ->
   FinalityPoint.updateFinalityPoint 1 (Some Ghostdag.nodeE) (Some Ghostdag.genesisNode)
   = Ok (Some Ghostdag.genesisNode, false))
  /\ (Ghostdag.wrap64 (score Ghostdag.genesisNode + 2) <= score Ghostdag.nodeE ->
      forall new,
        FinalityPoint.updateFinalityPoint 1 (Some Ghostdag.nodeE)
          (Some Ghostdag.genesisNode)
        = Ok (Some new, true)
        <-> exists before parent,
              Ghostdag.selectedParentChain Ghostdag.nodeE
              = before ++ new :: parent :: Ghostdag.selectedParentChain parent
              /\ score parent = score Ghostdag.genesisNode
              /\ Forall (fun b => exists p, Ghostdag.selectedParent b = Some p
                                            /\ score p <> score Ghostdag.genesisNode)
                        before).
Proof.
  apply (updateFinalityPoint_first_above_last 1 Ghostdag.nodeE Ghostdag.genesisNode);
    done.
Defined.

(** X19.  [CurrentBits] returns the lowest bits among the tips: a value
    that no tip undercuts and that some tip carries, and the largest
    32-bit number when there is no tip. *)
Lemma CurrentBits_lowest (tipBits : list N) :
  Forall (fun bits => bits < 2 ^ 32) tipBits ->
  Forall (fun bits => FinalityPoint.CurrentBits tipBits <= bits) tipBits
  /\ (tipBits = [] -> FinalityPoint.CurrentBits tipBits = 2 ^ 32 - 1)
  /\ (tipBits <> [] -> FinalityPoint.CurrentBits tipBits ∈ tipBits).
Proof.
  intros Hbits. unfold FinalityPoint.CurrentBits.
  assert (Hfold : forall l start,
            let lowest := foldl (fun minBits bits =>
                                   if bits <? minBits then bits else minBits) start l in
            lowest <= start
            /\ Forall (fun bits => lowest <= bits) l
            /\ (lowest = start \/ lowest ∈ l)).
  { induction l as [|bits l IH]; intros start; cbn [foldl].
    - split; [lia|]. split; [done | by left].
    - destruct (N.ltb_spec bits start) as [Hlt|Hge].
      + destruct (IH bits) as (Hle & Hall & Hin). split; [lia|]. split.
        * by constructor.
        * right. destruct Hin as [->|Hin]; [by left | by right].
      + destruct (IH start) as (Hle & Hall & Hin). split; [done|]. split.
        * constructor; [lia | done].
        * destruct Hin as [?|Hin]; [by left | right; by right]. }
  destruct (Hfold tipBits (2 ^ 32 - 1)) as (Hle & Hall & Hin).
  split; [done|]. split; [by intros ->|].
  intros Hne. destruct Hin as [Heq|Hin]; [|done].
  destruct tipBits as [|bits rest]; [done|].
  apply Forall_cons in Hbits as [Hbits _]. apply Forall_cons in Hall as [Hlow _].
  rewrite Heq in Hlow |- *. assert (bits = 2 ^ 32 - 1) as -> by lia. by left.
Qed.

(** Three tips. *)
Lemma CurrentBits_lowest_witness :
  Forall (fun bits => FinalityPoint.CurrentBits [486604799; 453281356; 471365543] <= bits)
         [486604799; 453281356; 471365543]
  /\ ([486604799; 453281356; 471365543] = [] ->
      FinalityPoint.CurrentBits [486604799; 453281356; 471365543] = 2 ^ 32 - 1)
  /\ ([486604799; 453281356; 471365543] <> [] ->
      FinalityPoint.CurrentBits [486604799; 453281356; 471365543]
      ∈ [486604799; 453281356; 471365543]).
Proof.
  apply CurrentBits_lowest. repeat constructor; by vm_compute.
Defined.

(** X20.  [less] is a strict total order on the pairs of blue score and
    hash: no node is less than itself, the relation is transitive, and of
    two nodes that differ in blue score or in hash exactly one is less
    than the other. *)
Lemma Less_strict_total_order (a b c : Ghostdag.BlockNode) :
  Ghostdag.Less a a = false
  /\ (Ghostdag.Less a b = true -> Ghostdag.Less b c = true -> Ghostdag.Less a c = true)
  /\ (Ghostdag.Less a b = true -> Ghostdag.Less b a = false)
  /\ (Ghostdag.Less a b = false -> Ghostdag.Less b a = false ->
      Ghostdag.blueScore a = Ghostdag.blueScore b /\ Ghostdag.hash a = Ghostdag.hash b).
Proof.
  rewrite !Less_spec, !Less_false. lia.
Qed.

(** ** Errors of connectBlock in addBlock *)

(** X21.  How [addBlock] treats an error of [connectBlock].  An error that
    is not a rule error is returned with the DAG as [connectBlock] left it.
    A rule error marks the node: when the database takes the writes, the
    same error is returned, the validate-failed bit is set in the status of
    the node, in the store and in the block index of the database, and
    neither the block count nor any other status changes. *)
Lemma addBlock_marks_rule_errors
    (env : Connect.Collaborators) (dag dag1 : Connect.BlockDAG)
    (node : Ghostdag.BlockNode) (block : UTXO.Block)
    (selectedParentAnticone : list Ghostdag.BlockNode) (flags : N) (err : error) :
  Connect.connectBlock env dag node block selectedParentAnticone
    ((N.land flags Connect.BFFastAdd =? Connect.BFFastAdd)
     || Connect.KnownValid (Connect.NodeStatus (Connect.blockNodeStore dag) node))
  = (dag1, Err err) ->
  let r := Connect.addBlock env dag node block selectedParentAnticone flags in
  let failed := N.lor (Connect.NodeStatus (Connect.blockNodeStore dag1) node)
                  Connect.StatusValidateFailed in
  (asRuleError err = None -> r = (dag1, Err err))
  /\ (asRuleError err <> None ->
      (forall op, Connect.ioError env op = None) ->
      r.2 = Err err
      /\ Connect.statuses (Connect.blockNodeStore r.1)
         = <[Ghostdag.hash node := failed]> (Connect.statuses (Connect.blockNodeStore dag1))
      /\ Connect.blockIndexBucket (Connect.databaseContext r.1) !! Ghostdag.hash node
         = Some failed
      /\ Connect.otherBuckets (Connect.databaseContext r.1)
         = Connect.otherBuckets (Connect.databaseContext dag1)
      /\ Connect.blockCount r.1 = Connect.blockCount dag1).
Proof.
  intros Hconnect r failed. subst r. unfold Connect.addBlock. rewrite Hconnect.
  split.
  - by intros ->.
  - intros Hrule Hio. destruct (asRuleError err) as [code|]; [|done].
    unfold Connect.flushBlockNodeStore, Connect.NewTx, Connect.FlushToDB, Connect.Commit.
    rewrite !Hio. cbn. split; [done|]. split; [done|]. split; [|done].
    do 2 apply lookup_union_Some_l. apply map_lookup_filter_Some. split.
    + apply lookup_insert_eq.
    + cbn. set_solver.
Qed.

(** The block of [nodeD], whose header carries a wrong commitment. *)
Lemma addBlock_marks_rule_errors_witness :
  let r := Connect.addBlock Connect.passingCollaborators Connect.smallDAG
             Ghostdag.nodeD Connect.blockD [] 0 in
  let failed := N.lor (Connect.NodeStatus (Connect.blockNodeStore Connect.smallDAG)
                         Ghostdag.nodeD) Connect.StatusValidateFailed in
  (asRuleError (Wrapped "error verifying UTXO" (RuleError ErrBadUTXOCommitment)) = None ->
   r = (Connect.smallDAG,
        Err (Wrapped "error verifying UTXO" (RuleError ErrBadUTXOCommitment))))
  /\ (asRuleError (Wrapped "error verifying UTXO" (RuleError ErrBadUTXOCommitment))
      <> None ->
      (forall op, Connect.ioError Connect.passingCollaborators op = None) ->
      r.2 = Err (Wrapped "error verifying UTXO" (RuleError ErrBadUTXOCommitment))
      /\ Connect.statuses (Connect.blockNodeStore r.1)
         = <[Ghostdag.hash Ghostdag.nodeD := failed]>
             (Connect.statuses (Connect.blockNodeStore Connect.smallDAG))
      /\ Connect.blockIndexBucket (Connect.databaseContext r.1)
           !! Ghostdag.hash Ghostdag.nodeD
         = Some failed
      /\ Connect.otherBuckets (Connect.databaseContext r.1)
         = Connect.otherBuckets (Connect.databaseContext Connect.smallDAG)
      /\ Connect.blockCount r.1 = Connect.blockCount Connect.smallDAG).
Proof.
  apply (addBlock_marks_rule_errors Connect.passingCollaborators Connect.smallDAG
           Connect.smallDAG Ghostdag.nodeD Connect.blockD [] 0).
  by vm_compute.
Defined.

(** X22.  When [connectBlock] fails with a rule error and the database
    refuses one of the writes that would record it, [addBlock] returns the
    error of the database in place of the rule error; the validate-failed
    bit is set in the store, and the database is as it was. *)
Lemma addBlock_flush_failure_hides_rule_error
    (env : Connect.Collaborators) (dag dag1 : Connect.BlockDAG)
    (node : Ghostdag.BlockNode) (block : UTXO.Block)
    (selectedParentAnticone : list Ghostdag.BlockNode) (flags : N) (err : error)
    (failing : Connect.DBOp) :
  Connect.connectBlock env dag node block selectedParentAnticone
    ((N.land flags Connect.BFFastAdd =? Connect.BFFastAdd)
     || Connect.KnownValid (Connect.NodeStatus (Connect.blockNodeStore dag) node))
  = (dag1, Err err) ->
  asRuleError err <> None ->
  Connect.ioError env failing <> None ->
  let r := Connect.addBlock env dag node block selectedParentAnticone flags in
  (exists op ioErr, Connect.ioError env op = Some ioErr /\ r.2 = Err ioErr)
  /\ Connect.NodeStatus (Connect.blockNodeStore r.1) node
     = N.lor (Connect.NodeStatus (Connect.blockNodeStore dag1) node)
         Connect.StatusValidateFailed
  /\ Connect.databaseContext r.1 = Connect.databaseContext dag1.
Proof.
  intros Hconnect Hrule Hfailing r. subst r. unfold Connect.addBlock. rewrite Hconnect.
  destruct (asRuleError err) as [code|]; [|done].
  assert (Hstatus : Connect.NodeStatus
                      (Connect.SetStatusFlags node Connect.StatusValidateFailed
                         (Connect.blockNodeStore dag1)) node
                    = N.lor (Connect.NodeStatus (Connect.blockNodeStore dag1) node)
                        Connect.StatusValidateFailed).
  { unfold Connect.NodeStatus at 1. cbn. by rewrite lookup_insert_eq. }
  unfold Connect.flushBlockNodeStore, Connect.NewTx, Connect.FlushToDB, Connect.Commit.
  destruct (Connect.ioError env Connect.OpNewTx) as [e1|] eqn:H1; cbn.
  { split; [by exists Connect.OpNewTx, e1 | done]. }
  destruct (Connect.ioError env Connect.OpFlushBlockNodeStore) as [e2|] eqn:H2; cbn.
  { split; [by exists Connect.OpFlushBlockNodeStore, e2 | done]. }
  destruct (Connect.ioError env Connect.OpCommit) as [e3|] eqn:H3; cbn.
  { split; [by exists Connect.OpCommit, e3 | done]. }
  destruct failing; congruence.
Qed.

(** The block of [nodeD], whose header carries a wrong commitment, on a
    database that refuses to commit. *)
Lemma addBlock_flush_failure_hides_rule_error_witness :
  let r := Connect.addBlock ConnectFailures.refusingCommit Connect.smallDAG
             Ghostdag.nodeD Connect.blockD [] 0 in
  (exists op ioErr,
     Connect.ioError ConnectFailures.refusingCommit op = Some ioErr /\ r.2 = Err ioErr)
  /\ Connect.NodeStatus (Connect.blockNodeStore r.1) Ghostdag.nodeD
     = N.lor (Connect.NodeStatus (Connect.blockNodeStore Connect.smallDAG) Ghostdag.nodeD)
         Connect.StatusValidateFailed
  /\ Connect.databaseContext r.1 = Connect.databaseContext Connect.smallDAG.
Proof.
  apply (addBlock_flush_failure_hides_rule_error ConnectFailures.refusingCommit
           Connect.smallDAG Connect.smallDAG Ghostdag.nodeD Connect.blockD [] 0
           (Wrapped "error verifying UTXO" (RuleError ErrBadUTXOCommitment))
           Connect.OpCommit).
  - by vm_compute.
  - done.
  - done.
Defined.

(** ** The missing ancestors of an orphan *)

Section MissingAncestorsFacts.

Import Orphans OrphanAncestors.

Variable IsInDAG : Hash -> bool.

Lemma sum_list_Permutation (l k : list nat) : l ≡ₚ k -> sum_list l = sum_list k.
Proof.
  induction 1 as [|x l k _ IH|x y l|l k m _ IH1 _ IH2]; cbn [sum_list_with id]; lia.
Qed.

(** Visiting an orphan uses up its parent hashes. *)
Lemma pendingParents_visit (pool : gmap Hash orphanBlock) (visited : gset Hash)
    (current : Hash) (orphan : orphanBlock) :
  pool !! current = Some orphan ->
  current ∉ visited ->
  (pendingParents pool ({[current]} ∪ visited) + length (parentHashes (block orphan))
   = pendingParents pool visited)%nat.
Proof.
  intros Hlook Hfresh. unfold pendingParents.
  pose proof (map_to_list_insert (delete current pool) current orphan
                (lookup_delete_eq _ _)) as Hperm.
  rewrite (insert_delete_id pool current orphan Hlook) in Hperm.
  rewrite !(sum_list_Permutation _ _ (fmap_Permutation _ _ _ Hperm)).
  rewrite !fmap_cons. cbn [sum_list_with id fst snd].
  rewrite bool_decide_eq_true_2 by set_solver.
  rewrite bool_decide_eq_false_2 by done.
  assert (Hrest : Forall (fun entry : Hash * orphanBlock => entry.1 <> current)
                         (map_to_list (delete current pool))).
  { apply Forall_forall. intros [k o] Hin%elem_of_map_to_list Heq. cbn [fst] in Heq.
    subst k. by rewrite lookup_delete_eq in Hin. }
  assert (Hsame : sum_list ((fun entry : Hash * orphanBlock =>
                               if bool_decide (entry.1 ∈ {[current]} ∪ visited) then O
                               else length (parentHashes (block entry.2)))
                            <$> map_to_list (delete current pool))
                  = sum_list ((fun entry : Hash * orphanBlock =>
                                 if bool_decide (entry.1 ∈ visited) then O
                                 else length (parentHashes (block entry.2)))
                              <$> map_to_list (delete current pool))).
  { clear Hperm. induction Hrest as [|[k o] entries Hne _ IH]; [done|].
    cbn [fst] in Hne. rewrite !fmap_cons. cbn [sum_list_with id fst snd]. rewrite IH.
    destruct (bool_decide (k ∈ visited)) eqn:Hk.
    - apply bool_decide_eq_true in Hk. rewrite bool_decide_eq_true_2 by set_solver. done.
    - apply bool_decide_eq_false in Hk. rewrite bool_decide_eq_false_2 by set_solver. done. }
  rewrite Hsame. unfold id. lia.
Qed.

Lemma pendingParents_skip (pool : gmap Hash orphanBlock) (visited : gset Hash)
    (current : Hash) :
  (pendingParents pool ({[current]} ∪ visited) <= pendingParents pool visited)%nat.
Proof.
  unfold pendingParents.
  induction (map_to_list pool) as [|[k o] entries IH]; [done|].
  rewrite !fmap_cons. cbn [sum_list_with id fst snd].
  destruct (bool_decide (k ∈ visited)) eqn:Hk.
  - apply bool_decide_eq_true in Hk. rewrite bool_decide_eq_true_2 by set_solver. lia.
  - destruct (bool_decide (k ∈ {[current]} ∪ visited)); lia.
Qed.

(** The loop comes to an end within the parent hashes still to be queued
    and the hashes queued. *)
Lemma missingAncestorsLoop_terminates (pool : gmap Hash orphanBlock) (orphanHash : Hash)
    (fuel : nat) : forall missing visited queue,
  (pendingParents pool visited + length queue <= fuel)%nat ->
  is_Some (missingAncestorsLoop IsInDAG fuel pool orphanHash missing visited queue).
Proof.
  induction fuel as [|fuel IH]; intros missing visited [|current queue] Hfuel;
    cbn [missingAncestorsLoop]; try done.
  - cbn [length] in Hfuel. lia.
  - cbn [length] in Hfuel.
    destruct (bool_decide (current ∈ visited)) eqn:Hvisited; [apply IH; lia|].
    apply bool_decide_eq_false in Hvisited.
    destruct (pool !! current) as [orphan|] eqn:Hlook.
    + apply IH. rewrite length_app.
      pose proof (pendingParents_visit pool visited current orphan Hlook Hvisited). lia.
    + pose proof (pendingParents_skip pool visited current).
      destruct (negb (IsInDAG current) && negb (bool_decide (current = orphanHash)));
        apply IH; lia.
Qed.

(** What the loop keeps true: the hashes found are distinct and were
    visited; each is unknown to the pool and to the DAG, differs from the
    hash of the orphan, and is a parent hash of an orphan of the pool. *)
Lemma missingAncestorsLoop_sound (pool : gmap Hash orphanBlock) (orphanHash : Hash)
    (fuel : nat) : forall missing visited queue found,
  missingAncestorsLoop IsInDAG fuel pool orphanHash missing visited queue = Some found ->
  NoDup missing ->
  (forall h, h ∈ missing -> h ∈ visited) ->
  (forall h, h ∈ queue ->
     h = orphanHash
     \/ exists k o, pool !! k = Some o /\ h ∈ parentHashes (block o)) ->
  (forall h, h ∈ missing ->
     pool !! h = None /\ IsInDAG h = false /\ h <> orphanHash
     /\ exists k o, pool !! k = Some o /\ h ∈ parentHashes (block o)) ->
  NoDup found
  /\ forall h, h ∈ found ->
       pool !! h = None /\ IsInDAG h = false /\ h <> orphanHash
       /\ exists k o, pool !! k = Some o /\ h ∈ parentHashes (block o).
Proof.
  induction fuel as [|fuel IH]; intros missing visited [|current queue] found Hloop
    Hnodup Hvisited Hqueue Hmissing; cbn [missingAncestorsLoop] in Hloop; try done.
  - by injection Hloop as <-.
  - by injection Hloop as <-.
  - assert (Hqueue' : forall h, h ∈ queue ->
              h = orphanHash
              \/ exists k o, pool !! k = Some o /\ h ∈ parentHashes (block o)).
    { intros h Hh. apply Hqueue. by right. }
    destruct (bool_decide (current ∈ visited)) eqn:Hseen.
    { by apply (IH missing visited queue). }
    apply bool_decide_eq_false in Hseen.
    assert (Hvisited' : forall h, h ∈ missing -> h ∈ {[current]} ∪ visited).
    { intros h Hh. apply elem_of_union_r. by apply Hvisited. }
    destruct (pool !! current) as [orphan|] eqn:Hlook.
    + apply (IH missing ({[current]} ∪ visited) (queue ++ parentHashes (block orphan)));
        try done.
      intros h [Hh|Hh]%elem_of_app; [by apply Hqueue'|].
      right. by exists current, orphan.
    + destruct (IsInDAG current) eqn:Hdag; cbn [negb andb] in Hloop.
      { by apply (IH missing ({[current]} ∪ visited) queue). }
      destruct (bool_decide (current = orphanHash)) eqn:Hself; cbn [negb] in Hloop.
      { by apply (IH missing ({[current]} ∪ visited) queue). }
      apply bool_decide_eq_false in Hself.
      apply (IH (missing ++ [current]) ({[current]} ∪ visited) queue); try done.
      * apply NoDup_app. split; [done|]. split; [|apply NoDup_singleton].
        intros h Hh ->%list_elem_of_singleton. apply Hseen. by apply Hvisited.
      * intros h [Hh| ->%list_elem_of_singleton]%elem_of_app; [by apply Hvisited'|].
        set_solver.
      * intros h [Hh| ->%list_elem_of_singleton]%elem_of_app; [by apply Hmissing|].
        split; [done|]. split; [done|]. split; [done|].
        destruct (Hqueue current) as [?|?]; [by left | done | done].
Qed.

End MissingAncestorsFacts.

(** X23.  [GetOrphanMissingAncestorHashes] always returns, and what it
    returns are missing ancestors: distinct hashes, each unknown to the
    orphan pool and to the DAG, other than the hash asked about, and a
    parent hash of an orphan of the pool.  For a hash that is not a known
    orphan the result is empty. *)
Lemma GetOrphanMissingAncestorHashes_missing
    (IsInDAG : Orphans.Hash -> bool) (dag : Orphans.OrphanPool)
    (orphanHash : Orphans.Hash) :
  exists found,
    OrphanAncestors.GetOrphanMissingAncestorHashes IsInDAG dag orphanHash = Some found
    /\ NoDup found
    /\ (forall h, h ∈ found ->
          Orphans.IsKnownOrphan dag h = false /\ IsInDAG h = false /\ h <> orphanHash
          /\ exists k o, Orphans.orphans dag !! k = Some o
                         /\ h ∈ Orphans.parentHashes (Orphans.block o))
    /\ (Orphans.IsKnownOrphan dag orphanHash = false -> found = []).
Proof.
  unfold OrphanAncestors.GetOrphanMissingAncestorHashes.
  destruct (missingAncestorsLoop_terminates IsInDAG (Orphans.orphans dag) orphanHash
              (S (OrphanAncestors.pendingParents (Orphans.orphans dag) ∅))
              [] ∅ [orphanHash]) as [found Hfound].
  { cbn [length]. lia. }
  exists found. split; [done|].
  destruct (missingAncestorsLoop_sound IsInDAG _ _ _ _ _ _ _ Hfound) as [Hnodup Hsound].
  - constructor.
  - by intros h ?%elem_of_nil.
  - intros h ->%list_elem_of_singleton. by left.
  - by intros h ?%elem_of_nil.
  - split; [done|]. split.
    + intros h Hh. destruct (Hsound h Hh) as (Hnone & Hrest). split; [|done].
      unfold Orphans.IsKnownOrphan. apply bool_decide_eq_false. rewrite Hnone.
      by intros [? ?].
    + intros Hunknown. unfold Orphans.IsKnownOrphan in Hunknown.
      apply bool_decide_eq_false in Hunknown.
      destruct (Orphans.orphans dag !! orphanHash) as [o|] eqn:Hlook.
      { exfalso. apply Hunknown. by eexists. }
      cbn [OrphanAncestors.missingAncestorsLoop] in Hfound.
      rewrite bool_decide_eq_false_2 in Hfound by set_solver.
      rewrite Hlook in Hfound. rewrite (bool_decide_eq_true_2 (orphanHash = orphanHash))
        in Hfound by done.
      rewrite andb_false_r in Hfound.
      destruct (OrphanAncestors.pendingParents _ _); cbn in Hfound; congruence.
Qed.

(** ** Finalizing the nodes below the finality point *)

Section FinalizationFacts.

Import Ghostdag Finalization.

Lemma pastNodes_unfold (n : BlockNode) :
  pastNodes n = parents n ≫= fun p => p :: pastNodes p.
Proof.
  destruct n as [h ps sp bs sizes score commitment]. cbn [pastNodes parents].
  induction ps as [|p ps IH]; [done|]. cbn [mbind list_bind]. by rewrite IH.
Qed.

Lemma elem_of_pastNodes (n a : BlockNode) :
  a ∈ pastNodes n <-> exists p, p ∈ parents n /\ (a = p \/ a ∈ pastNodes p).
Proof.
  rewrite pastNodes_unfold, list_elem_of_bind. split.
  - intros (p & [->|Ha]%elem_of_cons & Hp); exists p; auto.
  - intros (p & Hp & [->|Ha]); exists p; (split; [|done]); [by left | by right].
Qed.

Lemma pastSize_parent (n p : BlockNode) : p ∈ parents n -> (pastSize p < pastSize n)%nat.
Proof.
  rewrite (pastSize_parents n). generalize (parents n). intros ps Hp.
  induction ps as [|q ps IH]; [by apply elem_of_nil in Hp|].
  rewrite sumSizes_cons. apply elem_of_cons in Hp as [->|Hp]; [lia|].
  specialize (IH Hp). lia.
Qed.

(** The past of a node of the past is part of the past. *)
Lemma pastNodes_trans (size : nat) : forall n c a,
  (pastSize n <= size)%nat ->
  c ∈ pastNodes n -> a ∈ pastNodes c -> a ∈ pastNodes n.
Proof.
  induction size as [|size IH]; intros n c a Hsize Hc Ha.
  - rewrite pastSize_parents in Hsize. lia.
  - apply elem_of_pastNodes in Hc as (p & Hp & [->|Hc]).
    + apply elem_of_pastNodes. exists p. split; [done | by right].
    + apply elem_of_pastNodes. exists p. split; [done|]. right.
      apply (IH p c a); [|done..]. pose proof (pastSize_parent n p Hp). lia.
Qed.

(** A set that holds the parents of a node and, with a node of its past,
    the parents of that node, holds the past of the node. *)
Lemma past_in_closed_set (finalized : gset Hash) (top : BlockNode) (size : nat) :
  (forall c p, c ∈ pastNodes top -> hash c ∈ finalized -> p ∈ parents c ->
               hash p ∈ finalized) ->
  forall n a,
  (pastSize n <= size)%nat ->
  (forall p, p ∈ parents n -> hash p ∈ finalized) ->
  (forall c, c ∈ pastNodes n -> c ∈ pastNodes top) ->
  a ∈ pastNodes n -> hash a ∈ finalized.
Proof.
  intros Hclosed. induction size as [|size IH]; intros n a Hsize Hparents Hsub Ha.
  - rewrite pastSize_parents in Hsize. lia.
  - apply elem_of_pastNodes in Ha as (p & Hp & [->|Ha]); [by apply Hparents|].
    assert (Hptop : p ∈ pastNodes top).
    { apply Hsub, elem_of_pastNodes. exists p. split; [done | by left]. }
    apply (IH p a); [| | |done].
    + pose proof (pastSize_parent n p Hp). lia.
    + intros q Hq. by apply (Hclosed p q Hptop (Hparents p Hp)).
    + intros c Hc. apply Hsub, elem_of_pastNodes. exists p. split; [done | by right].
Qed.

Lemma finalizeQueue_enough_fuel (deleteDiffData : bool) (fuel : nat) :
  forall finalized nodesToDelete queue,
  (sumSizes queue <= fuel)%nat ->
  is_Some (finalizeQueue fuel deleteDiffData finalized nodesToDelete queue).
Proof.
  induction fuel as [|fuel IH]; intros finalized nodesToDelete [|current queue] Hfuel;
    cbn [finalizeQueue]; try done.
  - rewrite sumSizes_cons, pastSize_parents in Hfuel. lia.
  - rewrite sumSizes_cons, pastSize_parents in Hfuel.
    destruct (bool_decide (hash current ∈ finalized)); apply IH.
    + lia.
    + rewrite sumSizes_app. lia.
Qed.

(** What the loop does, for nodes of a universe in which a hash names one
    node and which holds the parents of its nodes. *)
Lemma finalizeQueue_marks (universe : list BlockNode) (deleteDiffData : bool) :
  (forall a b, a ∈ universe -> b ∈ universe -> hash a = hash b -> a = b) ->
  (forall c p, c ∈ universe -> p ∈ parents c -> p ∈ universe) ->
  forall fuel finalized nodesToDelete queue finalized' nodesToDelete',
  finalizeQueue fuel deleteDiffData finalized nodesToDelete queue
  = Some (finalized', nodesToDelete') ->
  (forall q, q ∈ queue -> q ∈ universe) ->
  (forall c p, c ∈ universe -> hash c ∈ finalized -> p ∈ parents c ->
               hash p ∈ finalized \/ p ∈ queue) ->
  exists new,
    nodesToDelete' = nodesToDelete ++ (if deleteDiffData then new else [])
    /\ NoDup (hash <$> new)
    /\ finalized' = finalized ∪ list_to_set (hash <$> new)
    /\ (forall x, x ∈ new -> hash x ∉ finalized /\ x ∈ universe)
    /\ (forall c p, c ∈ universe -> hash c ∈ finalized' -> p ∈ parents c ->
                    hash p ∈ finalized')
    /\ (forall q, q ∈ queue -> hash q ∈ finalized').
Proof.
  intros Hone Hparents.
  induction fuel as [|fuel IH];
    intros finalized nodesToDelete [|current queue] finalized' nodesToDelete'
           Hloop Hqueue Hclosed; cbn [finalizeQueue] in Hloop; try done.
  - injection Hloop as <- <-. exists [].
    split; [destruct deleteDiffData; by rewrite app_nil_r|]. split; [constructor|].
    split; [cbn; set_solver|]. split; [by intros x ?%elem_of_nil|]. split.
    + intros c p Hc Hin Hp. destruct (Hclosed c p Hc Hin Hp) as [?|?%elem_of_nil]; done.
    + by intros q ?%elem_of_nil.
  - injection Hloop as <- <-. exists [].
    split; [destruct deleteDiffData; by rewrite app_nil_r|]. split; [constructor|].
    split; [cbn; set_solver|]. split; [by intros x ?%elem_of_nil|]. split.
    + intros c p Hc Hin Hp. destruct (Hclosed c p Hc Hin Hp) as [?|?%elem_of_nil]; done.
    + by intros q ?%elem_of_nil.
  - assert (Hcurrent : current ∈ universe) by (apply Hqueue; by left).
    destruct (bool_decide (hash current ∈ finalized)) eqn:Hdone.
    + apply bool_decide_eq_true in Hdone.
      destruct (IH _ _ _ _ _ Hloop) as (new & Hdel & Hnodup & Hfin & Hnew & Hclosed' & Hq).
      * intros q Hin. apply Hqueue. by right.
      * intros c p Hc Hin Hp.
        destruct (Hclosed c p Hc Hin Hp) as [?|[->|?]%elem_of_cons]; auto.
      * exists new. repeat (split; [done|]).
        intros q [->|Hin]%elem_of_cons; [|by apply Hq]. rewrite Hfin. set_solver.
    + apply bool_decide_eq_false in Hdone.
      destruct (IH _ _ _ _ _ Hloop) as (new & Hdel & Hnodup & Hfin & Hnew & Hclosed' & Hq).
      * intros q [Hin|Hin]%elem_of_app; [apply Hqueue; by right|].
        by apply (Hparents current).
      * intros c p Hc Hin Hp.
        apply elem_of_union in Hin as [Hin%elem_of_singleton|Hin].
        -- rewrite (Hone c current Hc Hcurrent Hin) in Hp.
           right. apply elem_of_app. by right.
        -- destruct (Hclosed c p Hc Hin Hp) as [?|[->|?]%elem_of_cons].
           ++ left. set_solver.
           ++ left. set_solver.
           ++ right. apply elem_of_app. by left.
      * exists (current :: new). split; [|split; [|split; [|split; [|split]]]].
        -- rewrite Hdel. destruct deleteDiffData; [|done]. by rewrite <- app_assoc.
        -- rewrite fmap_cons. apply NoDup_cons. split; [|done].
           intros (x & Hx & Hin)%list_elem_of_fmap.
           destruct (Hnew x Hin) as [Hfresh _]. apply Hfresh. rewrite <- Hx. set_solver.
        -- rewrite Hfin, fmap_cons. cbn [list_to_set]. set_solver.
        -- intros x [->|Hin]%elem_of_cons; [done|].
           destruct (Hnew x Hin) as [Hfresh ?]. split; [set_solver | done].
        -- done.
        -- intros q [->|Hin]%elem_of_cons.
           ++ rewrite Hfin. set_solver.
           ++ apply Hq, elem_of_app. by left.
Qed.

End FinalizationFacts.

(** X24.  [finalizeNodesBelowFinalityPoint] finalizes the past of the last
    finality point.  When a hash names one node of that past, a finalized
    node of it has only finalized parents, and the diff store takes the
    removal, the call returns; the finalized nodes are then those that
    were finalized before and the whole past of the finality point, and
    with [deleteDiffData] the nodes handed to the diff store are the nodes
    of that past that were not finalized before, each once. *)
Lemma finalizeNodesBelowFinalityPoint_marks_past
    (RemoveBlocksDiffData : list Ghostdag.BlockNode -> result unit)
    (lastFinalityPoint : Ghostdag.BlockNode) (deleteDiffData : bool)
    (finalized : gset Ghostdag.Hash) :
  (forall a b, a ∈ Finalization.pastNodes lastFinalityPoint ->
               b ∈ Finalization.pastNodes lastFinalityPoint ->
               Ghostdag.hash a = Ghostdag.hash b -> a = b) ->
  (forall c p, c ∈ Finalization.pastNodes lastFinalityPoint ->
               Ghostdag.hash c ∈ finalized -> p ∈ Ghostdag.parents c ->
               Ghostdag.hash p ∈ finalized) ->
  (forall nodes, RemoveBlocksDiffData nodes = Ok ()) ->
  exists finalized' nodesToDelete,
    Finalization.finalizeNodesBelowFinalityPoint RemoveBlocksDiffData
      (Some lastFinalityPoint) deleteDiffData finalized
    = Some (Ok (finalized', nodesToDelete))
    /\ finalized'
       = finalized ∪ list_to_set (Ghostdag.hash <$> Finalization.pastNodes lastFinalityPoint)
    /\ if deleteDiffData
       then NoDup (Ghostdag.hash <$> nodesToDelete)
            /\ (list_to_set (Ghostdag.hash <$> nodesToDelete) : gset Ghostdag.Hash)
               = list_to_set (Ghostdag.hash <$> Finalization.pastNodes lastFinalityPoint)
                 ∖ finalized
       else nodesToDelete = [].
Proof.
  intros Hone Hclosed Hremove. unfold Finalization.finalizeNodesBelowFinalityPoint.
  destruct (finalizeQueue_enough_fuel deleteDiffData
              (Ghostdag.sumSizes (Ghostdag.parents lastFinalityPoint)) finalized []
              (Ghostdag.parents lastFinalityPoint)) as [[finalized' nodesToDelete] Hloop];
    [done|].
  rewrite Hloop.
  assert (Hparents : forall c p,
            c ∈ Finalization.pastNodes lastFinalityPoint -> p ∈ Ghostdag.parents c ->
            p ∈ Finalization.pastNodes lastFinalityPoint).
  { intros c p Hc Hp.
    apply (pastNodes_trans (Ghostdag.pastSize lastFinalityPoint) lastFinalityPoint c p);
      [done | done |].
    apply elem_of_pastNodes. exists p. split; [done | by left]. }
  destruct (finalizeQueue_marks (Finalization.pastNodes lastFinalityPoint) deleteDiffData
              Hone Hparents _ _ _ _ _ _ Hloop)
    as (new & Hdel & Hnodup & Hfin & Hnew & Hclosed' & Hq).
  - intros q Hq. apply elem_of_pastNodes. exists q. split; [done | by left].
  - intros c p Hc Hin Hp. left. by apply (Hclosed c p).
  - assert (Hall : forall a, a ∈ Finalization.pastNodes lastFinalityPoint ->
                             Ghostdag.hash a ∈ finalized').
    { intros a Ha.
      apply (past_in_closed_set finalized' lastFinalityPoint
               (Ghostdag.pastSize lastFinalityPoint) Hclosed' lastFinalityPoint a);
        done. }
    assert (Hfin' : finalized'
                    = finalized ∪ list_to_set (Ghostdag.hash <$>
                                                 Finalization.pastNodes lastFinalityPoint)).
    { apply set_eq. intros h. split.
      - rewrite Hfin. intros [?|Hh]%elem_of_union; [set_solver|].
        apply elem_of_union_r. apply elem_of_list_to_set in Hh.
        apply list_elem_of_fmap in Hh as (x & -> & Hx).
        apply elem_of_list_to_set, list_elem_of_fmap. exists x. split; [done|].
        by apply Hnew.
      - intros [?|Hh]%elem_of_union; [rewrite Hfin; set_solver|].
        apply elem_of_list_to_set, list_elem_of_fmap in Hh as (x & -> & Hx).
        by apply Hall. }
    exists finalized', nodesToDelete. split; [|split; [done|]].
    + destruct deleteDiffData; [|done]. by rewrite Hremove.
    + destruct deleteDiffData; [|by rewrite Hdel].
      cbn [app] in Hdel. subst nodesToDelete. split; [done|].
      apply set_eq. intros h. rewrite elem_of_difference. split.
      * intros Hh. apply elem_of_list_to_set, list_elem_of_fmap in Hh as (x & -> & Hx).
        destruct (Hnew x Hx) as [Hfresh Hpast]. split; [|done].
        apply elem_of_list_to_set, list_elem_of_fmap. by exists x.
      * intros [Hh Hfresh].
        assert (Hin : h ∈ finalized') by (rewrite Hfin'; by apply elem_of_union_r).
        rewrite Hfin in Hin. by apply elem_of_union in Hin as [?|?].
Qed.

(** The finality point [nodeE] with the genesis already finalized: the
    nodes [nodeD] and [nodeA] are finalized and handed to the diff
    store. *)
Lemma finalizeNodesBelowFinalityPoint_marks_past_witness :
  exists finalized' nodesToDelete,
    Finalization.finalizeNodesBelowFinalityPoint (fun _ => Ok ())
      (Some Ghostdag.nodeE) true {[1]}
    = Some (Ok (finalized', nodesToDelete))
    /\ finalized'
       = {[1]} ∪ list_to_set (Ghostdag.hash <$> Finalization.pastNodes Ghostdag.nodeE)
    /\ if true
       then NoDup (Ghostdag.hash <$> nodesToDelete)
            /\ (list_to_set (Ghostdag.hash <$> nodesToDelete) : gset Ghostdag.Hash)
               = list_to_set (Ghostdag.hash <$> Finalization.pastNodes Ghostdag.nodeE)
                 ∖ {[1]}
       else nodesToDelete = [].
Proof.
  apply (finalizeNodesBelowFinalityPoint_marks_past (fun _ => Ok ()) Ghostdag.nodeE true).
  - intros a b Ha Hb Hhash. cbn in Ha, Hb.
    repeat (apply elem_of_cons in Ha as [->|Ha]);
      repeat (apply elem_of_cons in Hb as [->|Hb]);
      try done; try (by apply elem_of_nil in Ha); by apply elem_of_nil in Hb.
  - intros c p Hc Hin Hp. cbn in Hc.
    repeat (apply elem_of_cons in Hc as [->|Hc]);
      try (by apply elem_of_nil in Hc);
      try (by apply elem_of_nil in Hp);
      cbn in Hin; set_solver.
  - done.
Defined.

(** ** The entries of a UTXO diff and the iterator with a diff *)

Section DiffEntriesFacts.

Import UTXO DiffEntries.

Lemma containsWithBlueScore_None (uc : utxoCollection) (outpoint : Outpoint) (score : N) :
  uc !! outpoint = None -> containsWithBlueScore uc outpoint score = false.
Proof. intros Hnone. unfold containsWithBlueScore. by rewrite Hnone. Qed.

Lemma Contains_None (uc : utxoCollection) (outpoint : Outpoint) :
  uc !! outpoint = None -> Contains uc outpoint = false.
Proof.
  intros Hnone. unfold Contains. apply bool_decide_eq_false. rewrite Hnone.
  by intros [? ?].
Qed.

Lemma addEntry_keeps (d : utxoDiff) (outpoint : Outpoint) (entry : UTXOEntry) :
  distinctBlueScores d -> distinctBlueScores (addEntry d outpoint entry).1.
Proof.
  intros Hd. unfold addEntry, containsWithBlueScore.
  destruct (toRemove d !! outpoint) as [removed|] eqn:Hremoved.
  - destruct (bool_decide (BlockBlueScore removed = BlockBlueScore entry)) eqn:Hscore.
    + intros o a r Ha Hr. cbn [fst toAdd toRemove] in Ha, Hr.
      apply lookup_delete_Some in Hr as [_ Hr]. by apply (Hd o).
    + apply bool_decide_eq_false in Hscore.
      destruct (Contains (toAdd d) outpoint); [done|].
      intros o a r Ha Hr. cbn [fst toAdd toRemove] in Ha, Hr.
      apply lookup_insert_Some in Ha as [[<- <-]|[_ Ha]]; [|by apply (Hd o)].
      rewrite Hremoved in Hr. injection Hr as <-. congruence.
  - destruct (Contains (toAdd d) outpoint); [done|].
    intros o a r Ha Hr. cbn [fst toAdd toRemove] in Ha, Hr.
    apply lookup_insert_Some in Ha as [[<- <-]|[_ Ha]]; [congruence | by apply (Hd o)].
Qed.

Lemma removeEntry_keeps (d : utxoDiff) (outpoint : Outpoint) (entry : UTXOEntry) :
  distinctBlueScores d -> distinctBlueScores (removeEntry d outpoint entry).1.
Proof.
  intros Hd. unfold removeEntry, containsWithBlueScore.
  destruct (toAdd d !! outpoint) as [added|] eqn:Hadded.
  - destruct (bool_decide (BlockBlueScore added = BlockBlueScore entry)) eqn:Hscore.
    + intros o a r Ha Hr. cbn [fst toAdd toRemove] in Ha, Hr.
      apply lookup_delete_Some in Ha as [_ Ha]. by apply (Hd o).
    + apply bool_decide_eq_false in Hscore.
      destruct (Contains (toRemove d) outpoint); [done|].
      intros o a r Ha Hr. cbn [fst toAdd toRemove] in Ha, Hr.
      apply lookup_insert_Some in Hr as [[<- <-]|[_ Hr]]; [|by apply (Hd o)].
      rewrite Hadded in Ha. injection Ha as <-. done.
  - destruct (Contains (toRemove d) outpoint); [done|].
    intros o a r Ha Hr. cbn [fst toAdd toRemove] in Ha, Hr.
    apply lookup_insert_Some in Hr as [[<- <-]|[_ Hr]]; [congruence | by apply (Hd o)].
Qed.

Lemma removeInputs_keeps (inputs : list (Outpoint * UTXOEntry)) : forall d,
  distinctBlueScores d -> distinctBlueScores (removeInputs d inputs).1.
Proof.
  induction inputs as [|input rest IH]; intros d Hd; cbn [removeInputs]; [done|].
  pose proof (removeEntry_keeps d input.1 input.2 Hd) as Hstep.
  destruct (removeEntry d input.1 input.2) as [d1 [err|]]; [done|].
  by apply IH.
Qed.

Lemma addOutputs_keeps (transactionID : N) (isCoinbase : bool) (blockBlueScore : N)
    (outputs : list TxOut) : forall i d,
  distinctBlueScores d ->
  distinctBlueScores (addOutputs d transactionID isCoinbase blockBlueScore i outputs).1.
Proof.
  induction outputs as [|output rest IH]; intros i d Hd; cbn [addOutputs]; [done|].
  match goal with |- context [addEntry d ?o ?e] =>
    pose proof (addEntry_keeps d o e Hd) as Hstep;
    destruct (addEntry d o e) as [d1 [err|]] end; [done|].
  by apply IH.
Qed.

(** The items the iterator passes on from a base: those the diff does not
    remove. *)
Lemma nextOfBase_filter (removed : utxoCollection) (base : ReadOnlyUTXOSetIterator) :
  forall skipped,
  Forall (fun item => is_Some (itemOutpoint item) /\ is_Some (itemEntry item)) base ->
  match nextOfBase removed skipped base with
  | Ok (true, found, rest) =>
      filter (fun item => passedOn removed item = true) base
      = found :: filter (fun item => passedOn removed item = true) rest
      /\ (length rest < length base)%nat
      /\ Forall (fun item => is_Some (itemOutpoint item) /\ is_Some (itemEntry item)) rest
  | Ok (false, _, rest) =>
      filter (fun item => passedOn removed item = true) base = [] /\ rest = []
  | _ => False
  end.
Proof.
  induction base as [|item base IH]; intros skipped Hbase; cbn [nextOfBase]; [done|].
  apply Forall_cons in Hbase as [[[outpoint Houtpoint] [entry Hentry]] Hbase].
  unfold removedByDiff at 1. rewrite Houtpoint, Hentry. cbn [mbind result_bind].
  destruct (containsWithBlueScore removed outpoint (BlockBlueScore entry)) eqn:Hremoved.
  - rewrite filter_cons_False
      by (unfold passedOn, removedByDiff; rewrite Houtpoint, Hentry, Hremoved; cbn; congruence).
    specialize (IH item Hbase).
    destruct (nextOfBase removed item base) as [[[[] found] rest]| |]; [|done..].
    destruct IH as (-> & Hlen & Hrest). split; [done|]. split; [|done].
    cbn [length]. lia.
  - rewrite filter_cons_True
      by (unfold passedOn, removedByDiff; by rewrite Houtpoint, Hentry, Hremoved).
    split; [done|]. split; [|done]. cbn [length]. lia.
Qed.

(** A base item with a nil pointer, met after items that have both, ends
    [Next] in a nil dereference once no earlier item is left to yield. *)
Lemma nextOfBase_nil (removed : utxoCollection) (good : ReadOnlyUTXOSetIterator)
    (bad : iteratorItem) (rest : ReadOnlyUTXOSetIterator) : forall skipped,
  Forall (fun item => is_Some (itemOutpoint item) /\ is_Some (itemEntry item)) good ->
  itemOutpoint bad = None \/ itemEntry bad = None ->
  match nextOfBase removed skipped (good ++ bad :: rest) with
  | Ok (true, found, remaining) =>
      exists good',
        filter (fun item => passedOn removed item = true) good
        = found :: filter (fun item => passedOn removed item = true) good'
        /\ remaining = good' ++ bad :: rest
        /\ (length good' < length good)%nat
        /\ Forall (fun item => is_Some (itemOutpoint item) /\ is_Some (itemEntry item)) good'
  | Panicked p =>
      p = NilDereference
      /\ filter (fun item => passedOn removed item = true) good = []
  | _ => False
  end.
Proof.
  induction good as [|item good IH]; intros skipped Hgood Hbad;
    cbn [app nextOfBase].
  - unfold removedByDiff.
    destruct Hbad as [-> | ->]; [by destruct (itemEntry bad)|done].
  - apply Forall_cons in Hgood as [[[outpoint Houtpoint] [entry Hentry]] Hgood].
    unfold removedByDiff at 1. rewrite Houtpoint, Hentry. cbn [mbind result_bind].
    destruct (containsWithBlueScore removed outpoint (BlockBlueScore entry)) eqn:Hremoved.
    + rewrite filter_cons_False
        by (unfold passedOn, removedByDiff; rewrite Houtpoint, Hentry, Hremoved; cbn; congruence).
      specialize (IH item Hgood Hbad).
      destruct (nextOfBase removed item (good ++ bad :: rest))
        as [[[[] found] remaining]| |]; [|done..|done].
      destruct IH as (good' & -> & -> & Hlen & Hgood'). exists good'.
      split; [done|]. split; [done|]. split; [|done]. cbn [length]. lia.
    + rewrite filter_cons_True
        by (unfold passedOn, removedByDiff; by rewrite Houtpoint, Hentry, Hremoved).
      exists good. split; [done|]. split; [done|]. split; [|done]. cbn [length]. lia.
Qed.

End DiffEntriesFacts.

(** X25.  Adding and removing cancel.  For an outpoint that a diff neither
    adds nor removes, [addEntry] followed by [removeEntry] of the same
    entry gives back the diff, and so does [removeEntry] followed by
    [addEntry], all without an error; in between, a second [addEntry], or a
    second [removeEntry], of the outpoint returns an error and leaves the
    diff as it is. *)
Lemma addEntry_removeEntry_cancel (d : UTXO.utxoDiff) (outpoint : UTXO.Outpoint)
    (entry other : UTXO.UTXOEntry) :
  UTXO.toAdd d !! outpoint = None ->
  UTXO.toRemove d !! outpoint = None ->
  let added := (DiffEntries.addEntry d outpoint entry).1 in
  let removed := (DiffEntries.removeEntry d outpoint entry).1 in
  ((DiffEntries.addEntry d outpoint entry).2 = None
   /\ DiffEntries.removeEntry added outpoint entry = (d, None)
   /\ exists err, DiffEntries.addEntry added outpoint other = (added, Some err))
  /\ ((DiffEntries.removeEntry d outpoint entry).2 = None
      /\ DiffEntries.addEntry removed outpoint entry = (d, None)
      /\ exists err, DiffEntries.removeEntry removed outpoint other = (removed, Some err)).
Proof.
  intros Hadd Hremove. destruct d as [adds removes]. cbn [UTXO.toAdd UTXO.toRemove] in *.
  assert (DiffEntries.addEntry {| UTXO.toAdd := adds; UTXO.toRemove := removes |}
            outpoint entry
          = ({| UTXO.toAdd := <[outpoint := entry]> adds; UTXO.toRemove := removes |}, None))
    as ->.
  { unfold DiffEntries.addEntry. cbn [UTXO.toAdd UTXO.toRemove].
    by rewrite (containsWithBlueScore_None _ _ _ Hremove), (Contains_None _ _ Hadd). }
  assert (DiffEntries.removeEntry {| UTXO.toAdd := adds; UTXO.toRemove := removes |}
            outpoint entry
          = ({| UTXO.toAdd := adds; UTXO.toRemove := <[outpoint := entry]> removes |}, None))
    as ->.
  { unfold DiffEntries.removeEntry. cbn [UTXO.toAdd UTXO.toRemove].
    by rewrite (containsWithBlueScore_None _ _ _ Hadd), (Contains_None _ _ Hremove). }
  cbn zeta. cbn [fst snd]. split.
  - split; [done|]. split.
    + unfold DiffEntries.removeEntry, DiffEntries.containsWithBlueScore.
      cbn [UTXO.toAdd UTXO.toRemove]. rewrite lookup_insert_eq.
      rewrite bool_decide_eq_true_2 by done. by rewrite delete_insert_eq, delete_id.
    + unfold DiffEntries.addEntry. cbn [UTXO.toAdd UTXO.toRemove].
      rewrite (containsWithBlueScore_None _ _ _ Hremove).
      unfold DiffEntries.Contains. rewrite lookup_insert_eq.
      rewrite bool_decide_eq_true_2 by (by eexists). by eexists.
  - split; [done|]. split.
    + unfold DiffEntries.addEntry, DiffEntries.containsWithBlueScore.
      cbn [UTXO.toAdd UTXO.toRemove]. rewrite lookup_insert_eq.
      rewrite bool_decide_eq_true_2 by done. by rewrite delete_insert_eq, delete_id.
    + unfold DiffEntries.removeEntry. cbn [UTXO.toAdd UTXO.toRemove].
      rewrite (containsWithBlueScore_None _ _ _ Hadd).
      unfold DiffEntries.Contains. rewrite lookup_insert_eq.
      rewrite bool_decide_eq_true_2 by (by eexists). by eexists.
Qed.

(** The diff [diffToB] and the outpoint (4, 0), which it does not mention. *)
Lemma addEntry_removeEntry_cancel_witness :
  let added := (DiffEntries.addEntry UTXO.diffToB (4, 0) (UTXO.entryOf 10 9)).1 in
  let removed := (DiffEntries.removeEntry UTXO.diffToB (4, 0) (UTXO.entryOf 10 9)).1 in
  ((DiffEntries.addEntry UTXO.diffToB (4, 0) (UTXO.entryOf 10 9)).2 = None
   /\ DiffEntries.removeEntry added (4, 0) (UTXO.entryOf 10 9) = (UTXO.diffToB, None)
   /\ exists err,
        DiffEntries.addEntry added (4, 0) (UTXO.entryOf 11 9) = (added, Some err))
  /\ ((DiffEntries.removeEntry UTXO.diffToB (4, 0) (UTXO.entryOf 10 9)).2 = None
      /\ DiffEntries.addEntry removed (4, 0) (UTXO.entryOf 10 9) = (UTXO.diffToB, None)
      /\ exists err,
           DiffEntries.removeEntry removed (4, 0) (UTXO.entryOf 11 9)
           = (removed, Some err)).
Proof.
  apply (addEntry_removeEntry_cancel UTXO.diffToB (4, 0)); by vm_compute.
Defined.

(** X26.  [AddTransaction] keeps a diff free of outpoints that it both
    adds and removes at one blue score: if no outpoint of the diff is in
    [toAdd] and in [toRemove] with the same blue score, the same holds of
    the diff that [AddTransaction] leaves, whether it returns an error or
    not. *)
Lemma AddTransaction_keeps_distinct_blue_scores (md : UTXO.utxoDiff)
    (transaction : DiffEntries.DomainTransaction) (blockBlueScore : N) :
  DiffEntries.distinctBlueScores md ->
  DiffEntries.distinctBlueScores
    (DiffEntries.AddTransaction md transaction blockBlueScore).1.
Proof.
  intros Hmd. unfold DiffEntries.AddTransaction.
  pose proof (removeInputs_keeps (DiffEntries.Inputs transaction) md Hmd) as Hin.
  destruct (DiffEntries.removeInputs md (DiffEntries.Inputs transaction)) as [d [err|]];
    [done|].
  by apply addOutputs_keeps.
Qed.

(** The diff [diffToB] and a transaction that spends the output it removes
    and another one. *)
Lemma AddTransaction_keeps_distinct_blue_scores_witness :
  DiffEntries.distinctBlueScores UTXO.diffToB
  /\ DiffEntries.distinctBlueScores
       (DiffEntries.AddTransaction UTXO.diffToB DiffEntries.spendingTransaction 9).1.
Proof.
  assert (DiffEntries.distinctBlueScores UTXO.diffToB) as Hdistinct.
  { intros outpoint added removed Hadded Hremoved.
    cbn [UTXO.diffToB UTXO.toAdd UTXO.toRemove] in Hadded, Hremoved.
    apply lookup_singleton_Some in Hremoved as [<- <-].
    by vm_compute in Hadded. }
  split; [exact Hdistinct|].
  exact (AddTransaction_keeps_distinct_blue_scores UTXO.diffToB
           DiffEntries.spendingTransaction 9 Hdistinct).
Defined.

(** X27.  The iterator over a set with a diff.  While the base iterator
    returns items with an outpoint and an entry, the loop over the iterator
    yields, in base order, those that the diff does not remove at the blue
    score they carry, each with the error the base returned for it; when
    the base is exhausted it yields the items of the to-add iterator as
    they are, and then [Next] returns false.  At the first base item whose
    outpoint or entry is nil, [Next] ends in a nil dereference: the items
    before it have been yielded, and nothing of the to-add iterator. *)
Lemma drain_yields_base_without_removed_then_added
    (r : DiffEntries.readOnlyUTXOIteratorWithDiff)
    (good bad : DiffEntries.ReadOnlyUTXOSetIterator) (fuel : nat) :
  DiffEntries.baseIterator r = good ++ bad ->
  Forall (fun item => is_Some (DiffEntries.itemOutpoint item)
                      /\ is_Some (DiffEntries.itemEntry item)) good ->
  (forall item, head bad = Some item ->
                DiffEntries.itemOutpoint item = None \/ DiffEntries.itemEntry item = None) ->
  (length (DiffEntries.baseIterator r) + length (DiffEntries.toAddIterator r) < fuel)%nat ->
  let kept :=
    filter (fun item =>
              DiffEntries.passedOn (UTXO.toRemove (DiffEntries.diff r)) item = true)
           good in
  DiffEntries.drain fuel r
  = match bad with
    | [] => (kept ++ DiffEntries.toAddIterator r, None)
    | _ :: _ => (kept, Some NilDereference)
    end.
Proof.
  revert r good. induction fuel as [|fuel IH]; intros r good Hbase Hgood Hbad Hfuel; [lia|].
  cbn zeta. cbn [DiffEntries.drain]. unfold DiffEntries.Next.
  destruct bad as [|item rest].
  - rewrite app_nil_r in Hbase.
    pose proof (nextOfBase_filter (UTXO.toRemove (DiffEntries.diff r))
                  (DiffEntries.baseIterator r) (DiffEntries.current r)) as Hnext.
    rewrite Hbase in Hnext. specialize (Hnext Hgood). rewrite Hbase.
    destruct (DiffEntries.nextOfBase _ _ good) as [[[[] found] remaining]| |];
      cbn [mbind result_bind]; [| |done..].
    + destruct Hnext as (-> & Hlen & Hremaining).
      rewrite Hbase in Hfuel.
      rewrite (IH _ remaining) by
        (cbn [DiffEntries.baseIterator DiffEntries.toAddIterator];
         try done; try (by rewrite app_nil_r); lia).
      done.
    + destruct Hnext as [-> ->].
      destruct (DiffEntries.toAddIterator r) as [|added toAdd] eqn:HtoAdd; [done|].
      rewrite (IH _ []) by
        (cbn [DiffEntries.baseIterator DiffEntries.toAddIterator length] in *;
         try done; lia).
      done.
  - pose proof (nextOfBase_nil (UTXO.toRemove (DiffEntries.diff r)) good item rest
                  (DiffEntries.current r) Hgood (Hbad item eq_refl)) as Hnext.
    rewrite Hbase.
    destruct (DiffEntries.nextOfBase _ _ (good ++ item :: rest))
      as [[[[] found] remaining]| |]; cbn [mbind result_bind]; [|done..|].
    + destruct Hnext as (good' & -> & -> & Hlen & Hgood').
      rewrite Hbase, length_app in Hfuel.
      rewrite (IH _ good') by
        (cbn [DiffEntries.baseIterator DiffEntries.toAddIterator];
         try done; rewrite ?length_app; cbn [length] in *; lia).
      done.
    + by destruct Hnext as [-> ->].
Qed.

(** An iterator over three base items, one of them removed and one read
    with an error, and one added item: it yields three items, the error
    among them; and an iterator over a base that fails to read its second
    item: it yields the first and panics. *)
Lemma drain_yields_base_without_removed_then_added_witness :
  DiffEntries.drain 5 DiffEntries.overThree
  = ([DiffEntries.readItem (1, 0) (UTXO.entryOf 50 7);
      {| DiffEntries.itemOutpoint := Some (2, 1);
         DiffEntries.itemEntry := Some (UTXO.entryOf 30 5);
         DiffEntries.itemErr := Some (OtherError "checksum mismatch") |};
      DiffEntries.readItem (3, 0) (UTXO.entryOf 20 8)], None)
  /\ DiffEntries.drain 5 DiffEntries.overFailing
     = ([DiffEntries.readItem (1, 0) (UTXO.entryOf 50 7)], Some NilDereference).
Proof.
  split.
  - rewrite (drain_yields_base_without_removed_then_added DiffEntries.overThree
               (DiffEntries.baseIterator DiffEntries.overThree) [] 5).
    + by vm_compute.
    + by rewrite app_nil_r.
    + repeat constructor; by eexists.
    + by intros item [=].
    + cbn; lia.
  - rewrite (drain_yields_base_without_removed_then_added DiffEntries.overFailing
               [DiffEntries.readItem (1, 0) (UTXO.entryOf 50 7)]
               [DiffEntries.failedItem; DiffEntries.readItem (2, 1) (UTXO.entryOf 30 5)] 5).
    + by vm_compute.
    + done.
    + repeat constructor; by eexists.
    + intros item [= <-]. by left.
    + cbn; lia.
Defined.
